(** * Path-integral Langevin integrator of [fix dp_pimd]: a shallow embedding

    The development follows [src/REPLICA/fix_dp_pimd.cpp].  A C [double] is
    read as a real number ([R]): every statement below is a statement of
    exact real arithmetic about the formulas the code evaluates.  A C array
    is a total function from its index, updated in place by [aset]/[mset];
    memory that the code allocates without initialising is an arbitrary
    function handed to the routine that fills it.  A counted [for] loop is
    [for_loop], a left fold over the index range in the order of the code. *)

From Stdlib Require Import Reals Lra Lia List Arith ZArith Bool String Ascii ZifyNat.
Import ListNotations.

Local Open Scope R_scope.

(** ** Loops and arrays *)

Definition for_loop {S : Type} (lo hi : nat) (body : nat -> S -> S) (s : S) : S :=
  fold_left (fun acc i => body i acc) (seq lo (hi - lo)) s.

Definition array := nat -> R.
Definition matrix := nat -> nat -> R.

Definition aset {A : Type} (a : nat -> A) (i : nat) (v : A) : nat -> A :=
  fun i' => if Nat.eqb i' i then v else a i'.

Definition mset (M : matrix) (i j : nat) (v : R) : matrix :=
  fun i' j' => if Nat.eqb i' i && Nat.eqb j' j then v else M i' j'.

(** [des = 0.0; for (j = 0; j < n; j++) des += f j]. *)
Definition accumulate (n : nat) (f : nat -> R) : R :=
  for_loop 0 n (fun j acc => acc + f j) 0.

(** ** Enumerations and outcome of a fallible routine *)

Inductive method_t := PIMD | NMPIMD | CMD.
Inductive fmmode_t := physical | normal.
Inductive integrator_t := baoab | obabo.
Inductive thermostat_t := SVR | PILE_L | PILE_G.
Inductive barostat_t := MTTK | BZP.
Inductive ensemble_t := nve | nvt | nph | npt.
Inductive timethod_t := MSTI | SCTI.

(** [error->universe_all] and [error->all] stop every process of the grid:
    a routine that reaches one of them yields [Abort] with the message. *)
Inductive outcome (A : Type) : Type :=
  | Done (a : A)
  | Abort (msg : string).
Arguments Done {A} a.
Arguments Abort {A} msg.

Definition bind {A B : Type} (o : outcome A) (k : A -> outcome B) : outcome B :=
  match o with
  | Done a => k a
  | Abort msg => Abort msg
  end.

(** The sum of [f 0 .. f (n-1)]. *)
Fixpoint Rsum (f : nat -> R) (n : nat) : R :=
  match n with
  | O => 0
  | S n' => Rsum f n' + f n'
  end.

(** ** Normal-mode transform *)

Module NormalMode.

(** Eigenvalue loop of [nmpimd_init]. *)
Definition init_lam (np : nat) (lam0 : array) : array :=
  for_loop 0 np
    (fun i lam =>
       let sin_tmp := sin (INR i * PI / INR np) in
       aset lam i (4 * sin_tmp * sin_tmp))
    lam0.

(** "Set up eigenvectors for degenerated modes": for every column [j], rows
    [1 .. np/2] receive the cosine entry and rows [np/2+1 .. np-1] the sine
    entry. *)
Definition init_degenerate (np : nat) (M0 : matrix) : matrix :=
  for_loop 0 np
    (fun j M =>
       let M1 :=
         for_loop 1 (Nat.div np 2 + 1)
           (fun i M =>
              mset M i j
                (sqrt 2 * cos (2 * PI * INR i * INR j / INR np) / sqrt (INR np)))
           M in
       for_loop (Nat.div np 2 + 1) np
         (fun i M =>
            mset M i j
              (sqrt 2 * sin (2 * PI * INR i * INR j / INR np) / sqrt (INR np)))
         M1)
    M0.

(** "Set up eigenvectors for non-degenerated modes": row 0, and row [np/2]
    when [np] is even, are overwritten. *)
Definition init_nondegenerate (np : nat) (M0 : matrix) : matrix :=
  for_loop 0 np
    (fun i M =>
       let M1 := mset M 0 i (1 / sqrt (INR np)) in
       if Nat.eqb (Nat.modulo np 2) 0
       then mset M1 (Nat.div np 2) i (1 / sqrt (INR np) * (-1) ^ i)
       else M1)
    M0.

(** "Set up Ut". *)
Definition init_transpose (np : nat) (M_x2xp M0 : matrix) : matrix :=
  for_loop 0 np
    (fun i M => for_loop 0 np (fun j M => mset M i j (M_x2xp j i)) M)
    M0.

Record nm_tables := {
  lam : array;
  M_x2xp : matrix;
  M_xp2x : matrix
}.

(** [nmpimd_init]: [lam0], [A0], [B0] stand for the contents of the freshly
    allocated [lam], [M_x2xp] and [M_xp2x]. *)
Definition nmpimd_init (np : nat) (lam0 : array) (A0 B0 : matrix) : nm_tables :=
  let fwd := init_nondegenerate np (init_degenerate np A0) in
  {| lam := init_lam np lam0;
     M_x2xp := fwd;
     M_xp2x := init_transpose np fwd B0 |}.

(** Mass set-up at the end of [nmpimd_init], for one atom type of physical
    mass [m], on replica [iworld]. *)
Definition nm_mass (fmmode : fmmode_t) (fmass : R) (lam : array)
    (iworld : nat) (m : R) : R :=
  if Nat.eqb iworld 0 then m
  else
    (match fmmode with
     | physical => m * 1
     | normal => m * lam iworld
     end) * fmass.

(** [nmpimd_transform] for one coordinate slot: [src j] is the slot's value
    in [buf_beads[j]], [vector] the matrix row of the calling replica. *)
Definition nmpimd_transform (np : nat) (src : nat -> R) (vector : array) : R :=
  accumulate np (fun j => src j * vector j).

(** The tables as the specification words them. *)
Definition spec_eigenvalue (P k : nat) : R :=
  4 * (sin (INR k * PI / INR P)) ^ 2.

Definition spec_forward (P k j : nat) : R :=
  if Nat.eqb k 0 then 1 / sqrt (INR P)
  else if Nat.eqb (2 * k) P then 1 / sqrt (INR P) * (-1) ^ j
  else if Nat.ltb (2 * k) P
       then sqrt (2 / INR P) * cos (2 * PI * INR k * INR j / INR P)
       else sqrt (2 / INR P) * sin (2 * PI * INR k * INR j / INR P).

End NormalMode.

(** ** The constructor: keyword parsing *)

Module Config.

Record config := Cfg {
  method : method_t;
  fmmode : fmmode_t;
  integrator : integrator_t;
  thermostat : thermostat_t;
  barostat : barostat_t;
  ensemble : ensemble_t;
  fmass : R;
  temp : R;
  Lan_temp : R;
  sp : R;
  tau : R;
  tau_p : R;
  Pext : R;
  harmonicflag : bool;
  omega : R;
  tiflag : bool;
  timethod : timethod_t;
  lambda : R;
  pextflag : bool;
  mapflag : bool;
  removecomflag : bool;
  pilescale : R;
  seed : Z
}.

Definition set_method (c : config) (a : method_t) : config :=
  let '(Cfg _ x2 x3 x4 x5 x6 x7 x8 x9 x10 x11 x12 x13 x14 x15 x16 x17 x18 x19 x20 x21 x22 x23) := c in
  Cfg a x2 x3 x4 x5 x6 x7 x8 x9 x10 x11 x12 x13 x14 x15 x16 x17 x18 x19 x20 x21 x22 x23.
Definition set_fmmode (c : config) (a : fmmode_t) : config :=
  let '(Cfg x1 _ x3 x4 x5 x6 x7 x8 x9 x10 x11 x12 x13 x14 x15 x16 x17 x18 x19 x20 x21 x22 x23) := c in
  Cfg x1 a x3 x4 x5 x6 x7 x8 x9 x10 x11 x12 x13 x14 x15 x16 x17 x18 x19 x20 x21 x22 x23.
Definition set_integrator (c : config) (a : integrator_t) : config :=
  let '(Cfg x1 x2 _ x4 x5 x6 x7 x8 x9 x10 x11 x12 x13 x14 x15 x16 x17 x18 x19 x20 x21 x22 x23) := c in
  Cfg x1 x2 a x4 x5 x6 x7 x8 x9 x10 x11 x12 x13 x14 x15 x16 x17 x18 x19 x20 x21 x22 x23.
Definition set_thermostat (c : config) (a : thermostat_t) (s : Z) : config :=
  let '(Cfg x1 x2 x3 _ x5 x6 x7 x8 x9 x10 x11 x12 x13 x14 x15 x16 x17 x18 x19 x20 x21 x22 _) := c in
  Cfg x1 x2 x3 a x5 x6 x7 x8 x9 x10 x11 x12 x13 x14 x15 x16 x17 x18 x19 x20 x21 x22 s.
Definition set_barostat (c : config) (a : barostat_t) : config :=
  let '(Cfg x1 x2 x3 x4 _ x6 x7 x8 x9 x10 x11 x12 x13 x14 x15 x16 x17 x18 x19 x20 x21 x22 x23) := c in
  Cfg x1 x2 x3 x4 a x6 x7 x8 x9 x10 x11 x12 x13 x14 x15 x16 x17 x18 x19 x20 x21 x22 x23.
Definition set_ensemble (c : config) (a : ensemble_t) : config :=
  let '(Cfg x1 x2 x3 x4 x5 _ x7 x8 x9 x10 x11 x12 x13 x14 x15 x16 x17 x18 x19 x20 x21 x22 x23) := c in
  Cfg x1 x2 x3 x4 x5 a x7 x8 x9 x10 x11 x12 x13 x14 x15 x16 x17 x18 x19 x20 x21 x22 x23.
Definition set_fmass (c : config) (a : R) : config :=
  let '(Cfg x1 x2 x3 x4 x5 x6 _ x8 x9 x10 x11 x12 x13 x14 x15 x16 x17 x18 x19 x20 x21 x22 x23) := c in
  Cfg x1 x2 x3 x4 x5 x6 a x8 x9 x10 x11 x12 x13 x14 x15 x16 x17 x18 x19 x20 x21 x22 x23.
Definition set_temp (c : config) (a : R) : config :=
  let '(Cfg x1 x2 x3 x4 x5 x6 x7 _ x9 x10 x11 x12 x13 x14 x15 x16 x17 x18 x19 x20 x21 x22 x23) := c in
  Cfg x1 x2 x3 x4 x5 x6 x7 a x9 x10 x11 x12 x13 x14 x15 x16 x17 x18 x19 x20 x21 x22 x23.
Definition set_Lan_temp (c : config) (a : R) : config :=
  let '(Cfg x1 x2 x3 x4 x5 x6 x7 x8 _ x10 x11 x12 x13 x14 x15 x16 x17 x18 x19 x20 x21 x22 x23) := c in
  Cfg x1 x2 x3 x4 x5 x6 x7 x8 a x10 x11 x12 x13 x14 x15 x16 x17 x18 x19 x20 x21 x22 x23.
Definition set_sp (c : config) (a : R) : config :=
  let '(Cfg x1 x2 x3 x4 x5 x6 x7 x8 x9 _ x11 x12 x13 x14 x15 x16 x17 x18 x19 x20 x21 x22 x23) := c in
  Cfg x1 x2 x3 x4 x5 x6 x7 x8 x9 a x11 x12 x13 x14 x15 x16 x17 x18 x19 x20 x21 x22 x23.
Definition set_tau (c : config) (a : R) : config :=
  let '(Cfg x1 x2 x3 x4 x5 x6 x7 x8 x9 x10 _ x12 x13 x14 x15 x16 x17 x18 x19 x20 x21 x22 x23) := c in
  Cfg x1 x2 x3 x4 x5 x6 x7 x8 x9 x10 a x12 x13 x14 x15 x16 x17 x18 x19 x20 x21 x22 x23.
Definition set_tau_p (c : config) (a : R) : config :=
  let '(Cfg x1 x2 x3 x4 x5 x6 x7 x8 x9 x10 x11 _ x13 x14 x15 x16 x17 x18 x19 x20 x21 x22 x23) := c in
  Cfg x1 x2 x3 x4 x5 x6 x7 x8 x9 x10 x11 a x13 x14 x15 x16 x17 x18 x19 x20 x21 x22 x23.
Definition set_Pext (c : config) (a : R) : config :=
  let '(Cfg x1 x2 x3 x4 x5 x6 x7 x8 x9 x10 x11 x12 _ x14 x15 x16 x17 x18 x19 x20 x21 x22 x23) := c in
  Cfg x1 x2 x3 x4 x5 x6 x7 x8 x9 x10 x11 x12 a x14 x15 x16 x17 x18 x19 x20 x21 x22 x23.
Definition set_model (c : config) (a : R) : config :=
  let '(Cfg x1 x2 x3 x4 x5 x6 x7 x8 x9 x10 x11 x12 x13 _ _ x16 x17 x18 x19 x20 x21 x22 x23) := c in
  Cfg x1 x2 x3 x4 x5 x6 x7 x8 x9 x10 x11 x12 x13 true a x16 x17 x18 x19 x20 x21 x22 x23.
Definition set_ti (c : config) (a : timethod_t) (l : R) : config :=
  let '(Cfg x1 x2 x3 x4 x5 x6 x7 x8 x9 x10 x11 x12 x13 x14 x15 _ _ _ x19 x20 x21 x22 x23) := c in
  Cfg x1 x2 x3 x4 x5 x6 x7 x8 x9 x10 x11 x12 x13 x14 x15 true a l x19 x20 x21 x22 x23.
Definition set_pextflag (c : config) (a : bool) : config :=
  let '(Cfg x1 x2 x3 x4 x5 x6 x7 x8 x9 x10 x11 x12 x13 x14 x15 x16 x17 x18 _ x20 x21 x22 x23) := c in
  Cfg x1 x2 x3 x4 x5 x6 x7 x8 x9 x10 x11 x12 x13 x14 x15 x16 x17 x18 a x20 x21 x22 x23.
Definition set_mapflag (c : config) (a : bool) : config :=
  let '(Cfg x1 x2 x3 x4 x5 x6 x7 x8 x9 x10 x11 x12 x13 x14 x15 x16 x17 x18 x19 _ x21 x22 x23) := c in
  Cfg x1 x2 x3 x4 x5 x6 x7 x8 x9 x10 x11 x12 x13 x14 x15 x16 x17 x18 x19 a x21 x22 x23.
Definition set_removecomflag (c : config) (a : bool) : config :=
  let '(Cfg x1 x2 x3 x4 x5 x6 x7 x8 x9 x10 x11 x12 x13 x14 x15 x16 x17 x18 x19 x20 _ x22 x23) := c in
  Cfg x1 x2 x3 x4 x5 x6 x7 x8 x9 x10 x11 x12 x13 x14 x15 x16 x17 x18 x19 x20 a x22 x23.
Definition set_pilescale (c : config) (a : R) : config :=
  let '(Cfg x1 x2 x3 x4 x5 x6 x7 x8 x9 x10 x11 x12 x13 x14 x15 x16 x17 x18 x19 x20 x21 _ x23) := c in
  Cfg x1 x2 x3 x4 x5 x6 x7 x8 x9 x10 x11 x12 x13 x14 x15 x16 x17 x18 x19 x20 x21 a x23.

(** [a < 0.0] on doubles, as a boolean. *)
Definition Rltb (a b : R) : bool := if Rlt_dec a b then true else false.
Definition Rleb (a b : R) : bool := if Rle_dec a b then true else false.

Section Constructor.

(** The C library's [atof] and [atoi]; [pilescale0] and [seed0] are the
    contents of the two members the constructor gives no default;
    [seed_oob] and [lambda_oob] are what [atoi(arg[i+2])] and
    [atof(arg[i+2])] yield when [i+2] is past the last argument. *)
Variable atof : string -> R.
Variable atoi : string -> Z.
Variables (pilescale0 lambda_oob : R) (seed0 seed_oob : Z).

Definition defaults : config :=
  {| method := NMPIMD; fmmode := physical; integrator := obabo;
     thermostat := PILE_L; barostat := BZP; ensemble := nvt;
     fmass := 1; temp := 298.15; Lan_temp := 298.15; sp := 1;
     tau := 1; tau_p := 1; Pext := 1; harmonicflag := false; omega := 0;
     tiflag := false; timethod := MSTI; lambda := 0; pextflag := false;
     mapflag := true; removecomflag := true;
     pilescale := pilescale0; seed := seed0 |}.

Local Open Scope string_scope.

(** The body of the keyword loop for [arg[i] = k], [arg[i+1] = v]; [next]
    is [arg[i+2]] when it exists.  The boolean tells whether the branch
    executed the extra [i++]. *)
Definition keyword (c : config) (k v : string) (next : option string)
  : outcome (config * bool) :=
  let third_i := match next with Some s => atoi s | None => seed_oob end in
  let third_f := match next with Some s => atof s | None => lambda_oob end in
  if k =? "method" then
    if v =? "pimd" then Done (set_method c PIMD, false)
    else if v =? "nmpimd" then Done (set_method c NMPIMD, false)
    else if v =? "cmd" then Done (set_method c CMD, false)
    else Abort "Unknown method parameter for fix pimd"
  else if k =? "integrator" then
    if v =? "obabo" then Done (set_integrator c obabo, false)
    else if v =? "baoab" then Done (set_integrator c baoab, false)
    else Abort "Unknown integrator parameter for fix pimd. Only obabo and baoab integrators is supported!"
  else if k =? "ensemble" then
    if v =? "nve" then Done (set_ensemble c nve, false)
    else if v =? "nvt" then Done (set_ensemble c nvt, false)
    else if v =? "nph" then Done (set_pextflag (set_ensemble c nph) true, false)
    else if v =? "npt" then Done (set_pextflag (set_ensemble c npt) true, false)
    else Abort "Unknown ensemble parameter for fix pimd. Only nve ,nvt, nph, and npt ensembles are supported!"
  else if k =? "fmass" then
    let c' := set_fmass c (atof v) in
    if Rltb (fmass c') 0 || Rltb 1 (fmass c')
    then Abort "Invalid fmass value for fix pimd" else Done (c', false)
  else if k =? "fmmode" then
    if v =? "physical" then Done (set_fmmode c physical, false)
    else if v =? "normal" then Done (set_fmmode c normal, false)
    else Abort "Unknown fictitious mass mode for fix pimd. Only physical mass and normal mode mass are supported!"
  else if k =? "scale" then
    let c' := set_pilescale c (atof v) in
    if Rltb (pilescale c') 0
    then Abort "Invalid pile scale value for fix pimd" else Done (c', false)
  else if k =? "sp" then
    let c' := set_sp c (atof v) in
    if Rltb (fmass c') 0
    then Abort "Invalid sp value for fix pimd" else Done (c', false)
  else if k =? "temp" then
    let c' := set_temp c (atof v) in
    if Rltb (temp c') 0
    then Abort "Invalid temp value for fix pimd" else Done (c', false)
  else if k =? "thermostat" then
    if v =? "PILE_G" then Done (set_thermostat c PILE_G third_i, true)
    else if v =? "SVR" then Done (set_thermostat c SVR third_i, true)
    else if v =? "PILE_L" then Done (set_thermostat c PILE_L third_i, true)
    else Abort "Unknown thermostat parameter for fix pimd"
  else if k =? "tau" then Done (set_tau c (atof v), false)
  else if k =? "press" then
    let c' := set_Pext c (atof v) in
    if Rltb (Pext c') 0
    then Abort "Invalid press value for fix pimd" else Done (c', false)
  else if k =? "barostat" then
    if v =? "MTTK" then Done (set_barostat c MTTK, false)
    else if v =? "BZP" then Done (set_barostat c BZP, false)
    else Abort "Unknown barostat parameter for fix pimd"
  else if k =? "taup" then
    let c' := set_tau_p c (atof v) in
    if Rleb (tau_p c') 0
    then Abort "Invalid tau_p value for fix pimd" else Done (c', false)
  else if k =? "ti" then
    if v =? "MSTI" then Done (set_ti c MSTI third_f, true)
    else if v =? "SCTI" then Done (set_ti c SCTI third_f, true)
    else Abort "Unknown method parameter for thermodynamic integration"
  else if k =? "model" then
    let c' := set_model c (atof v) in
    if Rltb (omega c') 0
    then Abort "Invalid model frequency value for fix pimd" else Done (c', false)
  else if k =? "fixcom" then
    if v =? "no" then Done (set_removecomflag c true, false)
    else if v =? "yes" then Done (set_removecomflag c false, false)
    else Done (c, false)
  else if k =? "map" then
    if v =? "yes" then Done (set_mapflag c true, false)
    else if v =? "no" then Done (set_mapflag c false, false)
    else Done (c, false)
  else Abort "Unknown keyword for fix pimd".

(** [for (i = 3; i < narg-1; i += 2)] over the arguments from [arg[i]] on:
    the loop runs while two arguments remain. *)
Fixpoint keyword_loop (rest : list string) (c : config) : outcome config :=
  match rest with
  | k :: v :: rest2 =>
      match keyword c k v (hd_error rest2) with
      | Abort msg => Abort msg
      | Done (c', extra) =>
          if extra
          then match rest2 with
               | [] => Done c'
               | _ :: rest3 => keyword_loop rest3 c'
               end
          else keyword_loop rest2 c'
      end
  | _ => Done c
  end.

(** The constructor, up to the members it derives from the keywords:
    [arg[0..2]] are the fix id, group and style. *)
Definition constructor (arg : list string) : outcome config :=
  bind (keyword_loop (skipn 3 arg) defaults)
       (fun c => Done (set_Lan_temp c (temp c))).

End Constructor.

End Config.

(** ** The constructor over IEEE doubles

    [Config] reads a [double] as a real number.  The keyword checks of the
    constructor are comparisons, and a comparison with NaN is false, so for
    the checks the doubles are read once more as what they are: a real
    number, an infinity or NaN.  The constructor only stores and compares
    them. *)

Module Ieee.

Inductive double :=
  | Fin (r : R)
  | PInf
  | NInf
  | NaN.

Record config := Cfg {
  method : method_t;
  fmmode : fmmode_t;
  integrator : integrator_t;
  thermostat : thermostat_t;
  barostat : barostat_t;
  ensemble : ensemble_t;
  fmass : double;
  temp : double;
  Lan_temp : double;
  sp : double;
  tau : double;
  tau_p : double;
  Pext : double;
  harmonicflag : bool;
  omega : double;
  tiflag : bool;
  timethod : timethod_t;
  lambda : double;
  pextflag : bool;
  mapflag : bool;
  removecomflag : bool;
  pilescale : double;
  seed : Z
}.

Definition set_method (c : config) (a : method_t) : config :=
  let '(Cfg _ x2 x3 x4 x5 x6 x7 x8 x9 x10 x11 x12 x13 x14 x15 x16 x17 x18 x19 x20 x21 x22 x23) := c in
  Cfg a x2 x3 x4 x5 x6 x7 x8 x9 x10 x11 x12 x13 x14 x15 x16 x17 x18 x19 x20 x21 x22 x23.
Definition set_fmmode (c : config) (a : fmmode_t) : config :=
  let '(Cfg x1 _ x3 x4 x5 x6 x7 x8 x9 x10 x11 x12 x13 x14 x15 x16 x17 x18 x19 x20 x21 x22 x23) := c in
  Cfg x1 a x3 x4 x5 x6 x7 x8 x9 x10 x11 x12 x13 x14 x15 x16 x17 x18 x19 x20 x21 x22 x23.
Definition set_integrator (c : config) (a : integrator_t) : config :=
  let '(Cfg x1 x2 _ x4 x5 x6 x7 x8 x9 x10 x11 x12 x13 x14 x15 x16 x17 x18 x19 x20 x21 x22 x23) := c in
  Cfg x1 x2 a x4 x5 x6 x7 x8 x9 x10 x11 x12 x13 x14 x15 x16 x17 x18 x19 x20 x21 x22 x23.
Definition set_thermostat (c : config) (a : thermostat_t) (s : Z) : config :=
  let '(Cfg x1 x2 x3 _ x5 x6 x7 x8 x9 x10 x11 x12 x13 x14 x15 x16 x17 x18 x19 x20 x21 x22 _) := c in
  Cfg x1 x2 x3 a x5 x6 x7 x8 x9 x10 x11 x12 x13 x14 x15 x16 x17 x18 x19 x20 x21 x22 s.
Definition set_barostat (c : config) (a : barostat_t) : config :=
  let '(Cfg x1 x2 x3 x4 _ x6 x7 x8 x9 x10 x11 x12 x13 x14 x15 x16 x17 x18 x19 x20 x21 x22 x23) := c in
  Cfg x1 x2 x3 x4 a x6 x7 x8 x9 x10 x11 x12 x13 x14 x15 x16 x17 x18 x19 x20 x21 x22 x23.
Definition set_ensemble (c : config) (a : ensemble_t) : config :=
  let '(Cfg x1 x2 x3 x4 x5 _ x7 x8 x9 x10 x11 x12 x13 x14 x15 x16 x17 x18 x19 x20 x21 x22 x23) := c in
  Cfg x1 x2 x3 x4 x5 a x7 x8 x9 x10 x11 x12 x13 x14 x15 x16 x17 x18 x19 x20 x21 x22 x23.
Definition set_fmass (c : config) (a : double) : config :=
  let '(Cfg x1 x2 x3 x4 x5 x6 _ x8 x9 x10 x11 x12 x13 x14 x15 x16 x17 x18 x19 x20 x21 x22 x23) := c in
  Cfg x1 x2 x3 x4 x5 x6 a x8 x9 x10 x11 x12 x13 x14 x15 x16 x17 x18 x19 x20 x21 x22 x23.
Definition set_temp (c : config) (a : double) : config :=
  let '(Cfg x1 x2 x3 x4 x5 x6 x7 _ x9 x10 x11 x12 x13 x14 x15 x16 x17 x18 x19 x20 x21 x22 x23) := c in
  Cfg x1 x2 x3 x4 x5 x6 x7 a x9 x10 x11 x12 x13 x14 x15 x16 x17 x18 x19 x20 x21 x22 x23.
Definition set_Lan_temp (c : config) (a : double) : config :=
  let '(Cfg x1 x2 x3 x4 x5 x6 x7 x8 _ x10 x11 x12 x13 x14 x15 x16 x17 x18 x19 x20 x21 x22 x23) := c in
  Cfg x1 x2 x3 x4 x5 x6 x7 x8 a x10 x11 x12 x13 x14 x15 x16 x17 x18 x19 x20 x21 x22 x23.
Definition set_sp (c : config) (a : double) : config :=
  let '(Cfg x1 x2 x3 x4 x5 x6 x7 x8 x9 _ x11 x12 x13 x14 x15 x16 x17 x18 x19 x20 x21 x22 x23) := c in
  Cfg x1 x2 x3 x4 x5 x6 x7 x8 x9 a x11 x12 x13 x14 x15 x16 x17 x18 x19 x20 x21 x22 x23.
Definition set_tau (c : config) (a : double) : config :=
  let '(Cfg x1 x2 x3 x4 x5 x6 x7 x8 x9 x10 _ x12 x13 x14 x15 x16 x17 x18 x19 x20 x21 x22 x23) := c in
  Cfg x1 x2 x3 x4 x5 x6 x7 x8 x9 x10 a x12 x13 x14 x15 x16 x17 x18 x19 x20 x21 x22 x23.
Definition set_tau_p (c : config) (a : double) : config :=
  let '(Cfg x1 x2 x3 x4 x5 x6 x7 x8 x9 x10 x11 _ x13 x14 x15 x16 x17 x18 x19 x20 x21 x22 x23) := c in
  Cfg x1 x2 x3 x4 x5 x6 x7 x8 x9 x10 x11 a x13 x14 x15 x16 x17 x18 x19 x20 x21 x22 x23.
Definition set_Pext (c : config) (a : double) : config :=
  let '(Cfg x1 x2 x3 x4 x5 x6 x7 x8 x9 x10 x11 x12 _ x14 x15 x16 x17 x18 x19 x20 x21 x22 x23) := c in
  Cfg x1 x2 x3 x4 x5 x6 x7 x8 x9 x10 x11 x12 a x14 x15 x16 x17 x18 x19 x20 x21 x22 x23.
Definition set_model (c : config) (a : double) : config :=
  let '(Cfg x1 x2 x3 x4 x5 x6 x7 x8 x9 x10 x11 x12 x13 _ _ x16 x17 x18 x19 x20 x21 x22 x23) := c in
  Cfg x1 x2 x3 x4 x5 x6 x7 x8 x9 x10 x11 x12 x13 true a x16 x17 x18 x19 x20 x21 x22 x23.
Definition set_ti (c : config) (a : timethod_t) (l : double) : config :=
  let '(Cfg x1 x2 x3 x4 x5 x6 x7 x8 x9 x10 x11 x12 x13 x14 x15 _ _ _ x19 x20 x21 x22 x23) := c in
  Cfg x1 x2 x3 x4 x5 x6 x7 x8 x9 x10 x11 x12 x13 x14 x15 true a l x19 x20 x21 x22 x23.
Definition set_pextflag (c : config) (a : bool) : config :=
  let '(Cfg x1 x2 x3 x4 x5 x6 x7 x8 x9 x10 x11 x12 x13 x14 x15 x16 x17 x18 _ x20 x21 x22 x23) := c in
  Cfg x1 x2 x3 x4 x5 x6 x7 x8 x9 x10 x11 x12 x13 x14 x15 x16 x17 x18 a x20 x21 x22 x23.
Definition set_mapflag (c : config) (a : bool) : config :=
  let '(Cfg x1 x2 x3 x4 x5 x6 x7 x8 x9 x10 x11 x12 x13 x14 x15 x16 x17 x18 x19 _ x21 x22 x23) := c in
  Cfg x1 x2 x3 x4 x5 x6 x7 x8 x9 x10 x11 x12 x13 x14 x15 x16 x17 x18 x19 a x21 x22 x23.
Definition set_removecomflag (c : config) (a : bool) : config :=
  let '(Cfg x1 x2 x3 x4 x5 x6 x7 x8 x9 x10 x11 x12 x13 x14 x15 x16 x17 x18 x19 x20 _ x22 x23) := c in
  Cfg x1 x2 x3 x4 x5 x6 x7 x8 x9 x10 x11 x12 x13 x14 x15 x16 x17 x18 x19 x20 a x22 x23.
Definition set_pilescale (c : config) (a : double) : config :=
  let '(Cfg x1 x2 x3 x4 x5 x6 x7 x8 x9 x10 x11 x12 x13 x14 x15 x16 x17 x18 x19 x20 x21 _ x23) := c in
  Cfg x1 x2 x3 x4 x5 x6 x7 x8 x9 x10 x11 x12 x13 x14 x15 x16 x17 x18 x19 x20 x21 a x23.

(** [a < b] and [a <= b] on doubles: false as soon as an operand is NaN. *)
Definition ltb (a b : double) : bool :=
  match a, b with
  | NaN, _ | _, NaN => false
  | Fin x, Fin y => Config.Rltb x y
  | NInf, (Fin _ | PInf) => true
  | Fin _, PInf => true
  | _, _ => false
  end.
Definition leb (a b : double) : bool :=
  match a, b with
  | NaN, _ | _, NaN => false
  | Fin x, Fin y => Config.Rleb x y
  | NInf, _ => true
  | _, PInf => true
  | _, _ => false
  end.

Section Constructor.

(** The parameters are those of [Config.constructor]; [atof] may yield
    any double ([strtod] reads [nan] and [inf]). *)
Variable atof : string -> double.
Variable atoi : string -> Z.
Variables (pilescale0 lambda_oob : double) (seed0 seed_oob : Z).

Definition defaults : config :=
  {| method := NMPIMD; fmmode := physical; integrator := obabo;
     thermostat := PILE_L; barostat := BZP; ensemble := nvt;
     fmass := Fin 1; temp := Fin 298.15; Lan_temp := Fin 298.15;
     sp := Fin 1; tau := Fin 1; tau_p := Fin 1; Pext := Fin 1;
     harmonicflag := false; omega := Fin 0;
     tiflag := false; timethod := MSTI; lambda := Fin 0; pextflag := false;
     mapflag := true; removecomflag := true;
     pilescale := pilescale0; seed := seed0 |}.

Local Open Scope string_scope.

(** The body of the keyword loop for [arg[i] = k], [arg[i+1] = v]; [next]
    is [arg[i+2]] when it exists.  The boolean tells whether the branch
    executed the extra [i++]. *)
Definition keyword (c : config) (k v : string) (next : option string)
  : outcome (config * bool) :=
  let third_i := match next with Some s => atoi s | None => seed_oob end in
  let third_f := match next with Some s => atof s | None => lambda_oob end in
  if k =? "method" then
    if v =? "pimd" then Done (set_method c PIMD, false)
    else if v =? "nmpimd" then Done (set_method c NMPIMD, false)
    else if v =? "cmd" then Done (set_method c CMD, false)
    else Abort "Unknown method parameter for fix pimd"
  else if k =? "integrator" then
    if v =? "obabo" then Done (set_integrator c obabo, false)
    else if v =? "baoab" then Done (set_integrator c baoab, false)
    else Abort "Unknown integrator parameter for fix pimd. Only obabo and baoab integrators is supported!"
  else if k =? "ensemble" then
    if v =? "nve" then Done (set_ensemble c nve, false)
    else if v =? "nvt" then Done (set_ensemble c nvt, false)
    else if v =? "nph" then Done (set_pextflag (set_ensemble c nph) true, false)
    else if v =? "npt" then Done (set_pextflag (set_ensemble c npt) true, false)
    else Abort "Unknown ensemble parameter for fix pimd. Only nve ,nvt, nph, and npt ensembles are supported!"
  else if k =? "fmass" then
    let c' := set_fmass c (atof v) in
    if ltb (fmass c') (Fin 0) || ltb (Fin 1) (fmass c')
    then Abort "Invalid fmass value for fix pimd" else Done (c', false)
  else if k =? "fmmode" then
    if v =? "physical" then Done (set_fmmode c physical, false)
    else if v =? "normal" then Done (set_fmmode c normal, false)
    else Abort "Unknown fictitious mass mode for fix pimd. Only physical mass and normal mode mass are supported!"
  else if k =? "scale" then
    let c' := set_pilescale c (atof v) in
    if ltb (pilescale c') (Fin 0)
    then Abort "Invalid pile scale value for fix pimd" else Done (c', false)
  else if k =? "sp" then
    let c' := set_sp c (atof v) in
    if ltb (fmass c') (Fin 0)
    then Abort "Invalid sp value for fix pimd" else Done (c', false)
  else if k =? "temp" then
    let c' := set_temp c (atof v) in
    if ltb (temp c') (Fin 0)
    then Abort "Invalid temp value for fix pimd" else Done (c', false)
  else if k =? "thermostat" then
    if v =? "PILE_G" then Done (set_thermostat c PILE_G third_i, true)
    else if v =? "SVR" then Done (set_thermostat c SVR third_i, true)
    else if v =? "PILE_L" then Done (set_thermostat c PILE_L third_i, true)
    else Abort "Unknown thermostat parameter for fix pimd"
  else if k =? "tau" then Done (set_tau c (atof v), false)
  else if k =? "press" then
    let c' := set_Pext c (atof v) in
    if ltb (Pext c') (Fin 0)
    then Abort "Invalid press value for fix pimd" else Done (c', false)
  else if k =? "barostat" then
    if v =? "MTTK" then Done (set_barostat c MTTK, false)
    else if v =? "BZP" then Done (set_barostat c BZP, false)
    else Abort "Unknown barostat parameter for fix pimd"
  else if k =? "taup" then
    let c' := set_tau_p c (atof v) in
    if leb (tau_p c') (Fin 0)
    then Abort "Invalid tau_p value for fix pimd" else Done (c', false)
  else if k =? "ti" then
    if v =? "MSTI" then Done (set_ti c MSTI third_f, true)
    else if v =? "SCTI" then Done (set_ti c SCTI third_f, true)
    else Abort "Unknown method parameter for thermodynamic integration"
  else if k =? "model" then
    let c' := set_model c (atof v) in
    if ltb (omega c') (Fin 0)
    then Abort "Invalid model frequency value for fix pimd" else Done (c', false)
  else if k =? "fixcom" then
    if v =? "no" then Done (set_removecomflag c true, false)
    else if v =? "yes" then Done (set_removecomflag c false, false)
    else Done (c, false)
  else if k =? "map" then
    if v =? "yes" then Done (set_mapflag c true, false)
    else if v =? "no" then Done (set_mapflag c false, false)
    else Done (c, false)
  else Abort "Unknown keyword for fix pimd".

(** [for (i = 3; i < narg-1; i += 2)] over the arguments from [arg[i]] on:
    the loop runs while two arguments remain. *)
Fixpoint keyword_loop (rest : list string) (c : config) : outcome config :=
  match rest with
  | k :: v :: rest2 =>
      match keyword c k v (hd_error rest2) with
      | Abort msg => Abort msg
      | Done (c', extra) =>
          if extra
          then match rest2 with
               | [] => Done c'
               | _ :: rest3 => keyword_loop rest3 c'
               end
          else keyword_loop rest2 c'
      end
  | _ => Done c
  end.

(** The constructor, up to the members it derives from the keywords:
    [arg[0..2]] are the fix id, group and style. *)
Definition constructor (arg : list string) : outcome config :=
  bind (keyword_loop (skipn 3 arg) defaults)
       (fun c => Done (set_Lan_temp c (temp c))).

End Constructor.

(** A configuration of real members, read as doubles. *)
Definition of_real (c : Config.config) : config :=
  {| method := Config.method c; fmmode := Config.fmmode c;
     integrator := Config.integrator c; thermostat := Config.thermostat c;
     barostat := Config.barostat c; ensemble := Config.ensemble c;
     fmass := Fin (Config.fmass c); temp := Fin (Config.temp c);
     Lan_temp := Fin (Config.Lan_temp c); sp := Fin (Config.sp c);
     tau := Fin (Config.tau c); tau_p := Fin (Config.tau_p c);
     Pext := Fin (Config.Pext c); harmonicflag := Config.harmonicflag c;
     omega := Fin (Config.omega c); tiflag := Config.tiflag c;
     timethod := Config.timethod c; lambda := Fin (Config.lambda c);
     pextflag := Config.pextflag c; mapflag := Config.mapflag c;
     removecomflag := Config.removecomflag c;
     pilescale := Fin (Config.pilescale c); seed := Config.seed c |}.

End Ieee.

(** ** Set-up constants and the Langevin tables *)

(** Unit-conversion constants of the host ([force->...]). *)
Record units := {
  boltz : R;
  hplanck : R;
  mvv2e : R;
  ftm2v : R;
  nktv2p : R
}.

Module Setup.
Import Config.

(** Members set by [init]. *)
Record consts := {
  np : nat;
  hbar : R;
  kBT : R;
  beta : R;
  omega_np : R;
  fbond : R;
  beta_np : R;
  dtf : R;
  dtv : R;
  dtv2 : R;
  dtv3 : R;
  W : R;
  Vcoeff : R
}.

(** [init]: [nworlds] is [universe->nworlds], [dt] is [update->dt], [natoms]
    is [atom->natoms], [map_style] is [atom->map_style]; [W0] and [Vcoeff0]
    are the contents of the two members when no barostat sets them. *)
Definition init (c : config) (u : units) (nworlds : nat) (dt : R)
    (natoms : nat) (map_style : nat) (W0 Vcoeff0 : R) : outcome consts :=
  if Nat.eqb map_style 0
  then Abort "Fix pimd requires an atom map, see atom_modify"
  else
    let np := nworlds in
    let hbar := hplanck u in
    let kBT := boltz u * temp c in
    let beta := 1 / kBT in
    let _fbond := 1 * INR np * INR np / (beta * beta * hbar * hbar) in
    let dtv := 0.5 * dt in
    let dtv2 := dtv * dtv in
    Done {| np := np;
            hbar := hbar;
            kBT := kBT;
            beta := beta;
            omega_np := INR np / (hbar * beta) * sqrt (mvv2e u);
            fbond := _fbond * mvv2e u;
            beta_np := 1 / boltz u / Lan_temp c / INR np;
            dtf := 0.5 * dt * ftm2v u;
            dtv := dtv;
            dtv2 := dtv2;
            dtv3 := 1 / 3 * dtv2 * dtv * ftm2v u;
            W := if pextflag c
                 then 3 * INR natoms * tau_p c * tau_p c * INR np * kBT
                 else W0;
            Vcoeff := if pextflag c then 1 else Vcoeff0 |}.

Record langevin := {
  _omega_np : R;
  _omega_k : array;
  Lan_c : array;
  Lan_s : array;
  gamma : R;
  c1 : R;
  c2 : R;
  tau_k : array;
  c1_k : array;
  c2_k : array
}.

(** Bodies of the two variants of the first loop of [Langevin_init]. *)
Definition physical_body (_omega_np _omega_np_dt_half : R) (lam : array)
    (i : nat) (st : array * array * array) : array * array * array :=
  let '(w, lc, ls) := st in
  (aset w i (_omega_np * sqrt (lam i)),
   aset lc i (cos (sqrt (lam i) * _omega_np_dt_half)),
   aset ls i (sin (sqrt (lam i) * _omega_np_dt_half))).

Definition normal_body (_omega_np _omega_np_dt_half : R)
    (i : nat) (st : array * array * array) : array * array * array :=
  let '(w, lc, ls) := st in
  (aset w i _omega_np,
   aset lc i (cos _omega_np_dt_half),
   aset ls i (sin _omega_np_dt_half)).

(** Body of the per-mode thermostat loop of [Langevin_init]. *)
Definition pile_body (c : config) (dt : R) (_omega_k : array)
    (i : nat) (st : array * array * array) : array * array * array :=
  let '(tk, ck, sk) := st in
  let tk' := aset tk i (0.5 / pilescale c / _omega_k i) in
  let ck' :=
    aset ck i
      (match integrator c with
       | obabo => exp (- 0.5 * dt / tk' i)
       | baoab => exp (- 1 * dt / tk' i)
       end) in
  let sk' := aset sk i (sqrt (1 - ck' i * ck' i)) in
  (tk', ck', sk').

(** [Langevin_init]: [lam] is the eigenvalue table of [nmpimd_init]; the
    arrays [g1 .. g6] are the contents of the six arrays before the loops
    write them ([g4 .. g6] stay as they are when the thermostat is SVR,
    which allocates no per-mode table). *)
Definition Langevin_init (c : config) (u : units) (k : consts) (dt : R)
    (lam : array) (g1 g2 g3 g4 g5 g6 : array) : langevin :=
  let KT := boltz u * Lan_temp c in
  let beta := 1 / KT in
  let _omega_np := INR (np k) / beta / hbar k in
  let _omega_np_dt_half := _omega_np * dt * 0.5 in
  let modes :=
    match fmmode c with
    | physical =>
        for_loop 0 (np k) (physical_body _omega_np _omega_np_dt_half lam)
          (g1, g2, g3)
    | normal =>
        for_loop 0 (np k) (normal_body _omega_np _omega_np_dt_half)
          (g1, g2, g3)
    end in
  let _omega_k := fst (fst modes) in
  let Lan_c := snd (fst modes) in
  let Lan_s := snd modes in
  let gamma := if Rltb 0 (tau c) then 1 / tau c else INR (np k) / beta / hbar k in
  let c1 :=
    match integrator c with
    | obabo => exp (- gamma * 0.5 * dt)
    | baoab => exp (- gamma * dt)
    end in
  let c2 := sqrt (1 - c1 * c1) in
  let pile :=
    match thermostat c with
    | PILE_L | PILE_G =>
        for_loop 1 (np k) (pile_body c dt _omega_k)
          (aset g4 0 (tau c), aset g5 0 c1, aset g6 0 c2)
    | SVR => (g4, g5, g6)
    end in
  {| _omega_np := _omega_np; _omega_k := _omega_k; Lan_c := Lan_c;
     Lan_s := Lan_s; gamma := gamma; c1 := c1; c2 := c2;
     tau_k := fst (fst pile); c1_k := snd (fst pile); c2_k := snd pile |}.

Definition uses_pile (c : config) : Prop :=
  thermostat c = PILE_L \/ thermostat c = PILE_G.

End Setup.

(** ** Particles and the state of one process *)

Definition vec3 : Type := R * R * R.

Record atom := {
  tag : Z;
  type : nat;
  mask : Z;
  x : vec3;
  v : vec3;
  f : vec3
}.

Definition set_x (a : atom) (x' : vec3) : atom :=
  {| tag := tag a; type := type a; mask := mask a; x := x'; v := v a; f := f a |}.
Definition set_v (a : atom) (v' : vec3) : atom :=
  {| tag := tag a; type := type a; mask := mask a; x := x a; v := v'; f := f a |}.

(** The random-number stream of one process ([RanMars]): [draws] is the
    sequence the generator will produce, [pos] the number of draws made. *)
Record rng := { draws : nat -> R; pos : nat }.

Definition gaussian (g : rng) : R * rng :=
  (draws g (pos g), {| draws := draws g; pos := S (pos g) |}).

Record proc := Proc {
  atoms : list atom;
  ghosts : list Z;
  xprd : R;
  yprd : R;
  zprd : R;
  vw : R;
  p_cv : R;
  p_md : R;
  totke : R;
  alpha : R;
  random : rng;
  buf_beads : nat -> nat -> vec3;
  nfound : nat
}.

Definition set_atoms (p : proc) (l : list atom) : proc :=
  let '(Proc _ y2 y3 y4 y5 y6 y7 y8 y9 y10 y11 y12 y13) := p in
  Proc l y2 y3 y4 y5 y6 y7 y8 y9 y10 y11 y12 y13.
Definition set_box (p : proc) (a b c : R) : proc :=
  let '(Proc y1 y2 _ _ _ y6 y7 y8 y9 y10 y11 y12 y13) := p in
  Proc y1 y2 a b c y6 y7 y8 y9 y10 y11 y12 y13.
Definition set_vw (p : proc) (a : R) : proc :=
  let '(Proc y1 y2 y3 y4 y5 _ y7 y8 y9 y10 y11 y12 y13) := p in
  Proc y1 y2 y3 y4 y5 a y7 y8 y9 y10 y11 y12 y13.
Definition set_alpha (p : proc) (a : R) : proc :=
  let '(Proc y1 y2 y3 y4 y5 y6 y7 y8 y9 _ y11 y12 y13) := p in
  Proc y1 y2 y3 y4 y5 y6 y7 y8 y9 a y11 y12 y13.
Definition set_random (p : proc) (g : rng) : proc :=
  let '(Proc y1 y2 y3 y4 y5 y6 y7 y8 y9 y10 _ y12 y13) := p in
  Proc y1 y2 y3 y4 y5 y6 y7 y8 y9 y10 g y12 y13.
Definition set_buf (p : proc) (b : nat -> nat -> vec3) (n : nat) : proc :=
  let '(Proc y1 y2 y3 y4 y5 y6 y7 y8 y9 y10 y11 _ _) := p in
  Proc y1 y2 y3 y4 y5 y6 y7 y8 y9 y10 y11 b n.

Definition nlocal (p : proc) : nat := List.length (atoms p).

(** Component [d] (0, 1 or 2) of a vector. *)
Definition coord (a : vec3) (d : nat) : R :=
  let '(a0, a1, a2) := a in
  match d with
  | O => a0
  | S O => a1
  | _ => a2
  end.

(** Harmonic energy of one coordinate of one mode. *)
Definition mode_energy (m w xj vj : R) : R :=
  0.5 * m * (w * w) * (xj * xj) + 0.5 * m * (vj * vj).

(** ** Elementary propagators on the atoms of one process *)

Module Step.
Import Config Setup.

(** [b_step]: [mass] is the per-type mass table of the replica. *)
Definition b_step (k : consts) (mass : nat -> R) (l : list atom) : list atom :=
  map (fun a =>
         let dtfm := dtf k / mass (type a) in
         let '(v0, v1, v2) := v a in
         let '(f0, f1, f2) := f a in
         set_v a (v0 + dtfm * f0, v1 + dtfm * f1, v2 + dtfm * f2))
      l.

(** The body of the loop of [a_step] for one atom. *)
Definition a_step_atom (L : langevin) (iworld : nat) (a : atom) : atom :=
  let '(x0, x1, x2) := x a in
  let '(v0, v1, v2) := v a in
  let a' :=
    set_x a
      (Lan_c L iworld * x0 + 1 / _omega_k L iworld * Lan_s L iworld * v0,
       Lan_c L iworld * x1 + 1 / _omega_k L iworld * Lan_s L iworld * v1,
       Lan_c L iworld * x2 + 1 / _omega_k L iworld * Lan_s L iworld * v2) in
  set_v a'
    (-1 * _omega_k L iworld * Lan_s L iworld * x0 + Lan_c L iworld * v0,
     -1 * _omega_k L iworld * Lan_s L iworld * x1 + Lan_c L iworld * v1,
     -1 * _omega_k L iworld * Lan_s L iworld * x2 + Lan_c L iworld * v2).

Definition a_step (L : langevin) (iworld : nat) (l : list atom) : list atom :=
  if negb (Nat.eqb iworld 0) then map (a_step_atom L iworld) l else l.

(** The free drift of [qc_step] (no barostat). *)
Definition qc_drift_atom (k : consts) (a : atom) : atom :=
  let '(x0, x1, x2) := x a in
  let '(v0, v1, v2) := v a in
  set_x a (x0 + dtv k * v0, x1 + dtv k * v1, x2 + dtv k * v2).

(** The volume-coupled update of [qc_step] (BZP barostat). *)
Definition qc_bzp_atom (expq expp vw : R) (a : atom) : atom :=
  let upd xj vj := expq * xj + (expq - expp) / 2 / vw * vj in
  let '(x0, x1, x2) := x a in
  let '(v0, v1, v2) := v a in
  set_v (set_x a (upd x0 v0, upd x1 v1, upd x2 v2))
        (expp * v0, expp * v1, expp * v2).

(** The loop of [remove_com_motion] once [group->vcm] has returned [vcm]. *)
Definition subtract_vcm (groupbit : Z) (vcm : vec3) (l : list atom) : list atom :=
  map (fun a =>
         if negb (Z.eqb (Z.land (mask a) groupbit) 0)
         then
           let '(v0, v1, v2) := v a in
           let '(c0, c1, c2) := vcm in
           set_v a (v0 - c0, v1 - c1, v2 - c2)
         else a)
      l.

(** The per-atom loop of [o_step] shared by PILE_L and the non-centroid
    replicas of PILE_G: three draws per atom, in the order r1, r2, r3. *)
Fixpoint pile_loop (c1k c2k beta_np : R) (mass : nat -> R)
    (l : list atom) (g : rng) : list atom * rng :=
  match l with
  | [] => ([], g)
  | a :: rest =>
      let '(r1, g1) := gaussian g in
      let '(r2, g2) := gaussian g1 in
      let '(r3, g3) := gaussian g2 in
      let '(v0, v1, v2) := v a in
      let a' :=
        set_v a
          (c1k * v0 + c2k * sqrt (1 / mass (type a) / beta_np) * r1,
           c1k * v1 + c2k * sqrt (1 / mass (type a) / beta_np) * r2,
           c1k * v2 + c2k * sqrt (1 / mass (type a) / beta_np) * r3) in
      let '(rest', g') := pile_loop c1k c2k beta_np mass rest g3 in
      (a' :: rest', g')
  end.

(** Local kinetic sum of [svr_step]. *)
Definition ke_local (mass : nat -> R) (l : list atom) : R :=
  fold_left
    (fun acc a =>
       let '(v0, v1, v2) := v a in
       acc + 0.5 * mass (type a) * v0 * v0
           + 0.5 * mass (type a) * v1 * v1
           + 0.5 * mass (type a) * v2 * v2)
    l 0.

(** The noise loop of [svr_step]: [3 * natoms] draws; returns [noise_],
    [ksi0_] and the generator. *)
Definition svr_noise (natoms iworld : nat) (g : rng) : R * R * rng :=
  for_loop 0 (3 * natoms)
    (fun n '(noise, ksi0, g) =>
       let '(ksi, g') := gaussian g in
       (noise + ksi * ksi,
        if Nat.eqb n 0 && Nat.eqb iworld 0 then ksi else ksi0,
        g'))
    (0, 0, g).

Definition scale_v (al : R) (l : list atom) : list atom :=
  map (fun a => let '(v0, v1, v2) := v a in set_v a (v0 * al, v1 * al, v2 * al)) l.

(** Local part of [press_v_step]: the force-dependent piston increment. *)
Definition dvw_proc (k : consts) (mass : nat -> R) (l : list atom) : R :=
  fold_left
    (fun acc a =>
       let '(v0, v1, v2) := v a in
       let '(f0, f1, f2) := f a in
       let term fj vj :=
         dtv2 k * fj * vj / W k + dtv3 k * fj * fj / mass (type a) / W k in
       acc + term f0 v0 + term f1 v1 + term f2 v2)
    l 0.

End Step.

(** ** The process grid *)

Module Universe.
Import Config Setup Step.

(** [ncomms] processes per replica ([comm->nprocs]); the process of
    universe rank [r] is [nth r procs], it belongs to replica
    [r / ncomms] and has rank [r mod ncomms] inside it. *)
Record universe := { ncomms : nat; procs : list proc }.

Definition nprocs (u : universe) : nat := List.length (procs u).
Definition nworlds (u : universe) : nat := Nat.div (nprocs u) (ncomms u).
Definition iworld (u : universe) (r : nat) : nat := Nat.div r (ncomms u).
Definition me (u : universe) (r : nat) : nat := Nat.modulo r (ncomms u).

Definition no_proc : proc :=
  {| atoms := []; ghosts := []; xprd := 0; yprd := 0; zprd := 0; vw := 0;
     p_cv := 0; p_md := 0; totke := 0; alpha := 0;
     random := {| draws := fun _ => 0; pos := 0 |};
     buf_beads := fun _ _ => (0, 0, 0); nfound := 0 |}.

Definition rank (u : universe) (r : nat) : proc := nth r (procs u) no_proc.

Definition ranked (u : universe) : list (nat * proc) :=
  combine (seq 0 (nprocs u)) (procs u).

(** Every process runs [F] on its own state. *)
Definition map_ranks (F : nat -> proc -> proc) (u : universe) : universe :=
  {| ncomms := ncomms u;
     procs := map (fun rp => F (fst rp) (snd rp)) (ranked u) |}.

(** [MPI_Allreduce(.., MPI_SUM, comm)]: [member] tells the ranks of the
    communicator, [val] the local contribution. *)
Definition allreduce_sum (member : nat -> bool) (val : nat -> proc -> R)
    (u : universe) : R :=
  fold_left
    (fun acc rp => if member (fst rp) then acc + val (fst rp) (snd rp) else acc)
    (ranked u) 0.

(** The communicator [world] of rank [r], and [universe->uworld]. *)
Definition in_world (u : universe) (r q : nat) : bool :=
  Nat.eqb (iworld u q) (iworld u r).
Definition in_uworld (q : nat) : bool := true.

(** [MPI_Bcast(&vw, 1, MPI_DOUBLE, 0, universe->uworld)]. *)
Definition bcast_vw (u : universe) : universe :=
  map_ranks (fun _ p => set_vw p (vw (rank u 0))) u.

(** The three broadcasts of the box lengths in [qc_step]. *)
Definition bcast_box (u : universe) : universe :=
  map_ranks
    (fun _ p => set_box p (xprd (rank u 0)) (yprd (rank u 0)) (zprd (rank u 0)))
    u.

Section Fix.

(** The members shared by all processes, and the host's collaborators:
    [atom_mass] is [atom->mass], [natoms] is [atom->natoms], [group_vcm]
    is [group->vcm] applied to the processes of the calling replica. *)
Variable c : config.
Variable un : units.
Variable k : consts.
Variable L : langevin.
Variable lam : array.
Variable atom_mass : nat -> R.
Variable natoms : nat.
Variable groupbit : Z.
Variable group_vcm : list proc -> vec3.

(** The member [mass] on replica [w] (set at the end of [nmpimd_init]). *)
Definition mass_of (w : nat) (ty : nat) : R :=
  NormalMode.nm_mass (fmmode c) (fmass c) lam w (atom_mass ty).

Definition press_v_step (u : universe) : universe :=
  match barostat c with
  | BZP =>
      let u1 :=
        map_ranks
          (fun r p =>
             let volume := xprd p * yprd p * zprd p in
             let vw1 :=
               vw p + dtv k * 3 * (volume * INR (np k) * (p_cv p - Pext c)
                                     / nktv2p un + Vcoeff k / beta_np k) / W k in
             if Nat.eqb (iworld u r) 0
             then
               let dvw :=
                 allreduce_sum (in_world u r)
                   (fun q pq => dvw_proc k (mass_of (iworld u q)) (atoms pq)) u in
               set_vw p (vw1 + dvw)
             else set_vw p vw1)
          u in
      bcast_vw u1
  | MTTK =>
      map_ranks
        (fun r p =>
           let volume := xprd p * yprd p * zprd p in
           let mtk_term1 := 2 / INR natoms * totke p / 3 in
           let f_omega :=
             (volume * INR (np k) * (p_md p - Pext c) + mtk_term1) / W k in
           set_vw p (vw p + 0.5 * dtv k * f_omega))
        u
  end.

Definition press_o_step (u : universe) : universe :=
  let u1 :=
    map_ranks
      (fun r p =>
         if Nat.eqb r 0
         then
           let '(r1, g) := gaussian (random p) in
           set_vw (set_random p g)
                  (c1 L * vw p + c2 L * sqrt (1 / W k / beta_np k) * r1)
         else p)
      u in
  bcast_vw u1.

Definition qc_step (u : universe) : universe :=
  if negb (pextflag c)
  then
    map_ranks
      (fun r p =>
         if Nat.eqb (iworld u r) 0
         then set_atoms p (map (qc_drift_atom k) (atoms p))
         else p)
      u
  else
    let u1 :=
      map_ranks
        (fun r p =>
           if Nat.eqb (iworld u r) 0
           then
             let expq := exp (dtv k * vw p) in
             let expp := exp (- dtv k * vw p) in
             match barostat c with
             | BZP =>
                 set_box
                   (set_atoms p (map (qc_bzp_atom expq expp (vw p)) (atoms p)))
                   (xprd p * expq) (yprd p * expq) (zprd p * expq)
             | MTTK => p
             end
           else p)
        u in
    bcast_box u1.

Definition a_step (u : universe) : universe :=
  map_ranks (fun r p => set_atoms p (Step.a_step L (iworld u r) (atoms p))) u.

Definition b_step (u : universe) : universe :=
  map_ranks
    (fun r p => set_atoms p (Step.b_step k (mass_of (iworld u r)) (atoms p))) u.

Definition remove_com_motion (u : universe) : universe :=
  map_ranks
    (fun r p =>
       if Nat.eqb (iworld u r) 0
       then
         let vcm :=
           group_vcm (map snd (filter (fun qp => in_world u r (fst qp)) (ranked u))) in
         set_atoms p (subtract_vcm groupbit vcm (atoms p))
       else p)
    u.

(** The local [beta_np] of [o_step] and [svr_step]. *)
Definition beta_np_o : R :=
  1 / boltz un / Lan_temp c / INR (np k) * mvv2e un.

Definition pile_step (u : universe) (r : nat) (p : proc) : proc :=
  let '(l, g) :=
    pile_loop (c1_k L (iworld u r)) (c2_k L (iworld u r)) beta_np_o
      (mass_of (iworld u r)) (atoms p) (random p) in
  set_random (set_atoms p l) g.

(** [svr_step(which)] as run by rank [r]; [member] tells the ranks of
    [which].  In both calls of the code the root of the broadcast, rank 0
    of [which], is universe rank 0, the process that computes [alpha]. *)
Definition svr_step (member : nat -> bool) (u : universe) (r : nat) (p : proc)
  : proc :=
  let ke_total :=
    allreduce_sum member
      (fun q pq => ke_local (mass_of (iworld u q)) (atoms pq)) u in
  let noise_of q pq := svr_noise natoms (iworld u q) (random pq) in
  let noise_total :=
    allreduce_sum member (fun q pq => fst (fst (noise_of q pq))) u in
  let ksi0_ := snd (fst (noise_of 0%nat (rank u 0))) in
  let alpha2 :=
    c1 L + (1 - c1 L) * noise_total / 2 / beta_np_o / ke_total
    + 2 * ksi0_ * sqrt (c1 L * (1 - c1 L) / 2 / beta_np_o / ke_total) in
  let sgn_ := ksi0_ + sqrt (2 * beta_np_o * ke_total * c1 L / (1 - c1 L)) in
  let sgn := if Rltb sgn_ 0 then -1 else 1 in
  let al := sgn * sqrt alpha2 in
  set_alpha
    (set_random (set_atoms p (scale_v al (atoms p))) (snd (noise_of r p)))
    al.

Definition o_step (u : universe) : universe :=
  map_ranks
    (fun r p =>
       match thermostat c with
       | PILE_L => pile_step u r p
       | SVR => svr_step in_uworld u r p
       | PILE_G =>
           if Nat.eqb (iworld u r) 0
           then svr_step (in_world u r) u r p
           else pile_step u r p
       end)
    u.

End Fix.

(** *** Bead exchange *)

Record plan := {
  size_plan : nat;
  plan_send : nat -> nat;
  plan_recv : nat -> nat;
  mode_index : nat -> nat
}.

(** The assignments of the inner loop of [comm_init] at [i], [j]. *)
Definition plan_entry_body (ncomms_ m i_send i_recv i : nat) (j : nat)
    (st : (nat -> nat) * (nat -> nat) * (nat -> nat))
  : (nat -> nat) * (nat -> nat) * (nat -> nat) :=
  let '(ps, pr, mi) := st in
  (aset ps (i * ncomms_ + j)%nat
        (i_send * ncomms_ + Nat.modulo (m + j) ncomms_)%nat,
   aset pr (i * ncomms_ + j)%nat
        (i_recv * ncomms_ + Nat.modulo (m + ncomms_ - j) ncomms_)%nat,
   aset mi (i * ncomms_ + j)%nat i_send).

(** The body of the outer loop of [comm_init]. *)
Definition plan_row_body (np_ ncomms_ iw m : nat) (i : nat)
    (st : (nat -> nat) * (nat -> nat) * (nat -> nat))
  : (nat -> nat) * (nat -> nat) * (nat -> nat) :=
  let i_send := Nat.modulo (iw + i + 1) np_ in
  let i_recv := Nat.modulo (iw + np_ - i - 1) np_ in
  for_loop 0 ncomms_ (plan_entry_body ncomms_ m i_send i_recv i) st.

(** [comm_init] on the process of replica [iw] and in-replica rank [m];
    [nprocs_u] is [universe->nprocs]; [j1 j2 j3] are the contents of the
    three freshly allocated arrays. *)
Definition comm_init (np_ ncomms_ nprocs_u iw m : nat) (j1 j2 j3 : nat -> nat)
  : plan :=
  let arrays :=
    for_loop 0 (np_ - 1)%nat (plan_row_body np_ ncomms_ iw m) (j1, j2, j3) in
  {| size_plan := (nprocs_u - ncomms_)%nat;
     plan_send := fst (fst arrays);
     plan_recv := snd (fst arrays);
     mode_index := snd arrays |}.

(** Modelled from the spec: the id-to-slot map of a process (the host's
    [atom->map], whose code is not part of the sources at hand): the lowest
    slot that holds the id among the owned atoms followed by the ghost
    atoms, and nothing ([-1] in the code) when no slot holds it. *)
Fixpoint find_tag (t : Z) (l : list Z) (i : nat) : option nat :=
  match l with
  | [] => None
  | s :: l' => if Z.eqb s t then Some i else find_tag t l' (S i)
  end.

Definition atom_map (p : proc) (t : Z) : option nat :=
  find_tag t (map tag (atoms p) ++ ghosts p) 0.

Definition bset (b : nat -> nat -> vec3) (w i : nat) (val : vec3)
  : nat -> nat -> vec3 :=
  fun w' i' => if Nat.eqb w' w && Nat.eqb i' i then val else b w' i'.

Section Exchange.

(** [field] selects the per-atom vector handed to [comm_exec] ([atom->x],
    [atom->v] or [atom->f]); [junk] is the content of a fresh plan array. *)
Variable field : atom -> vec3.
Variable junk : nat -> nat.

Definition plan_of (u : universe) (r : nat) : plan :=
  comm_init (nworlds u) (ncomms u) (nprocs u) (iworld u r) (me u r)
            junk junk junk.

(** "wrap positions": what rank [q] packs into [tag_send]/[buf_send] at
    plan step [iplan], from the ids it received from [plan_recv[iplan]]. *)
Definition pack (u : universe) (q iplan : nat) : list (Z * vec3) :=
  let pq := rank u q in
  let tag_search := map tag (atoms (rank u (plan_recv (plan_of u q) iplan))) in
  flat_map
    (fun t =>
       match atom_map pq t with
       | Some index =>
           if Nat.ltb index (nlocal pq)
           then match nth_error (atoms pq) index with
                | Some a => [(tag a, field a)]
                | None => []
                end
           else []
       | None => []
       end)
    tag_search.

(** "copy x": the received vectors go to the slots of their ids.  A
    received id without a slot would index the buffer at [-1]; the model
    leaves the buffer as it is in that case. *)
Definition store (p : proc) (mode : nat) (recvd : list (Z * vec3))
    (b : nat -> nat -> vec3) : nat -> nat -> vec3 :=
  fold_left
    (fun b tv =>
       match atom_map p (fst tv) with
       | Some index => bset b mode index (snd tv)
       | None => b
       end)
    recvd b.

(** The body of the loop over the plan in [comm_exec], as run by rank [r]:
    the state is the bead buffer and [nfound]. *)
Definition exchange_body (u : universe) (r : nat) (iplan : nat)
    (st : (nat -> nat -> vec3) * nat) : (nat -> nat -> vec3) * nat :=
  let '(b, nf) := st in
  let pl := plan_of u r in
  let nf0 := if Nat.eqb (Nat.modulo iplan (ncomms u)) 0 then 0%nat else nf in
  let nsend := List.length (pack u r iplan) in
  let recvd := pack u (plan_send pl iplan) iplan in
  (store (rank u r) (mode_index pl iplan) recvd b, (nf0 + nsend)%nat).

(** The copy of the local vectors into the replica's own bead buffer. *)
Definition copy_local (u : universe) (r : nat) : nat -> nat -> vec3 :=
  fun w i =>
    if Nat.eqb w (iworld u r)
    then match nth_error (atoms (rank u r)) i with
         | Some a => field a
         | None => buf_beads (rank u r) w i
         end
    else buf_beads (rank u r) w i.

(** [comm_exec] as run by rank [r]. *)
Definition comm_exec_rank (u : universe) (r : nat) : proc :=
  let p := rank u r in
  let pl := plan_of u r in
  let st :=
    for_loop 0 (size_plan pl) (exchange_body u r) (copy_local u r, nfound p) in
  set_buf p (fst st) (snd st).

(** [comm_exec] on the whole grid.  The routine contains no call of
    [error->...]: it always runs to its end. *)
Definition comm_exec (u : universe) : outcome universe :=
  Done (map_ranks (fun r _ => comm_exec_rank u r) u).

End Exchange.

End Universe.

(** ** The per-step schedule *)

Module Schedule.
Import Config.

(** The routines [initial_integrate] and [final_integrate] call. *)
Inductive call :=
  | Unmap
  | O_step
  | Remove_com_motion
  | Press_o_step
  | Compute_totke
  | Compute_p_cv
  | Press_v_step
  | B_step
  | Nmpimd_fill
  | Comm_exec
  | Transform_x2xp
  | Qc_step
  | A_step
  | Compute_spring_energy
  | Transform_xp2x
  | Unmap_inv.

Definition when (b : bool) (l : list call) : list call := if b then l else [].

Definition thermostatted (c : config) : bool :=
  match ensemble c with
  | nvt | npt => true
  | nve | nph => false
  end.

Definition is_nmpimd (c : config) : bool :=
  match method c with
  | NMPIMD => true
  | _ => false
  end.

Definition o_block (c : config) : list call :=
  when (thermostatted c)
    ([O_step] ++ when (removecomflag c) [Remove_com_motion]
              ++ when (pextflag c) [Press_o_step]).

Definition initial_integrate (c : config) : list call :=
  when (mapflag c) [Unmap]
  ++ (match integrator c with
      | obabo =>
          o_block c
          ++ [Compute_totke; Compute_p_cv]
          ++ when (pextflag c) [Press_v_step]
          ++ [B_step]
          ++ when (removecomflag c) [Remove_com_motion]
          ++ when (is_nmpimd c) [Nmpimd_fill; Comm_exec; Transform_x2xp]
          ++ [Qc_step; A_step; Qc_step; A_step]
      | baoab =>
          when (pextflag c) [Press_v_step]
          ++ [B_step]
          ++ when (is_nmpimd c) [Nmpimd_fill; Comm_exec; Transform_x2xp]
          ++ [Qc_step; A_step]
          ++ o_block c
          ++ [Qc_step; A_step]
      end)
  ++ [Compute_spring_energy]
  ++ when (is_nmpimd c) [Nmpimd_fill; Comm_exec; Transform_xp2x]
  ++ when (mapflag c) [Unmap_inv].

Definition final_integrate (c : config) : list call :=
  when (pextflag c) [Compute_totke; Compute_p_cv; Press_v_step]
  ++ [B_step]
  ++ when (removecomflag c) [Remove_com_motion]
  ++ (match integrator c with
      | obabo => o_block c
      | baoab => []
      end).

End Schedule.

(** ** Energy estimators *)

Module Estimators.
Import Config Setup.

(** [compute_tote]. *)
Definition compute_tote (totke pote total_spring_energy : R) : R :=
  totke + pote + total_spring_energy.

(** [compute_totenthalpy]: [vol0] is the volume at construction. *)
Definition compute_totenthalpy (c : config) (un : units) (k : consts)
    (tote vw xprd yprd zprd vol0 : R) : R :=
  let volume := xprd * yprd * zprd in
  match barostat c with
  | BZP =>
      tote + 0.5 * W k * vw * vw / INR (np k) + Pext c * volume / nktv2p un
      - Vcoeff k * kBT k * ln volume
  | MTTK =>
      tote + 1.5 * W k * vw * vw / INR (np k) + Pext c * (volume - vol0)
  end.

(** The tail of [end_of_step]: the pair [(tote, totenthalpy)]; the member
    [totenthalpy] keeps its value [old] when no barostat is active. *)
Definition end_of_step (c : config) (un : units) (k : consts)
    (totke pote total_spring_energy vw xprd yprd zprd vol0 old : R) : R * R :=
  let tote := compute_tote totke pote total_spring_energy in
  (tote,
   if pextflag c
   then compute_totenthalpy c un k tote vw xprd yprd zprd vol0
   else old).

(** [compute_vector(11)], the piston kinetic energy handed to the host. *)
Definition piston_ke (k : consts) (vw : R) : R := 0.5 * W k * vw * vw.

(** The enthalpy as the specification words it: total energy plus the piston
    kinetic energy plus [Pext (V - V0)] (MTTK) or [Pext V - Vcoeff kB T log V]
    (BZP). *)
Definition claimed_totenthalpy (c : config) (k : consts)
    (tote vw volume vol0 : R) : R :=
  tote + piston_ke k vw
  + match barostat c with
    | MTTK => Pext c * (volume - vol0)
    | BZP => Pext c * volume - Vcoeff k * kBT k * ln volume
    end.

End Estimators.

(** ** Auxiliary notions of the proofs *)

Module Aux.

(** Entry written by the first pair of loops of [nmpimd_init]. *)
Definition degenerate_entry (np r c : nat) : R :=
  if Nat.leb r (Nat.div np 2)
  then sqrt 2 * cos (2 * PI * INR r * INR c / INR np) / sqrt (INR np)
  else sqrt 2 * sin (2 * PI * INR r * INR c / INR np) / sqrt (INR np).

(** The angle [2 pi m j / P] of the code. *)
Definition ang (P m j : nat) : R := 2 * PI * INR m * INR j / INR P.

Definition Csum (P m : nat) : R := Rsum (fun j => cos (ang P m j)) P.
Definition Ssum (P m : nat) : R := Rsum (fun j => sin (ang P m j)) P.

(** Amplitude of the cosine row [k]. *)
Definition amp (P k : nat) : R :=
  if Nat.eqb k 0 || Nat.eqb (2 * k) P then 1 / sqrt (INR P) else sqrt (2 / INR P).

(** Column products of the forward matrix against the cosine kernel. *)
Definition col_defect (P i j k : nat) : R :=
  NormalMode.spec_forward P k i * NormalMode.spec_forward P k j
  - 1 / INR P * cos (ang P k i - ang P k j).

End Aux.

(** ** Concrete inputs *)

Module Example.
Import Config Setup.

Definition ex_units : units :=
  {| boltz := 1; hplanck := 1; mvv2e := 1; ftm2v := 1; nktv2p := 2 |}.

(** The constants [init] yields, or zeros when it aborts. *)
Definition the_consts (o : outcome consts) : consts :=
  match o with
  | Done k => k
  | Abort _ =>
      {| np := 0; hbar := 0; kBT := 0; beta := 0; omega_np := 0; fbond := 0;
         beta_np := 0; dtf := 0; dtv := 0; dtv2 := 0; dtv3 := 0; W := 0;
         Vcoeff := 0 |}
  end.

Definition zeros : array := fun _ => 0.

(** Keywords [temp 1 scale 1 fmmode normal], written as the members they
    set; two replicas, timestep 1, one atom. *)
Definition ex_cfg : config :=
  set_fmmode (set_Lan_temp (set_temp (defaults 1 0%Z) 1) 1) normal.

Definition ex_consts : consts :=
  the_consts (init ex_cfg ex_units 2 1 1 1 0 0).

Definition ex_langevin : langevin :=
  Langevin_init ex_cfg ex_units ex_consts 1 zeros zeros zeros zeros zeros zeros zeros.

Definition ex_atom : atom :=
  {| tag := 1; type := 1; mask := 1;
     x := (0, 0, 0); v := (1, 1, 1); f := (0, 0, 0) |}.

Definition ex_proc : proc :=
  {| atoms := [ex_atom]; ghosts := []; xprd := 1; yprd := 1; zprd := 1;
     vw := 0; p_cv := 0; p_md := 0; totke := 0; alpha := 0;
     random := {| draws := fun _ => 0; pos := 0 |};
     buf_beads := fun _ _ => (0, 0, 0); nfound := 0 |}.

(** One replica on one process. *)
Definition ex_single : Universe.universe :=
  {| Universe.ncomms := 1; Universe.procs := [ex_proc] |}.

(** [init] on one replica with timestep [update->dt = 2]. *)
Definition ex_consts_dt2 : consts :=
  the_consts (init ex_cfg ex_units 1 2 1 1 0 0).

(** Two replicas of one process each whose atoms carry different ids; the
    bead buffers hold (5, 5, 5) from an earlier call. *)
Definition ex_proc_tagged (t : Z) (pos : vec3) : proc :=
  {| atoms := [{| tag := t; type := 1; mask := 1;
                  x := pos; v := (0, 0, 0); f := (0, 0, 0) |}];
     ghosts := []; xprd := 1; yprd := 1; zprd := 1;
     vw := 0; p_cv := 0; p_md := 0; totke := 0; alpha := 0;
     random := {| draws := fun _ => 0; pos := 0 |};
     buf_beads := fun _ _ => (5, 5, 5); nfound := 0 |}.

Definition ex_mismatch : Universe.universe :=
  {| Universe.ncomms := 1;
     Universe.procs := [ex_proc_tagged 7 (1, 2, 3); ex_proc_tagged 9 (4, 4, 4)] |}.

Definition no_junk : nat -> nat := fun _ => 0%nat.

(** Ensemble npt on one replica: the barostat is active. *)
Definition ex_cfg_npt : config := set_pextflag (set_ensemble ex_cfg npt) true.

Definition ex_consts_npt : consts :=
  the_consts (init ex_cfg_npt ex_units 1 1 1 1 0 0).

(** Ensemble npt on two replicas with timestep [update->dt = 2] and two
    atoms: the barostat is BZP, [dtv = 1], [W = 12]. *)
Definition ex_consts_bzp : consts :=
  the_consts (init ex_cfg_npt ex_units 2 2 2 1 0 0).

(** A process owning one atom with velocity [vel] and force [frc], holding
    the piston velocity [vw0] and the pressure [pcv]. *)
Definition ex_pushed (vel frc : vec3) (vw0 pcv : R) : proc :=
  {| atoms := [{| tag := 1; type := 1; mask := 1;
                  x := (0, 0, 0); v := vel; f := frc |}];
     ghosts := []; xprd := 1; yprd := 1; zprd := 1;
     vw := vw0; p_cv := pcv; p_md := 0; totke := 0; alpha := 0;
     random := {| draws := fun _ => 0; pos := 0 |};
     buf_beads := fun _ _ => (0, 0, 0); nfound := 0 |}.

(** Two replicas of two processes each; every process holds its own piston
    velocity and pressure, and every atom feels a force. *)
Definition ex_grid : Universe.universe :=
  {| Universe.ncomms := 2;
     Universe.procs :=
       [ex_pushed (1, 0, 0) (1, 0, 0) 1 3; ex_pushed (0, 1, 0) (0, 2, 0) 5 7;
        ex_pushed (0, 0, 1) (0, 0, 3) 9 11; ex_pushed (1, 1, 1) (1, 1, 1) 13 15] |}.

(** Two replicas of one process each, the atoms at rest and free of force. *)
Definition ex_quiet : Universe.universe :=
  {| Universe.ncomms := 1;
     Universe.procs :=
       [ex_pushed (0, 0, 0) (0, 0, 0) 0 0; ex_pushed (0, 0, 0) (0, 0, 0) 0 0] |}.

(** [init] for [ex_quiet]: two replicas, timestep [update->dt = 2], one atom. *)
Definition ex_consts_quiet : consts :=
  the_consts (init ex_cfg_npt ex_units 2 2 1 1 0 0).

End Example.

(** ** Estimators *)

Module Observables.
Import Config Setup Step Universe.

(** The owned atoms of a process with their slots [0 .. nlocal-1]. *)
Definition slots (l : list atom) : list (nat * atom) :=
  combine (seq 0 (List.length l)) l.

(** [update_x_unwrap]: a flat array of three doubles per atom is read as a
    function from the slot to its vector; [old] is the content of the block
    the reallocation returns. *)
Definition update_x_unwrap (l : list atom) (old : nat -> vec3) : nat -> vec3 :=
  fold_left (fun xu ia => aset xu (fst ia) (x (snd ia))) (slots l) old.

(** The averaging loop of [compute_xc] for slot [i] of the bead buffer. *)
Definition centroid (np : nat) (b : nat -> nat -> vec3) (i : nat) : vec3 :=
  (accumulate np (fun j => coord (b j i) 0) / INR np,
   accumulate np (fun j => coord (b j i) 1) / INR np,
   accumulate np (fun j => coord (b j i) 2) / INR np).

(** The local sums [xf] and [xcf] of [compute_vir_]. *)
Definition xf_local (l : list atom) (x_unwrap : nat -> vec3) : R :=
  fold_left
    (fun acc ia =>
       let '(u0, u1, u2) := x_unwrap (fst ia) in
       let '(f0, f1, f2) := f (snd ia) in
       acc + u0 * f0 + u1 * f1 + u2 * f2)
    (slots l) 0.

Definition xcf_local (l : list atom) (x_unwrap xc : nat -> vec3) : R :=
  fold_left
    (fun acc ia =>
       let '(u0, u1, u2) := x_unwrap (fst ia) in
       let '(c0, c1, c2) := xc (fst ia) in
       let '(f0, f1, f2) := f (snd ia) in
       acc + (u0 - c0) * f0 + (u1 - c1) * f1 + (u2 - c2) * f2)
    (slots l) 0.

(** [compute_vir_]: the pair [(vir_, centroid_vir)]; [x_unwrap r] and
    [xc r] are the two arrays of rank [r]. *)
Definition compute_vir_ (u : universe) (x_unwrap xc : nat -> nat -> vec3)
  : R * R :=
  (allreduce_sum in_uworld (fun q pq => xf_local (atoms pq) (x_unwrap q)) u,
   allreduce_sum in_uworld
     (fun q pq => xcf_local (atoms pq) (x_unwrap q) (xc q)) u).

(** The local sum of [compute_spring_energy] on a process of replica [iw]:
    [atom_mass] is the host's [atom->mass]. *)
Definition spring_energy (k : consts) (lam : array) (atom_mass : nat -> R)
    (iw : nat) (l : list atom) : R :=
  fold_left
    (fun acc a =>
       let '(x0, x1, x2) := x a in
       acc + 0.5 * atom_mass (type a) * fbond k * lam iw
             * (x0 * x0 + x1 * x1 + x2 * x2))
    l 0.

Section Estimators.

Variable c : config.
Variable un : units.
Variable k : consts.
Variable lam : array.
Variable atom_mass : nat -> R.
Variable natoms : nat.

(** [compute_t_vir]: the pair [(t_vir, t_cv)]. *)
Definition compute_t_vir (vir_ centroid_vir : R) : R * R :=
  (- 0.5 / INR (np k) * vir_,
   1.5 * INR natoms * boltz un * temp c - 0.5 / INR (np k) * centroid_vir).

(** [compute_t_prim] and [compute_p_prim]. *)
Definition compute_t_prim (total_spring_energy : R) : R :=
  1.5 * INR natoms * INR (np k) * boltz un * temp c - total_spring_energy.

Definition compute_p_prim (inv_volume total_spring_energy : R) : R :=
  (INR natoms * INR (np k) * boltz un * temp c * inv_volume
   - 1 / 1.5 * inv_volume * total_spring_energy) * nktv2p un.

(** [compute_spring_energy] as run by rank [r]: the pair
    [(se_bead, total_spring_energy)]. *)
Definition compute_spring_energy (u : universe) (r : nat) : R * R :=
  let local q pq := spring_energy k lam atom_mass (iworld u q) (atoms pq) in
  (allreduce_sum (in_world u r) local u,
   allreduce_sum in_uworld local u / INR (np k)).

(** [compute_totke] as run by rank [r]: the pair [(ke_bead, totke)]. *)
Definition compute_totke (u : universe) (r : nat) : R * R :=
  let kine q pq := ke_local (mass_of c lam atom_mass (iworld u q)) (atoms pq) in
  (allreduce_sum (in_world u r) kine u * mvv2e un,
   allreduce_sum in_uworld kine u * (mvv2e un / INR (np k))).

(** [compute_pote]: [pe_bead q] is the scalar of the host's potential-energy
    compute on rank [q]; every replica has [ncomms] processes. *)
Definition compute_pote (pe_bead : nat -> R) (u : universe) : R :=
  allreduce_sum in_uworld (fun q _ => pe_bead q / INR (ncomms u)) u
  / INR (np k).

Section PostForce.

(** [junk] is the content of a fresh plan array; [unmap] and [unmap_inv]
    are the host's [domain->unmap] and [domain->unmap_inv], which rewrite
    the position of an atom from its image flags. *)
Variable junk : nat -> nat.
Variables unmap unmap_inv : proc -> atom -> vec3.

Definition remap (g : proc -> atom -> vec3) (u : universe) : universe :=
  map_ranks
    (fun _ p => set_atoms p (map (fun a => set_x a (g p a)) (atoms p))) u.

(** [compute_xc]: the exchange of the positions, then the average over the
    bead buffers; yields the grid and the array [xc] of every rank. *)
Definition compute_xc (u : universe) : universe * (nat -> nat -> vec3) :=
  let u' := map_ranks (fun r _ => comm_exec_rank x junk u r) u in
  (u', fun r => centroid (np k) (buf_beads (rank u' r))).

(** The part of [post_force] that leads to the virial estimators: the pair
    [(t_vir, t_cv)]; [old r] is the block [x_unwrap] is reallocated to on
    rank [r]. *)
Definition post_force_virial (old : nat -> nat -> vec3) (u : universe)
  : R * R :=
  let u1 := if mapflag c then remap unmap u else u in
  let x_unwrap r := update_x_unwrap (atoms (rank u1 r)) (old r) in
  let '(u2, xc) := compute_xc u1 in
  let u3 := if mapflag c then remap unmap_inv u2 else u2 in
  let '(vir_, centroid_vir) := compute_vir_ u3 x_unwrap xc in
  compute_t_vir vir_ centroid_vir.

End PostForce.

End Estimators.

End Observables.

(** ** The normal-mode transform on the grid *)

Module Transform.
Import Universe Observables.

(** The body of the loop of [nmpimd_transform] for atom [i]: the flat index
    [m = 3 * i + d] of the buffers is component [d] of slot [i]. *)
Definition transform_atom (np : nat) (b : nat -> nat -> vec3) (vector : array)
    (i : nat) : vec3 :=
  (NormalMode.nmpimd_transform np (fun j => coord (b j i) 0) vector,
   NormalMode.nmpimd_transform np (fun j => coord (b j i) 1) vector,
   NormalMode.nmpimd_transform np (fun j => coord (b j i) 2) vector).

(** [nmpimd_transform(buf_beads, des, vector)] on one process; [set] writes
    the per-atom array [des] ([atom->x], [atom->v] or [atom->f]). *)
Definition nmpimd_transform_proc (set : atom -> vec3 -> atom) (np : nat)
    (vector : array) (p : proc) : proc :=
  set_atoms p
    (map (fun ia =>
            set (snd ia) (transform_atom np (buf_beads p) vector (fst ia)))
         (slots (atoms p))).

Section Sequences.

Variable junk : nat -> nat.
Variable T : NormalMode.nm_tables.
Variable np : nat.

(** [comm_exec] on the grid, which never aborts. *)
Definition exchange (field : atom -> vec3) (u : universe) : universe :=
  map_ranks (fun r _ => comm_exec_rank field junk u r) u.

(** The calls [nmpimd_fill(atom->x); comm_exec(atom->x);
    nmpimd_transform(buf_beads, atom->x, M[iworld])] of the integration
    hooks.  [nmpimd_fill] refreshes the ghost copies through the host's
    forward communication; [comm_exec] reads owned atoms only. *)
Definition transform_x (M : matrix) (u : universe) : universe :=
  let u1 := exchange x u in
  map_ranks (fun r p => nmpimd_transform_proc set_x np (M (iworld u1 r)) p) u1.

Definition x_to_normal_modes (u : universe) : universe :=
  transform_x (NormalMode.M_x2xp T) u.

Definition x_to_beads (u : universe) : universe :=
  transform_x (NormalMode.M_xp2x T) u.

End Sequences.

End Transform.

(** ** Notions used to state properties of the whole fix *)

Module Props.
Import Config Schedule Universe.

(** What the keyword checks of the constructor establish. *)
Definition validated (c : config) : Prop :=
  0 <= fmass c <= 1 /\ 0 <= temp c /\ 0 <= Pext c /\ 0 < tau_p c /\
  0 <= omega c /\
  (ensemble c = nph \/ ensemble c = npt -> pextflag c = true).

(** The calls of one time step made by the two integration hooks, in order
    (the host computes the forces between them). *)
Definition timestep (c : config) : list call :=
  initial_integrate c ++ final_integrate c.

(** The sub-steps that advance positions or velocities. *)
Definition is_propagator (x : call) : bool :=
  match x with
  | O_step | B_step | Qc_step | A_step => true
  | _ => false
  end.

(** The calls that read or change the representation of the positions. *)
Definition is_position_call (x : call) : bool :=
  match x with
  | Transform_x2xp | Transform_xp2x | Qc_step | A_step
  | Compute_spring_energy => true
  | _ => false
  end.

(** Component [d] of the momentum and of the total force of a list of
    atoms, for the mass table [mass]. *)
Definition momentum (mass : nat -> R) (l : list atom) (d : nat) : R :=
  fold_right (fun a acc => mass (type a) * coord (v a) d + acc) 0 l.

Definition total_force (l : list atom) (d : nat) : R :=
  fold_right (fun a acc => coord (f a) d + acc) 0 l.

(** The spring sum of a closed ring of [P] beads, for one coordinate of one
    atom: the squared distances between cyclic neighbours. *)
Definition ring_spring (P : nat) (xs : nat -> R) : R :=
  Rsum (fun j => (xs j - xs (Nat.modulo (j + 1) P)) ^ 2) P.

(** The sum [compute_spring_energy] forms from the normal-mode coordinates
    [ys] of the same beads, one term per replica. *)
Definition mode_spring (P : nat) (lam : array) (ys : nat -> R) : R :=
  Rsum (fun k => lam k * (ys k) ^ 2) P.

(** Modelled from the spec: the centre-of-mass velocity of the group (the
    host's [group->vcm], whose code is not part of the sources at hand): the
    momentum of the atoms of the group on the processes [ps] of a replica,
    divided by the total mass [masstotal] of these atoms; [atom_mass] is the
    host's [atom->mass]. *)
Definition in_group (groupbit : Z) (a : atom) : bool :=
  negb (Z.eqb (Z.land (mask a) groupbit) 0).

Definition group_sum (groupbit : Z) (g : atom -> R) (ps : list proc) : R :=
  fold_right
    (fun p acc =>
       fold_right (fun a s => (if in_group groupbit a then g a else 0) + s)
         0 (atoms p) + acc)
    0 ps.

Definition group_momentum (atom_mass : nat -> R) (groupbit : Z)
    (ps : list proc) (d : nat) : R :=
  group_sum groupbit (fun a => atom_mass (type a) * coord (v a) d) ps.

Definition group_mass (atom_mass : nat -> R) (groupbit : Z) (ps : list proc)
  : R :=
  group_sum groupbit (fun a => atom_mass (type a)) ps.

Definition group_vcm (atom_mass : nat -> R) (groupbit : Z) (masstotal : R)
    (ps : list proc) : vec3 :=
  (group_momentum atom_mass groupbit ps 0 / masstotal,
   group_momentum atom_mass groupbit ps 1 / masstotal,
   group_momentum atom_mass groupbit ps 2 / masstotal).

(** The processes of replica [w]. *)
Definition replica (u : universe) (w : nat) : list proc :=
  map snd (filter (fun qp => Nat.eqb (iworld u (fst qp)) w) (ranked u)).

(** The replicas hold the same atoms: on every process the id map sends
    the id of each owned atom to its slot, the position of the atom with id
    [t] in replica [w] is [pos w t], and every id owned somewhere is owned
    by some process of every replica. *)
Definition aligned (u : universe) (pos : nat -> Z -> vec3) : Prop :=
  (forall q j b,
     (q < nprocs u)%nat -> nth_error (atoms (rank u q)) j = Some b ->
     atom_map (rank u q) (tag b) = Some j /\ x b = pos (iworld u q) (tag b)) /\
  (forall q b w,
     (q < nprocs u)%nat -> In b (atoms (rank u q)) -> (w < nworlds u)%nat ->
     exists q' b',
       (q' < nprocs u)%nat /\ iworld u q' = w /\
       In b' (atoms (rank u q')) /\ tag b' = tag b).

(** What the keyword checks of the constructor establish when a member may
    be any double: every checked member is in its range or NaN.  The
    bounds are those of the extended real line. *)
Definition at_least (lo : R) (x : Ieee.double) : Prop :=
  match x with
  | Ieee.Fin r => lo <= r
  | Ieee.PInf => True
  | _ => False
  end.

Definition above (lo : R) (x : Ieee.double) : Prop :=
  match x with
  | Ieee.Fin r => lo < r
  | Ieee.PInf => True
  | _ => False
  end.

Definition at_most (hi : R) (x : Ieee.double) : Prop :=
  match x with
  | Ieee.Fin r => r <= hi
  | Ieee.NInf => True
  | _ => False
  end.

Definition in_range_or_nan (c : Ieee.config) : Prop :=
  (Ieee.fmass c = Ieee.NaN \/
   at_least 0 (Ieee.fmass c) /\ at_most 1 (Ieee.fmass c)) /\
  (Ieee.temp c = Ieee.NaN \/ at_least 0 (Ieee.temp c)) /\
  (Ieee.Pext c = Ieee.NaN \/ at_least 0 (Ieee.Pext c)) /\
  (Ieee.tau_p c = Ieee.NaN \/ above 0 (Ieee.tau_p c)) /\
  (Ieee.omega c = Ieee.NaN \/ at_least 0 (Ieee.omega c)) /\
  (Ieee.ensemble c = nph \/ Ieee.ensemble c = npt -> Ieee.pextflag c = true).

(** The member a keyword with a range check writes. *)
Definition checked_member (key : string) (c : Ieee.config)
  : option Ieee.double :=
  if String.eqb key "fmass" then Some (Ieee.fmass c)
  else if String.eqb key "scale" then Some (Ieee.pilescale c)
  else if String.eqb key "temp" then Some (Ieee.temp c)
  else if String.eqb key "press" then Some (Ieee.Pext c)
  else if String.eqb key "taup" then Some (Ieee.tau_p c)
  else if String.eqb key "model" then Some (Ieee.omega c)
  else None.

(** [Done] and [Abort] of the constructor over reals, read over doubles. *)
Definition read_as_doubles (o : outcome Config.config) : outcome Ieee.config :=
  match o with
  | Done c => Done (Ieee.of_real c)
  | Abort msg => Abort msg
  end.

End Props.

(** ** Further concrete inputs *)

Module Cases.
Import Config Setup Example.

Local Open Scope string_scope.

(** The command [fix 1 all dp_pimd ensemble npt]; the C library's
    conversions are taken to yield -1 on every string. *)
Definition cmd_npt : list string := ["1"; "all"; "dp_pimd"; "ensemble"; "npt"].
Definition atof_m1 : string -> R := fun _ => -1.
Definition atoi_m1 : string -> Z := fun _ => (-1)%Z.

Definition cfg_of (o : outcome config) : config :=
  match o with
  | Done c => c
  | Abort _ => defaults 1 0%Z
  end.

Definition cfg_npt : config :=
  cfg_of (constructor atof_m1 atoi_m1 1 0 0%Z 0%Z cmd_npt).

Definition cfg_after_ensemble : config :=
  cfg_of (keyword_loop atof_m1 atoi_m1 0 0%Z ["ensemble"; "npt"] (defaults 1 0%Z)).

Local Close Scope string_scope.

(** The barostat [MTTK] with an active barostat ensemble. *)
Definition cfg_mttk : config := set_barostat ex_cfg_npt MTTK.

(** The thermostat [SVR]; Langevin tables with [c1 = 1/2]. *)
Definition cfg_svr : config := set_thermostat ex_cfg SVR 0%Z.

Definition langevin_half : langevin :=
  {| _omega_np := 1; _omega_k := zeros; Lan_c := zeros; Lan_s := zeros;
     gamma := 1; c1 := 1 / 2; c2 := 1 / 2;
     tau_k := zeros; c1_k := zeros; c2_k := zeros |}.

Definition ones : array := fun _ => 1.

(** The tables of [nmpimd_init] for two and for three replicas, the
    allocated memory holding zeros. *)
Definition tables (P : nat) : NormalMode.nm_tables :=
  NormalMode.nmpimd_init P zeros (fun _ _ => 0) (fun _ _ => 0).

(** Two replicas of one process each that own the same id 7, at the
    positions (1, 2, 3) and (4, 4, 4). *)
Definition ex_pair : Universe.universe :=
  {| Universe.ncomms := 1;
     Universe.procs := [ex_proc_tagged 7 (1, 2, 3); ex_proc_tagged 7 (4, 4, 4)] |}.

Definition ex_pos : nat -> Z -> vec3 :=
  fun w _ => if Nat.eqb w 0 then (1, 2, 3) else (4, 4, 4).

Definition ex_tagged_atom (pos : vec3) : atom :=
  {| tag := 7; type := 1; mask := 1;
     x := pos; v := (0, 0, 0); f := (0, 0, 0) |}.

Definition no_remap : proc -> atom -> vec3 := fun _ a => x a.

Definition no_buffer : nat -> nat -> vec3 := fun _ _ => (0, 0, 0).

(** An [atof] that reads [nan] as NaN and every other string as -1, and the
    fix the command [fix 1 all dp_pimd fmass nan] constructs. *)
Definition atof_nan : string -> Ieee.double :=
  fun s => if String.eqb s "nan" then Ieee.NaN else Ieee.Fin (-1).

Definition cmd_fmass_nan : list string :=
  ["1"; "all"; "dp_pimd"; "fmass"; "nan"]%string.

Definition cfg_fmass_nan : Ieee.config :=
  match Ieee.constructor atof_nan atoi_m1 (Ieee.Fin 1) (Ieee.Fin 0) 0%Z 0%Z
          cmd_fmass_nan with
  | Done c => c
  | Abort _ => Ieee.defaults (Ieee.Fin 1) 0%Z
  end.

End Cases.

(** * Verification *)

(** ** Basic facts about loops *)

Lemma for_loop_empty {S : Type} (lo hi : nat) (body : nat -> S -> S) (s : S) :
  (hi <= lo)%nat -> for_loop lo hi body s = s.
Proof.
  intros H. unfold for_loop.
  replace (hi - lo)%nat with 0%nat by lia. reflexivity.
Qed.

Lemma for_loop_snoc {S : Type} (lo hi : nat) (body : nat -> S -> S) (s : S) :
  (lo <= hi)%nat ->
  for_loop lo (Datatypes.S hi) body s = body hi (for_loop lo hi body s).
Proof.
  intros H. unfold for_loop.
  replace (Datatypes.S hi - lo)%nat with (Datatypes.S (hi - lo)) by lia.
  rewrite seq_S, fold_left_app. simpl.
  replace (lo + (hi - lo))%nat with hi by lia. reflexivity.
Qed.

(** An invariant rule for counted loops. *)
Lemma for_loop_inv {S : Type} (I : nat -> S -> Prop)
    (lo hi : nat) (body : nat -> S -> S) (s : S) :
  (lo <= hi)%nat ->
  I lo s ->
  (forall i t, (lo <= i < hi)%nat -> I i t -> I (Datatypes.S i) (body i t)) ->
  I hi (for_loop lo hi body s).
Proof.
  intros Hle H0 Hstep.
  induction hi as [|hi IH].
  - assert (lo = 0)%nat by lia. subst. rewrite for_loop_empty by lia. exact H0.
  - destruct (Nat.eq_dec lo (Datatypes.S hi)) as [->|Hne].
    + rewrite for_loop_empty by lia. exact H0.
    + rewrite for_loop_snoc by lia. apply Hstep; [lia|].
      apply IH; [lia|]. intros i t Hi. apply Hstep. lia.
Qed.

(** [lia] reads [Nat.div] and [Nat.modulo] through their Euclidean
    equations. *)
Ltac Zify.zify_post_hook ::= Z.to_euclidean_division_equations.

(** Case analysis on every boolean comparison of naturals in the goal. *)
Ltac nat_cases :=
  repeat match goal with
    | |- context [Nat.eqb ?a ?b] => destruct (Nat.eqb_spec a b)
    | |- context [Nat.leb ?a ?b] => destruct (Nat.leb_spec a b)
    | |- context [Nat.ltb ?a ?b] => destruct (Nat.ltb_spec a b)
    end;
  cbn [andb orb negb]; try reflexivity; try lia; try (subst; reflexivity).

(** A loop that writes cell [i] of an array at iteration [i]. *)
Lemma for_loop_aset {A : Type} (lo hi : nat) (f : nat -> A) (a : nat -> A) (k : nat) :
  for_loop lo hi (fun i a => aset a i (f i)) a k =
  if Nat.leb lo k && Nat.ltb k hi then f k else a k.
Proof.
  destruct (le_lt_dec lo hi) as [Hle|Hlt].
  - pattern hi, (for_loop lo hi (fun i a => aset a i (f i)) a).
    apply for_loop_inv with (lo := lo); auto.
    + nat_cases.
    + intros i t Hi IH. unfold aset. rewrite IH. nat_cases.
  - rewrite for_loop_empty by lia. nat_cases.
Qed.

(** A loop that writes cell [(i, j)] of a matrix at iteration [i]. *)
Lemma for_loop_mset_col (lo hi j : nat) (f : nat -> R) (M : matrix) (r c : nat) :
  for_loop lo hi (fun i M => mset M i j (f i)) M r c =
  if (Nat.leb lo r && Nat.ltb r hi) && Nat.eqb c j then f r else M r c.
Proof.
  destruct (le_lt_dec lo hi) as [Hle|Hlt].
  - pattern hi, (for_loop lo hi (fun i M => mset M i j (f i)) M).
    apply for_loop_inv with (lo := lo); auto.
    + nat_cases.
    + intros i t Hi IH. unfold mset. rewrite IH. nat_cases.
  - rewrite for_loop_empty by lia. nat_cases.
Qed.

(** A loop that writes cell [(i, j)] of a matrix at iteration [j]. *)
Lemma for_loop_mset_row (lo hi i : nat) (f : nat -> R) (M : matrix) (r c : nat) :
  for_loop lo hi (fun j M => mset M i j (f j)) M r c =
  if Nat.eqb r i && (Nat.leb lo c && Nat.ltb c hi) then f c else M r c.
Proof.
  destruct (le_lt_dec lo hi) as [Hle|Hlt].
  - pattern hi, (for_loop lo hi (fun j M => mset M i j (f j)) M).
    apply for_loop_inv with (lo := lo); auto.
    + nat_cases.
    + intros j t Hj IH. unfold mset. rewrite IH. nat_cases.
  - rewrite for_loop_empty by lia. nat_cases.
Qed.

(** ** The tables of [nmpimd_init] *)

Section NormalModeTables.
Import NormalMode Aux.

Lemma init_lam_spec (np : nat) (lam0 : array) (k : nat) :
  init_lam np lam0 k =
  if Nat.ltb k np
  then 4 * sin (INR k * PI / INR np) * sin (INR k * PI / INR np)
  else lam0 k.
Proof.
  unfold init_lam.
  rewrite (for_loop_aset 0 np
             (fun i => 4 * sin (INR i * PI / INR np) * sin (INR i * PI / INR np))).
  nat_cases.
Qed.

Lemma init_degenerate_spec (np : nat) (M0 : matrix) (r c : nat) :
  init_degenerate np M0 r c =
  if (Nat.leb 1 r && Nat.ltb r np) && Nat.ltb c np
  then degenerate_entry np r c
  else M0 r c.
Proof.
  unfold init_degenerate.
  match goal with
  | |- for_loop 0 np ?body M0 r c = _ =>
      enough (H : forall n M, M = for_loop 0 n body M0 ->
                forall r c, M r c =
                  if (Nat.leb 1 r && Nat.ltb r np) && Nat.ltb c n
                  then degenerate_entry np r c else M0 r c)
        by (apply (H np _ eq_refl))
  end.
  intros n. induction n as [|n IH]; intros M -> r' c'.
  - rewrite for_loop_empty by lia. nat_cases.
  - rewrite for_loop_snoc by lia.
    rewrite for_loop_mset_col, for_loop_mset_col, (IH _ eq_refl).
    unfold degenerate_entry.
    destruct (Nat.eq_dec np 0) as [->|Hnp];
      [change (Nat.div 0 2) with 0%nat; nat_cases|].
    assert (Hdiv : (Nat.div np 2 < np)%nat) by (apply Nat.div_lt; lia).
    nat_cases.
Qed.

Lemma init_nondegenerate_spec (np : nat) (M0 : matrix) (r c : nat) :
  init_nondegenerate np M0 r c =
  if Nat.ltb c np
  then if Nat.eqb (Nat.modulo np 2) 0 && Nat.eqb r (Nat.div np 2)
       then 1 / sqrt (INR np) * (-1) ^ c
       else if Nat.eqb r 0 then 1 / sqrt (INR np) else M0 r c
  else M0 r c.
Proof.
  unfold init_nondegenerate.
  match goal with
  | |- for_loop 0 np ?body M0 r c = _ =>
      enough (H : forall n M, M = for_loop 0 n body M0 -> (n <= np)%nat ->
                forall r c, M r c =
                  if Nat.ltb c n
                  then if Nat.eqb (Nat.modulo np 2) 0 && Nat.eqb r (Nat.div np 2)
                       then 1 / sqrt (INR np) * (-1) ^ c
                       else if Nat.eqb r 0 then 1 / sqrt (INR np) else M0 r c
                  else M0 r c)
        by (apply (H np _ eq_refl); lia)
  end.
  intros n. induction n as [|n IH]; intros M -> Hn r' c'.
  - rewrite for_loop_empty by lia. nat_cases.
  - rewrite for_loop_snoc by lia.
    specialize (IH _ eq_refl ltac:(lia)).
    destruct (Nat.eqb (Nat.modulo np 2) 0) eqn:Hev; unfold mset;
      rewrite IH; nat_cases.
Qed.

Lemma init_transpose_spec (np : nat) (A B0 : matrix) (r c : nat) :
  init_transpose np A B0 r c =
  if Nat.ltb r np && Nat.ltb c np then A c r else B0 r c.
Proof.
  unfold init_transpose.
  match goal with
  | |- for_loop 0 np ?body B0 r c = _ =>
      enough (H : forall n M, M = for_loop 0 n body B0 ->
                forall r c, M r c =
                  if Nat.ltb r n && Nat.ltb c np then A c r else B0 r c)
        by (apply (H np _ eq_refl))
  end.
  intros n. induction n as [|n IH]; intros M -> r' c'.
  - rewrite for_loop_empty by lia. nat_cases.
  - rewrite for_loop_snoc by lia.
    rewrite (for_loop_mset_row 0 np n (fun j => A j n)).
    rewrite (IH _ eq_refl). nat_cases.
Qed.

End NormalModeTables.

Import Aux.

(** ** Finite sums *)

Lemma accumulate_Rsum (n : nat) (f : nat -> R) : accumulate n f = Rsum f n.
Proof.
  unfold accumulate. induction n as [|n IH].
  - reflexivity.
  - rewrite for_loop_snoc by lia. rewrite IH. reflexivity.
Qed.

Lemma Rsum_ext (f g : nat -> R) (n : nat) :
  (forall j, (j < n)%nat -> f j = g j) -> Rsum f n = Rsum g n.
Proof.
  induction n as [|n IH]; intros H; simpl; [reflexivity|].
  rewrite IH, H; auto.
Qed.

Lemma Rsum_plus (f g : nat -> R) (n : nat) :
  Rsum (fun j => f j + g j) n = Rsum f n + Rsum g n.
Proof. induction n as [|n IH]; simpl; [lra|rewrite IH; lra]. Qed.

Lemma Rsum_scal (a : R) (f : nat -> R) (n : nat) :
  Rsum (fun j => a * f j) n = a * Rsum f n.
Proof. induction n as [|n IH]; simpl; [lra|rewrite IH; lra]. Qed.

Lemma Rsum_zero (f : nat -> R) (n : nat) :
  (forall j, (j < n)%nat -> f j = 0) -> Rsum f n = 0.
Proof.
  induction n as [|n IH]; intros H; simpl; [reflexivity|].
  rewrite IH, H; auto; lra.
Qed.

Lemma Rsum_const (a : R) (n : nat) : Rsum (fun _ => a) n = INR n * a.
Proof.
  induction n as [|n IH]; [simpl; lra|].
  rewrite S_INR. simpl Rsum. rewrite IH. lra.
Qed.

Lemma Rsum_swap (f : nat -> nat -> R) (n m : nat) :
  Rsum (fun i => Rsum (fun j => f i j) m) n =
  Rsum (fun j => Rsum (fun i => f i j) n) m.
Proof.
  induction n as [|n IH]; simpl.
  - symmetry. apply Rsum_zero. reflexivity.
  - rewrite IH, <- Rsum_plus. reflexivity.
Qed.

Lemma Rsum_delta (g : nat -> R) (i n : nat) :
  (i < n)%nat ->
  Rsum (fun j => if Nat.eqb j i then g j else 0) n = g i.
Proof.
  induction n as [|n IH]; intros H; [lia|]. simpl.
  destruct (Nat.eqb_spec n i) as [->|Hne].
  - rewrite Rsum_zero; [lra|]. intros j Hj.
    destruct (Nat.eqb_spec j i); [lia|reflexivity].
  - rewrite IH by lia. lra.
Qed.

Lemma Rsum_shift (f : nat -> R) (n : nat) :
  Rsum f (S n) = f 0%nat + Rsum (fun j => f (S j)) n.
Proof.
  induction n as [|n IH]; [simpl; lra|].
  change (Rsum f (S (S n))) with (Rsum f (S n) + f (S n)).
  rewrite IH. simpl. lra.
Qed.

Lemma Rsum_rev (f : nat -> R) (n : nat) :
  Rsum f n = Rsum (fun j => f (n - 1 - j)%nat) n.
Proof.
  induction n as [|n IH]; [reflexivity|].
  rewrite (Rsum_shift (fun j => f (S n - 1 - j)%nat)).
  replace (S n - 1 - 0)%nat with n by lia.
  change (Rsum f (S n)) with (Rsum f n + f n).
  rewrite IH, Rplus_comm. f_equal.
  apply Rsum_ext. intros j Hj. f_equal. lia.
Qed.

(** A sum whose terms cancel in pairs [j], [n - 1 - j]. *)
Lemma Rsum_antisym (f : nat -> R) (n : nat) :
  (forall j, (j < n)%nat -> f j + f (n - 1 - j)%nat = 0) -> Rsum f n = 0.
Proof.
  intros H.
  assert (H2 : Rsum f n + Rsum f n = 0).
  { rewrite (Rsum_rev f n) at 2. rewrite <- Rsum_plus.
    apply Rsum_zero. exact H. }
  lra.
Qed.

(** ** Sums of cosines and sines over the roots of unity *)

Lemma cos_sum_telescope (a : R) (n : nat) :
  2 * sin (a / 2) * Rsum (fun j => cos (INR j * a)) n =
  sin ((INR n - 1 / 2) * a) + sin (a / 2).
Proof.
  induction n as [|n IH].
  - simpl. replace ((0 - 1 / 2) * a) with (- (a / 2)) by lra.
    rewrite sin_neg. lra.
  - simpl Rsum. rewrite Rmult_plus_distr_l, IH, S_INR.
    replace ((INR n + 1 - 1 / 2) * a) with (INR n * a + a / 2) by lra.
    replace ((INR n - 1 / 2) * a) with (INR n * a - a / 2) by lra.
    rewrite sin_plus, sin_minus. lra.
Qed.

Lemma sin_sum_telescope (a : R) (n : nat) :
  2 * sin (a / 2) * Rsum (fun j => sin (INR j * a)) n =
  cos (a / 2) - cos ((INR n - 1 / 2) * a).
Proof.
  induction n as [|n IH].
  - simpl. replace ((0 - 1 / 2) * a) with (- (a / 2)) by lra.
    rewrite cos_neg. lra.
  - simpl Rsum. rewrite Rmult_plus_distr_l, IH, S_INR.
    replace ((INR n + 1 - 1 / 2) * a) with (INR n * a + a / 2) by lra.
    replace ((INR n - 1 / 2) * a) with (INR n * a - a / 2) by lra.
    rewrite cos_plus, cos_minus. lra.
Qed.

Lemma sin_frac_nonzero (m P : nat) :
  (0 < P)%nat -> Nat.modulo m P <> 0%nat -> sin (PI * INR m / INR P) <> 0.
Proof.
  intros HP Hm Hs.
  apply sin_eq_0_0 in Hs. destruct Hs as [q Hq].
  assert (HPr : 0 < INR P) by (apply lt_0_INR; lia).
  assert (Hpi := PI_RGT_0).
  assert (Heq : INR m = IZR q * INR P).
  { apply Rmult_eq_reg_l with PI; [|lra].
    replace (PI * INR m) with (PI * INR m / INR P * INR P) by (field; lra).
    rewrite Hq. ring. }
  rewrite !INR_IZR_INZ, <- mult_IZR in Heq. apply eq_IZR in Heq.
  apply Hm.
  assert (Hq0 : (0 <= q)%Z) by nia.
  apply Nat2Z.inj. rewrite Nat2Z.inj_mod, Heq.
  rewrite Z.mod_mul; lia.
Qed.

Lemma ang_as_multiple (P m j : nat) :
  ang P m j = INR j * (2 * PI * INR m / INR P).
Proof. unfold ang, Rdiv. ring. Qed.

Lemma cos_sum_nonmultiple (P m : nat) :
  (0 < P)%nat -> Nat.modulo m P <> 0%nat ->
  Rsum (fun j => cos (ang P m j)) P = 0.
Proof.
  intros HP Hm.
  assert (HPr : 0 < INR P) by (apply lt_0_INR; lia).
  set (a := 2 * PI * INR m / INR P).
  assert (Hs : sin (a / 2) <> 0).
  { replace (a / 2) with (PI * INR m / INR P) by (unfold a; field; lra).
    apply sin_frac_nonzero; assumption. }
  assert (Ht := cos_sum_telescope a P).
  replace ((INR P - 1 / 2) * a) with (- (a / 2) + 2 * INR m * PI) in Ht
    by (unfold a; field; lra).
  rewrite sin_period, sin_neg in Ht.
  rewrite (Rsum_ext _ (fun j => cos (INR j * a))).
  - apply Rmult_eq_reg_l with (2 * sin (a / 2)); [lra|lra].
  - intros j _. rewrite ang_as_multiple. reflexivity.
Qed.

Lemma sin_sum_nonmultiple (P m : nat) :
  (0 < P)%nat -> Nat.modulo m P <> 0%nat ->
  Rsum (fun j => sin (ang P m j)) P = 0.
Proof.
  intros HP Hm.
  assert (HPr : 0 < INR P) by (apply lt_0_INR; lia).
  set (a := 2 * PI * INR m / INR P).
  assert (Hs : sin (a / 2) <> 0).
  { replace (a / 2) with (PI * INR m / INR P) by (unfold a; field; lra).
    apply sin_frac_nonzero; assumption. }
  assert (Ht := sin_sum_telescope a P).
  replace ((INR P - 1 / 2) * a) with (- (a / 2) + 2 * INR m * PI) in Ht
    by (unfold a; field; lra).
  rewrite cos_period, cos_neg in Ht.
  rewrite (Rsum_ext _ (fun j => sin (INR j * a))).
  - apply Rmult_eq_reg_l with (2 * sin (a / 2)); [lra|lra].
  - intros j _. rewrite ang_as_multiple. reflexivity.
Qed.

(** When [P] divides [m] every angle is a multiple of [2 pi]. *)
Lemma ang_multiple (P m j : nat) :
  (0 < P)%nat -> Nat.modulo m P = 0%nat ->
  ang P m j = 0 + 2 * INR (Nat.div m P * j) * PI.
Proof.
  intros HP Hm.
  assert (HPr : 0 < INR P) by (apply lt_0_INR; lia).
  assert (Hd : m = (P * Nat.div m P)%nat).
  { rewrite (Nat.div_mod_eq m P) at 1. lia. }
  unfold ang. rewrite Hd at 1. rewrite !mult_INR. field. lra.
Qed.

Lemma cos_sum_multiple (P m : nat) :
  (0 < P)%nat -> Nat.modulo m P = 0%nat ->
  Rsum (fun j => cos (ang P m j)) P = INR P.
Proof.
  intros HP Hm.
  rewrite (Rsum_ext _ (fun _ => 1)).
  - rewrite Rsum_const. lra.
  - intros j _. rewrite (ang_multiple P m j HP Hm), cos_period. apply cos_0.
Qed.

Lemma sin_sum_zero (P m : nat) :
  (0 < P)%nat -> Rsum (fun j => sin (ang P m j)) P = 0.
Proof.
  intros HP. destruct (Nat.eq_dec (Nat.modulo m P) 0) as [Hm|Hm].
  - apply Rsum_zero. intros j _.
    rewrite (ang_multiple P m j HP Hm), sin_period. apply sin_0.
  - apply sin_sum_nonmultiple; assumption.
Qed.

Lemma INR_pos (P : nat) : (0 < P)%nat -> 0 < INR P.
Proof. intros H. apply lt_0_INR. lia. Qed.

Section NormalModeClosedForm.
Import NormalMode Aux.

Lemma sqrt2_over_sqrt (P : nat) (t : R) :
  (0 < P)%nat -> sqrt 2 * t / sqrt (INR P) = sqrt (2 / INR P) * t.
Proof.
  intros HP. assert (HPr : 0 < INR P) by (apply lt_0_INR; lia).
  rewrite sqrt_div_alt by assumption.
  unfold Rdiv. ring.
Qed.

Lemma M_x2xp_spec (np : nat) (lam0 : array) (A0 B0 : matrix) (k j : nat) :
  (1 <= np)%nat -> (k < np)%nat -> (j < np)%nat ->
  M_x2xp (nmpimd_init np lam0 A0 B0) k j = spec_forward np k j.
Proof.
  intros Hnp Hk Hj. unfold nmpimd_init. simpl M_x2xp.
  rewrite init_nondegenerate_spec, init_degenerate_spec.
  unfold spec_forward, degenerate_entry.
  nat_cases; try (apply sqrt2_over_sqrt; lia).
Qed.

Lemma M_xp2x_spec (np : nat) (lam0 : array) (A0 B0 : matrix) (i j : nat) :
  (i < np)%nat -> (j < np)%nat ->
  M_xp2x (nmpimd_init np lam0 A0 B0) i j =
  M_x2xp (nmpimd_init np lam0 A0 B0) j i.
Proof.
  intros Hi Hj. unfold nmpimd_init. simpl.
  rewrite init_transpose_spec. nat_cases.
Qed.

Lemma lam_spec (np : nat) (lam0 : array) (A0 B0 : matrix) (k : nat) :
  (k < np)%nat ->
  lam (nmpimd_init np lam0 A0 B0) k = spec_eigenvalue np k.
Proof.
  intros Hk. unfold nmpimd_init. simpl lam.
  rewrite init_lam_spec. unfold spec_eigenvalue. nat_cases. ring.
Qed.

Lemma spec_eigenvalue_0 (P : nat) : spec_eigenvalue P 0 = 0.
Proof.
  unfold spec_eigenvalue. simpl INR.
  replace (0 * PI / INR P) with 0 by (unfold Rdiv; ring).
  rewrite sin_0. ring.
Qed.

Lemma spec_eigenvalue_half (P : nat) :
  (1 <= P)%nat -> Nat.modulo P 2 = 0%nat -> spec_eigenvalue P (Nat.div P 2) = 4.
Proof.
  intros HP Hev. unfold spec_eigenvalue.
  assert (Hd : P = (2 * Nat.div P 2)%nat).
  { rewrite (Nat.div_mod_eq P 2) at 1. lia. }
  assert (Hh : (1 <= Nat.div P 2)%nat) by lia.
  assert (Hhr : 0 < INR (Nat.div P 2)) by (apply lt_0_INR; lia).
  rewrite Hd at 2. rewrite mult_INR. simpl (INR 2).
  replace (INR (Nat.div P 2) * PI / ((1 + 1) * INR (Nat.div P 2))) with (PI / 2)
    by (field; lra).
  rewrite sin_PI2. ring.
Qed.

End NormalModeClosedForm.

(** ** Orthonormality of the forward matrix *)

Section Orthonormal.
Import NormalMode.

Variable P : nat.
Hypothesis HP : (0 < P)%nat.

Lemma Csum_val (m : nat) :
  Csum P m = if Nat.eqb (Nat.modulo m P) 0 then INR P else 0.
Proof.
  unfold Csum. destruct (Nat.eqb_spec (Nat.modulo m P) 0).
  - apply cos_sum_multiple; assumption.
  - apply cos_sum_nonmultiple; assumption.
Qed.

Lemma Ssum_val (m : nat) : Ssum P m = 0.
Proof.
 apply sin_sum_zero; assumption. Qed.

Lemma mod_small_nonzero (m : nat) :
  (0 < m < P)%nat -> Nat.modulo m P <> 0%nat.
Proof.
 intros H. rewrite Nat.mod_small; lia. Qed.

Lemma mod_second_nonzero (m : nat) :
  (P < m < 2 * P)%nat -> Nat.modulo m P <> 0%nat.
Proof.
  intros H. replace m with ((m - P) + 1 * P)%nat by lia.
  rewrite Nat.Div0.mod_add, Nat.mod_small; lia.
Qed.

Lemma ang_plus (k l j : nat) : ang P (k + l) j = ang P k j + ang P l j.
Proof.
  pose proof (INR_pos P HP) as HPr.
 unfold ang. rewrite plus_INR. field. lra. Qed.

Lemma ang_minus (k l j : nat) :
  (l <= k)%nat -> ang P (k - l) j = ang P k j - ang P l j.
Proof.
  pose proof (INR_pos P HP) as HPr.
 intros H. unfold ang. rewrite minus_INR by lia. field. lra. Qed.

Lemma ang_sym (k j : nat) : ang P k j = ang P j k.
Proof.
  pose proof (INR_pos P HP) as HPr.
 unfold ang. field. lra. Qed.

Lemma cos_cos_sum (k l : nat) :
  (l <= k)%nat ->
  Rsum (fun j => cos (ang P k j) * cos (ang P l j)) P =
  (Csum P (k - l) + Csum P (k + l)) / 2.
Proof.
  pose proof (INR_pos P HP) as HPr.
  intros H.
  rewrite (Rsum_ext _
             (fun j => / 2 * cos (ang P (k - l) j) + / 2 * cos (ang P (k + l) j))).
  - rewrite Rsum_plus, !Rsum_scal. unfold Csum. lra.
  - intros j _. rewrite ang_minus, ang_plus, cos_minus, cos_plus by lia. lra.
Qed.

Lemma sin_sin_sum (k l : nat) :
  (l <= k)%nat ->
  Rsum (fun j => sin (ang P k j) * sin (ang P l j)) P =
  (Csum P (k - l) - Csum P (k + l)) / 2.
Proof.
  pose proof (INR_pos P HP) as HPr.
  intros H.
  rewrite (Rsum_ext _
             (fun j => / 2 * cos (ang P (k - l) j) + - / 2 * cos (ang P (k + l) j))).
  - rewrite Rsum_plus, !Rsum_scal. unfold Csum. lra.
  - intros j _. rewrite ang_minus, ang_plus, cos_minus, cos_plus by lia. lra.
Qed.

Lemma sin_cos_sum (k l : nat) :
  (l <= k)%nat ->
  Rsum (fun j => sin (ang P k j) * cos (ang P l j)) P = 0.
Proof.
  pose proof (INR_pos P HP) as HPr.
  intros H.
  rewrite (Rsum_ext _
             (fun j => / 2 * sin (ang P (k + l) j) + / 2 * sin (ang P (k - l) j))).
  - rewrite Rsum_plus, !Rsum_scal.
    fold (Ssum P (k + l)). fold (Ssum P (k - l)). rewrite !Ssum_val. ring.
  - intros j _. rewrite ang_minus, ang_plus, sin_minus, sin_plus by lia. lra.
Qed.

Lemma cos_nat_PI (j : nat) : cos (INR j * PI) = (-1) ^ j.
Proof.
  induction j as [|j IH].
  - simpl. rewrite Rmult_0_l. apply cos_0.
  - rewrite S_INR. replace ((INR j + 1) * PI) with (INR j * PI + PI) by ring.
    rewrite neg_cos, IH. simpl. ring.
Qed.

Lemma spec_forward_cos_kind (k j : nat) :
  (2 * k <= P)%nat ->
  spec_forward P k j = amp P k * cos (ang P k j).
Proof.
  pose proof (INR_pos P HP) as HPr.
  intros H. unfold spec_forward, amp.
  destruct (Nat.eqb_spec k 0) as [Hk0|Hk0];
    destruct (Nat.eqb_spec (2 * k) P) as [Hh|Hh]; cbn [orb]; try lia.
  - subst k. unfold ang. simpl INR.
    replace (2 * PI * 0 * INR j / INR P) with 0 by (unfold Rdiv; ring).
    rewrite cos_0. ring.
  - replace (ang P k j) with (INR j * PI).
    + rewrite cos_nat_PI. reflexivity.
    + unfold ang. rewrite <- Hh at 1. rewrite mult_INR. simpl (INR 2).
      assert (0 < INR k) by (apply lt_0_INR; lia). field. lra.
  - destruct (Nat.ltb_spec (2 * k) P); [reflexivity|lia].
Qed.

Lemma spec_forward_sin_kind (k j : nat) :
  (P < 2 * k)%nat ->
  spec_forward P k j = sqrt (2 / INR P) * sin (ang P k j).
Proof.
  intros H. unfold spec_forward, ang.
  destruct (Nat.eqb_spec k 0); [lia|].
  destruct (Nat.eqb_spec (2 * k) P); [lia|].
  destruct (Nat.ltb_spec (2 * k) P); [lia|reflexivity].
Qed.

Lemma sqr_inv_sqrt : 1 / sqrt (INR P) * (1 / sqrt (INR P)) = 1 / INR P.
Proof.
  pose proof (INR_pos P HP) as HPr.
  assert (Hs : 0 < sqrt (INR P)) by (apply sqrt_lt_R0; assumption).
  assert (Hq : sqrt (INR P) * sqrt (INR P) = INR P) by (apply sqrt_sqrt; lra).
  rewrite <- Hq at 3. field. lra.
Qed.

Lemma sqr_sqrt2 : sqrt (2 / INR P) * sqrt (2 / INR P) = 2 / INR P.
Proof.
  pose proof (INR_pos P HP) as HPr.
  apply sqrt_sqrt. apply Rlt_le. apply Rdiv_lt_0_compat; lra.
Qed.

Lemma amp_sqr (k : nat) :
  amp P k * amp P k =
  if Nat.eqb k 0 || Nat.eqb (2 * k) P then 1 / INR P else 2 / INR P.
Proof.
  unfold amp. destruct (Nat.eqb k 0 || Nat.eqb (2 * k) P).
  - apply sqr_inv_sqrt.
  - apply sqr_sqrt2.
Qed.

Lemma Csum_double (k : nat) :
  (2 * k <= P)%nat ->
  Csum P (k + k) =
  if Nat.eqb k 0 || Nat.eqb (2 * k) P then INR P else 0.
Proof.
  intros H. rewrite Csum_val.
  destruct (Nat.eqb_spec k 0) as [Hk0|Hk0];
    destruct (Nat.eqb_spec (2 * k) P) as [Hh|Hh]; cbn [orb]; try lia.
  - subst k. rewrite Nat.Div0.mod_0_l. reflexivity.
  - replace (k + k)%nat with P by lia.
    rewrite Nat.Div0.mod_same. reflexivity.
  - destruct (Nat.eqb_spec (Nat.modulo (k + k) P) 0) as [E|E]; [|reflexivity].
    exfalso. revert E. apply mod_small_nonzero. lia.
Qed.

Lemma Csum_0 : Csum P 0 = INR P.
Proof.
 rewrite Csum_val, Nat.Div0.mod_0_l. reflexivity. Qed.

Lemma Csum_small (m : nat) : (0 < m < P)%nat -> Csum P m = 0.
Proof.
  intros H. rewrite Csum_val.
  destruct (Nat.eqb_spec (Nat.modulo m P) 0) as [E|E]; [|reflexivity].
  exfalso. revert E. apply mod_small_nonzero. lia.
Qed.

Lemma Csum_second (m : nat) : (P < m < 2 * P)%nat -> Csum P m = 0.
Proof.
  intros H. rewrite Csum_val.
  destruct (Nat.eqb_spec (Nat.modulo m P) 0) as [E|E]; [|reflexivity].
  exfalso. revert E. apply mod_second_nonzero. lia.
Qed.

Lemma rows_orthonormal_le (k l : nat) :
  (l <= k)%nat -> (k < P)%nat ->
  Rsum (fun j => spec_forward P k j * spec_forward P l j) P =
  if Nat.eqb k l then 1 else 0.
Proof.
  pose proof (INR_pos P HP) as HPr.
  intros Hlk Hk.
  destruct (le_lt_dec (2 * k) P) as [Hck|Hsk].
  - (* both rows are cosine rows *)
    rewrite (Rsum_ext _
               (fun j => amp P k * amp P l * (cos (ang P k j) * cos (ang P l j)))).
    2:{ intros j _. rewrite !spec_forward_cos_kind by lia. ring. }
    rewrite Rsum_scal, cos_cos_sum by lia.
    destruct (Nat.eqb_spec k l) as [<-|Hne].
    + rewrite Nat.sub_diag, Csum_0, Csum_double, amp_sqr by lia.
      destruct (Nat.eqb k 0 || Nat.eqb (2 * k) P); field; lra.
    + rewrite !Csum_small by lia. unfold Rdiv. ring.
  - destruct (le_lt_dec (2 * l) P) as [Hcl|Hsl].
    + (* sine row against cosine row *)
      rewrite (Rsum_ext _
                 (fun j => sqrt (2 / INR P) * amp P l
                           * (sin (ang P k j) * cos (ang P l j)))).
      2:{ intros j _. rewrite spec_forward_sin_kind, spec_forward_cos_kind by lia.
          ring. }
      rewrite Rsum_scal, sin_cos_sum by lia.
      destruct (Nat.eqb_spec k l); [lia|ring].
    + (* both rows are sine rows *)
      rewrite (Rsum_ext _
                 (fun j => sqrt (2 / INR P) * sqrt (2 / INR P)
                           * (sin (ang P k j) * sin (ang P l j)))).
      2:{ intros j _. rewrite !spec_forward_sin_kind by lia. ring. }
      rewrite Rsum_scal, sin_sin_sum, sqr_sqrt2 by lia.
      rewrite (Csum_second (k + l)) by lia.
      destruct (Nat.eqb_spec k l) as [<-|Hne].
      * rewrite Nat.sub_diag, Csum_0. field. lra.
      * rewrite Csum_small by lia. unfold Rdiv. ring.
Qed.

Lemma rows_orthonormal (k l : nat) :
  (k < P)%nat -> (l < P)%nat ->
  Rsum (fun j => spec_forward P k j * spec_forward P l j) P =
  if Nat.eqb k l then 1 else 0.
Proof.
  intros Hk Hl. destruct (le_lt_dec l k) as [H|H].
  - apply rows_orthonormal_le; assumption.
  - rewrite (Rsum_ext _
               (fun j => spec_forward P l j * spec_forward P k j))
      by (intros; ring).
    rewrite rows_orthonormal_le by lia.
    rewrite (Nat.eqb_sym l k). reflexivity.
Qed.

End Orthonormal.

Lemma Rsum_shift_pos (f : nat -> R) (n : nat) :
  (0 < n)%nat -> Rsum f n = f 0%nat + Rsum (fun j => f (S j)) (n - 1).
Proof.
  intros H. destruct n as [|n]; [lia|].
  rewrite Rsum_shift. replace (S n - 1)%nat with n by lia. reflexivity.
Qed.

Section Columns.
Import NormalMode.

Variable P : nat.
Hypothesis HP : (0 < P)%nat.

Lemma ang_reflect (k j : nat) :
  (k <= P)%nat -> ang P (P - k) j = - ang P k j + 2 * INR j * PI.
Proof.
  pose proof (INR_pos P HP) as HPr.
 intros H. unfold ang. rewrite minus_INR by lia. field. lra. Qed.

Lemma cos_reflect (k j : nat) :
  (k <= P)%nat -> cos (ang P (P - k) j) = cos (ang P k j).
Proof.
 intros H. rewrite ang_reflect, cos_period, cos_neg by lia. reflexivity. Qed.

Lemma sin_reflect (k j : nat) :
  (k <= P)%nat -> sin (ang P (P - k) j) = - sin (ang P k j).
Proof.
 intros H. rewrite ang_reflect, sin_period, sin_neg by lia. reflexivity. Qed.

Lemma amp_inner (k : nat) :
  (0 < k)%nat -> (2 * k < P)%nat -> amp P k = sqrt (2 / INR P).
Proof.
  intros H1 H2. unfold amp.
  destruct (Nat.eqb_spec k 0); [lia|].
  destruct (Nat.eqb_spec (2 * k) P); [lia|]. reflexivity.
Qed.

Lemma amp_half (k : nat) : (2 * k = P)%nat -> amp P k = 1 / sqrt (INR P).
Proof.
  intros H. unfold amp.
  destruct (Nat.eqb_spec (2 * k) P); [|lia]. rewrite orb_true_r. reflexivity.
Qed.

Lemma col_defect_0 (i j : nat) : col_defect P i j 0 = 0.
Proof.
  unfold col_defect, spec_forward. simpl (Nat.eqb 0 0). cbv iota.
  unfold ang. simpl INR.
  replace (2 * PI * 0 * INR i / INR P - 2 * PI * 0 * INR j / INR P) with 0
    by (unfold Rdiv; ring).
  rewrite cos_0, (sqr_inv_sqrt P HP). ring.
Qed.

Lemma col_defect_low (i j k : nat) :
  (0 < k)%nat -> (2 * k < P)%nat ->
  col_defect P i j k + col_defect P i j (P - k) = 0.
Proof.
  pose proof (INR_pos P HP) as HPr.
  intros H1 H2. unfold col_defect.
  rewrite !(spec_forward_cos_kind P HP k) by lia.
  rewrite !(spec_forward_sin_kind P HP (P - k)%nat) by lia.
  rewrite amp_inner by lia.
  rewrite !cos_minus, !cos_reflect, !sin_reflect by lia.
  assert (Hq := sqr_sqrt2 P HP).
  set (s := sqrt (2 / INR P)) in *.
  set (ci := cos (ang P k i)). set (cj := cos (ang P k j)).
  set (si := sin (ang P k i)). set (sj := sin (ang P k j)).
  replace (s * ci * (s * cj)) with (s * s * (ci * cj)) by ring.
  replace (s * - si * (s * - sj)) with (s * s * (si * sj)) by ring.
  rewrite Hq. field. lra.
Qed.

Lemma col_defect_half (i j k : nat) :
  (2 * k = P)%nat -> col_defect P i j k = 0.
Proof.
  pose proof (INR_pos P HP) as HPr.
  intros H. unfold col_defect.
  rewrite !(spec_forward_cos_kind P HP k) by lia.
  rewrite amp_half by lia.
  assert (Hs : forall t, sin (ang P k t) = 0).
  { intros t. assert (Hr := sin_reflect k t ltac:(lia)).
    replace (P - k)%nat with k in Hr by lia. lra. }
  rewrite cos_minus, !Hs.
  assert (Hq := sqr_inv_sqrt P HP).
  set (s := 1 / sqrt (INR P)) in *.
  set (ci := cos (ang P k i)). set (cj := cos (ang P k j)).
  replace (s * ci * (s * cj)) with (s * s * (ci * cj)) by ring.
  rewrite Hq. field. lra.
Qed.

Lemma col_defect_pair (i j k : nat) :
  (0 < k < P)%nat -> col_defect P i j k + col_defect P i j (P - k) = 0.
Proof.
  intros H.
  destruct (lt_eq_lt_dec (2 * k) P) as [[Hlt|Heq]|Hgt].
  - apply col_defect_low; lia.
  - replace (P - k)%nat with k by lia. rewrite col_defect_half by lia. ring.
  - rewrite Rplus_comm.
    replace k with (P - (P - k))%nat at 2 by lia.
    apply col_defect_low; lia.
Qed.

Lemma col_defect_sum (i j : nat) : Rsum (col_defect P i j) P = 0.
Proof.
  rewrite Rsum_shift_pos by assumption.
  rewrite col_defect_0, Rplus_0_l.
  apply Rsum_antisym. intros k Hk.
  replace (S (P - 1 - 1 - k)) with (P - S k)%nat by lia.
  apply col_defect_pair. lia.
Qed.

Lemma kernel_sum (i j : nat) :
  (i < P)%nat -> (j < P)%nat ->
  Rsum (fun k => cos (ang P k i - ang P k j)) P =
  if Nat.eqb i j then INR P else 0.
Proof.
  intros Hi Hj.
  destruct (le_lt_dec j i) as [H|H].
  - rewrite (Rsum_ext _ (fun k => cos (ang P (i - j) k))).
    + fold (Csum P (i - j)).
      destruct (Nat.eqb_spec i j) as [->|Hne].
      * rewrite Nat.sub_diag. apply Csum_0; assumption.
      * apply Csum_small; [assumption|lia].
    + intros k _. rewrite ang_minus by lia.
      rewrite (ang_sym P HP k i), (ang_sym P HP k j). reflexivity.
  - rewrite (Rsum_ext _ (fun k => cos (ang P (j - i) k))).
    + fold (Csum P (j - i)).
      destruct (Nat.eqb_spec i j) as [->|Hne]; [lia|].
      apply Csum_small; [assumption|lia].
    + intros k _. rewrite ang_minus by lia.
      rewrite (ang_sym P HP k i), (ang_sym P HP k j).
      rewrite <- cos_neg. f_equal. ring.
Qed.

Lemma columns_orthonormal (i j : nat) :
  (i < P)%nat -> (j < P)%nat ->
  Rsum (fun k => spec_forward P k i * spec_forward P k j) P =
  if Nat.eqb i j then 1 else 0.
Proof.
  pose proof (INR_pos P HP) as HPr.
  intros Hi Hj.
  assert (Hd := col_defect_sum i j).
  rewrite (Rsum_ext _
             (fun k => spec_forward P k i * spec_forward P k j
                       + -1 * (1 / INR P * cos (ang P k i - ang P k j)))) in Hd
    by (intros; unfold col_defect; ring).
  rewrite Rsum_plus, !Rsum_scal, kernel_sum in Hd by assumption.
  destruct (Nat.eqb i j).
  - replace 1 with (1 / INR P * INR P) by (field; lra). lra.
  - lra.
Qed.

End Columns.

(** ** The normal-mode transform: closed form and round trip *)

Section NormalModeMain.
Import NormalMode.

(** C3: [nmpimd_init] on [np] replicas yields the eigenvalues
    [4 sin^2(k pi / np)], so that the eigenvalue of mode 0 is 0 and, for even
    [np], that of mode [np/2] is 4; row 0 of the forward matrix is constant
    [1/sqrt np], row [np/2] (even [np]) is [(1/sqrt np) (-1)^j], the rows
    [1 <= k < np/2] are [sqrt (2/np) cos (2 pi k j / np)], the rows
    [np/2 < k < np] are [sqrt (2/np) sin (2 pi k j / np)], and the inverse
    matrix is the transpose of the forward one. *)
Theorem nmpimd_init_closed_form (np : nat) (lam0 : array) (A0 B0 : matrix) :
  (1 <= np)%nat ->
  let T := nmpimd_init np lam0 A0 B0 in
  (forall k, (k < np)%nat -> lam T k = 4 * (sin (INR k * PI / INR np)) ^ 2) /\
  lam T 0%nat = 0 /\
  (Nat.modulo np 2 = 0%nat -> lam T (Nat.div np 2) = 4) /\
  (forall j, (j < np)%nat -> M_x2xp T 0%nat j = 1 / sqrt (INR np)) /\
  (Nat.modulo np 2 = 0%nat ->
   forall j, (j < np)%nat ->
     M_x2xp T (Nat.div np 2) j = 1 / sqrt (INR np) * (-1) ^ j) /\
  (forall k j, (1 <= k)%nat -> (2 * k < np)%nat -> (j < np)%nat ->
     M_x2xp T k j = sqrt (2 / INR np) * cos (2 * PI * INR k * INR j / INR np)) /\
  (forall k j, (np < 2 * k)%nat -> (k < np)%nat -> (j < np)%nat ->
     M_x2xp T k j = sqrt (2 / INR np) * sin (2 * PI * INR k * INR j / INR np)) /\
  (forall i j, (i < np)%nat -> (j < np)%nat -> M_xp2x T i j = M_x2xp T j i).
Proof.
  intros Hnp T. subst T. repeat split.
  - intros k Hk. rewrite lam_spec by assumption. reflexivity.
  - rewrite lam_spec by lia. apply spec_eigenvalue_0.
  - intros Hev. rewrite lam_spec by lia. apply spec_eigenvalue_half; assumption.
  - intros j Hj. rewrite M_x2xp_spec by lia. reflexivity.
  - intros Hev j Hj. rewrite M_x2xp_spec by lia. unfold spec_forward. nat_cases.
  - intros k j H1 H2 Hj. rewrite M_x2xp_spec by lia. unfold spec_forward.
    nat_cases.
  - intros k j H1 H2 Hj. rewrite M_x2xp_spec by lia. unfold spec_forward.
    nat_cases.
  - intros i j Hi Hj. apply M_xp2x_spec; assumption.
Qed.

Lemma nmpimd_init_closed_form_witness :
  lam (nmpimd_init 4 (fun _ => 0) (fun _ _ => 0) (fun _ _ => 0)) 2%nat = 4.
Proof.
  apply (proj1 (proj2 (proj2
           (nmpimd_init_closed_form 4 (fun _ => 0) (fun _ _ => 0) (fun _ _ => 0)
              (le_S _ _ (le_S _ _ (le_S _ _ (le_n 1)))))))).
  reflexivity.
Defined.

Lemma transform_roundtrip_spec (np : nat) (xs : nat -> R) (i : nat) :
  (0 < np)%nat -> (i < np)%nat ->
  Rsum (fun k => Rsum (fun j => xs j * spec_forward np k j) np
                 * spec_forward np k i) np = xs i.
Proof.
  intros Hnp Hi.
  rewrite (Rsum_ext _
             (fun k => Rsum (fun j => xs j * spec_forward np k j
                                      * spec_forward np k i) np)).
  2:{ intros k _. rewrite Rmult_comm, <- Rsum_scal.
      apply Rsum_ext. intros; ring. }
  rewrite Rsum_swap.
  rewrite (Rsum_ext _ (fun j => if Nat.eqb j i then xs j else 0)).
  - apply Rsum_delta. assumption.
  - intros j Hj.
    rewrite (Rsum_ext _
               (fun k => xs j * (spec_forward np k j * spec_forward np k i)))
      by (intros; ring).
    rewrite Rsum_scal, columns_orthonormal by assumption.
    destruct (Nat.eqb j i); ring.
Qed.

(** C2: for every number of replicas [np >= 2] and every per-replica vector
    [xs], the forward transform (each replica [k] takes the dot product with
    row [k] of [M_x2xp]) followed by the inverse transform (replica [i] takes
    the dot product with row [i] of [M_xp2x]) gives back [xs]; and the rows
    of [M_x2xp] are pairwise orthonormal. *)
Theorem nm_transform_roundtrip (np : nat) (lam0 : array) (A0 B0 : matrix)
    (xs : nat -> R) :
  (2 <= np)%nat ->
  let T := nmpimd_init np lam0 A0 B0 in
  (forall i, (i < np)%nat ->
     nmpimd_transform np
       (fun k => nmpimd_transform np xs (M_x2xp T k)) (M_xp2x T i) = xs i) /\
  (forall k l, (k < np)%nat -> (l < np)%nat ->
     accumulate np (fun j => M_x2xp T k j * M_x2xp T l j) =
     if Nat.eqb k l then 1 else 0).
Proof.
  intros Hnp T. subst T. split.
  - intros i Hi. unfold nmpimd_transform. rewrite accumulate_Rsum.
    etransitivity; [|apply (transform_roundtrip_spec np xs i); lia].
    apply Rsum_ext. intros k Hk.
    rewrite accumulate_Rsum, M_xp2x_spec, M_x2xp_spec by lia.
    f_equal. apply Rsum_ext. intros j Hj.
    rewrite M_x2xp_spec by lia. reflexivity.
  - intros k l Hk Hl. rewrite accumulate_Rsum.
    rewrite <- (rows_orthonormal np ltac:(lia) k l) by assumption.
    apply Rsum_ext. intros j Hj. rewrite !M_x2xp_spec by lia. reflexivity.
Qed.

Lemma nm_transform_roundtrip_witness :
  nmpimd_transform 2
    (fun k => nmpimd_transform 2 (fun j => INR j)
                (M_x2xp (nmpimd_init 2 (fun _ => 0) (fun _ _ => 0) (fun _ _ => 0)) k))
    (M_xp2x (nmpimd_init 2 (fun _ => 0) (fun _ _ => 0) (fun _ _ => 0)) 1%nat)
  = INR 1.
Proof.
  apply (proj1 (nm_transform_roundtrip 2 (fun _ => 0) (fun _ _ => 0)
                  (fun _ _ => 0) (fun j => INR j) (le_n 2))).
  apply le_n.
Defined.

End NormalModeMain.

(** ** The tables of [Langevin_init] *)

Section LangevinLoops.
Import Config Setup.

Lemma physical_loop_spec (w0 h : R) (lam g1 g2 g3 : array) (n i : nat) :
  let r := for_loop 0 n (physical_body w0 h lam) (g1, g2, g3) in
  fst (fst r) i = (if Nat.ltb i n then w0 * sqrt (lam i) else g1 i) /\
  snd (fst r) i = (if Nat.ltb i n then cos (sqrt (lam i) * h) else g2 i) /\
  snd r i = (if Nat.ltb i n then sin (sqrt (lam i) * h) else g3 i).
Proof.
  induction n as [|n IH]; cbv zeta.
  - rewrite for_loop_empty by lia. cbn [fst snd]. auto.
  - rewrite for_loop_snoc by lia. cbv zeta in IH.
    destruct (for_loop 0 n (physical_body w0 h lam) (g1, g2, g3)) as [[a b] d].
    cbn [fst snd] in IH. destruct IH as (Ha & Hb & Hd).
    unfold physical_body, aset. cbn [fst snd]. rewrite Ha, Hb, Hd.
    repeat split; nat_cases.
Qed.

Lemma normal_loop_spec (w0 h : R) (g1 g2 g3 : array) (n i : nat) :
  let r := for_loop 0 n (normal_body w0 h) (g1, g2, g3) in
  fst (fst r) i = (if Nat.ltb i n then w0 else g1 i) /\
  snd (fst r) i = (if Nat.ltb i n then cos h else g2 i) /\
  snd r i = (if Nat.ltb i n then sin h else g3 i).
Proof.
  induction n as [|n IH]; cbv zeta.
  - rewrite for_loop_empty by lia. cbn [fst snd]. auto.
  - rewrite for_loop_snoc by lia. cbv zeta in IH.
    destruct (for_loop 0 n (normal_body w0 h) (g1, g2, g3)) as [[a b] d].
    cbn [fst snd] in IH. destruct IH as (Ha & Hb & Hd).
    unfold normal_body, aset. cbn [fst snd]. rewrite Ha, Hb, Hd.
    repeat split; nat_cases.
Qed.

Lemma pile_loop_spec (c : config) (dt : R) (w : array) (t0 a0 s0 : nat -> R)
    (n i : nat) :
  let r := for_loop 1 n (pile_body c dt w) (t0, a0, s0) in
  let t := 0.5 / pilescale c / w i in
  let a := match integrator c with
           | obabo => exp (- 0.5 * dt / t)
           | baoab => exp (- 1 * dt / t)
           end in
  fst (fst r) i = (if Nat.leb 1 i && Nat.ltb i n then t else t0 i) /\
  snd (fst r) i = (if Nat.leb 1 i && Nat.ltb i n then a else a0 i) /\
  snd r i = (if Nat.leb 1 i && Nat.ltb i n then sqrt (1 - a * a) else s0 i).
Proof.
  induction n as [|n IH]; cbv zeta.
  - rewrite for_loop_empty by lia. cbn [fst snd]. repeat split; nat_cases.
  - destruct (Nat.eq_dec n 0) as [->|Hn].
    + rewrite for_loop_empty by lia. cbn [fst snd]. repeat split; nat_cases.
    + rewrite for_loop_snoc by lia. cbv zeta in IH.
      destruct (for_loop 1 n (pile_body c dt w) (t0, a0, s0)) as [[a b] d].
      cbn [fst snd] in IH. destruct IH as (Ha & Hb & Hd).
      unfold pile_body, aset. cbn [fst snd]. rewrite Ha, Hb, Hd, !Nat.eqb_refl.
      repeat split; nat_cases.
Qed.

End LangevinLoops.

Section LangevinTables.
Import Config Setup.

Variable c : config.
Variable un : units.
Variable k : consts.
Variable dt : R.
Variable lam : array.
Variables g1 g2 g3 g4 g5 g6 : array.

Local Abbreviation L := (Langevin_init c un k dt lam g1 g2 g3 g4 g5 g6).

Lemma Langevin_omega_k (i : nat) :
  (i < np k)%nat ->
  _omega_k L i =
  match fmmode c with
  | physical => _omega_np L * sqrt (lam i)
  | normal => _omega_np L
  end.
Proof.
  intros Hi. unfold Langevin_init. cbv zeta. simpl _omega_k. simpl _omega_np.
  destruct (fmmode c).
  - match goal with
    | |- context [for_loop 0 _ (physical_body ?w ?h _) _] =>
        destruct (physical_loop_spec w h lam g1 g2 g3 (np k) i) as (H & _ & _)
    end.
    rewrite H. nat_cases.
  - match goal with
    | |- context [for_loop 0 _ (normal_body ?w ?h) _] =>
        destruct (normal_loop_spec w h g1 g2 g3 (np k) i) as (H & _ & _)
    end.
    rewrite H. nat_cases.
Qed.

Lemma Langevin_Lan_c (i : nat) :
  (i < np k)%nat -> Lan_c L i = cos (_omega_k L i * dt / 2).
Proof.
  intros Hi. rewrite Langevin_omega_k by assumption.
  unfold Langevin_init. cbv zeta. simpl Lan_c. simpl _omega_np.
  destruct (fmmode c).
  - match goal with
    | |- context [for_loop 0 _ (physical_body ?w ?h _) _] =>
        destruct (physical_loop_spec w h lam g1 g2 g3 (np k) i) as (_ & H & _)
    end.
    rewrite H. nat_cases. f_equal. lra.
  - match goal with
    | |- context [for_loop 0 _ (normal_body ?w ?h) _] =>
        destruct (normal_loop_spec w h g1 g2 g3 (np k) i) as (_ & H & _)
    end.
    rewrite H. nat_cases. f_equal. lra.
Qed.

Lemma Langevin_Lan_s (i : nat) :
  (i < np k)%nat -> Lan_s L i = sin (_omega_k L i * dt / 2).
Proof.
  intros Hi. rewrite Langevin_omega_k by assumption.
  unfold Langevin_init. cbv zeta. simpl Lan_s. simpl _omega_np.
  destruct (fmmode c).
  - match goal with
    | |- context [for_loop 0 _ (physical_body ?w ?h _) _] =>
        destruct (physical_loop_spec w h lam g1 g2 g3 (np k) i) as (_ & _ & H)
    end.
    rewrite H. nat_cases. f_equal. lra.
  - match goal with
    | |- context [for_loop 0 _ (normal_body ?w ?h) _] =>
        destruct (normal_loop_spec w h g1 g2 g3 (np k) i) as (_ & _ & H)
    end.
    rewrite H. nat_cases. f_equal. lra.
Qed.

Lemma Langevin_gamma :
  gamma L =
  if Rltb 0 (tau c) then 1 / tau c
  else INR (np k) / (1 / (boltz un * Lan_temp c)) / hbar k.
Proof. reflexivity. Qed.

Lemma Langevin_c1 :
  c1 L =
  match integrator c with
  | obabo => exp (- gamma L * 0.5 * dt)
  | baoab => exp (- gamma L * dt)
  end.
Proof. reflexivity. Qed.

Lemma Langevin_c2 : c2 L = sqrt (1 - c1 L * c1 L).
Proof. reflexivity. Qed.

Local Abbreviation PILE :=
  (for_loop 1 (np k) (pile_body c dt (_omega_k L))
     (aset g4 0%nat (tau c), aset g5 0%nat (c1 L), aset g6 0%nat (c2 L))).

Lemma Langevin_pile_unfold :
  uses_pile c ->
  tau_k L = fst (fst PILE) /\ c1_k L = snd (fst PILE) /\ c2_k L = snd PILE.
Proof.
  intros Hp. unfold Langevin_init. cbv zeta. cbn [tau_k c1_k c2_k _omega_k c1 c2].
  destruct Hp as [Hp|Hp]; rewrite Hp; auto.
Qed.

Lemma Langevin_pile_centroid :
  uses_pile c ->
  tau_k L 0%nat = tau c /\ c1_k L 0%nat = c1 L /\ c2_k L 0%nat = c2 L.
Proof.
  intros Hp. destruct (Langevin_pile_unfold Hp) as (-> & -> & ->).
  destruct (pile_loop_spec c dt (_omega_k L)
              (aset g4 0%nat (tau c)) (aset g5 0%nat (c1 L)) (aset g6 0%nat (c2 L))
              (np k) 0) as (H1 & H2 & H3).
  cbv zeta in H1, H2, H3. rewrite H1, H2, H3.
  unfold aset. cbn [Nat.leb Nat.eqb andb]. auto.
Qed.

Lemma Langevin_pile_mode (i : nat) :
  uses_pile c -> (1 <= i < np k)%nat ->
  tau_k L i = 0.5 / pilescale c / _omega_k L i /\
  c1_k L i = (match integrator c with
              | obabo => exp (- 0.5 * dt / tau_k L i)
              | baoab => exp (- 1 * dt / tau_k L i)
              end) /\
  c2_k L i = sqrt (1 - c1_k L i * c1_k L i).
Proof.
  intros Hp Hi. destruct (Langevin_pile_unfold Hp) as (-> & -> & ->).
  destruct (pile_loop_spec c dt (_omega_k L)
              (aset g4 0%nat (tau c)) (aset g5 0%nat (c1 L)) (aset g6 0%nat (c2 L))
              (np k) i) as (H1 & H2 & H3).
  cbv zeta in H1, H2, H3. rewrite H1, H2, H3.
  destruct (Nat.leb_spec 1 i); try lia.
  destruct (Nat.ltb_spec i (np k)); try lia.
  cbn [andb]. auto.
Qed.

End LangevinTables.

(** ** The A-step and the thermostat coefficients *)

Section Propagators.
Import Config Setup Step.

Variable c : config.
Variable un : units.
Variable k : consts.
Variable dt : R.
Variable lam : array.
Variables g1 g2 g3 g4 g5 g6 : array.

Local Abbreviation L := (Langevin_init c un k dt lam g1 g2 g3 g4 g5 g6).

(** The rotation [a_step] applies to an atom of replica [w], in the closed
    form of the specification. *)
Lemma a_step_atom_rotation (w : nat) (a : atom) (d : nat) :
  (w < np k)%nat ->
  let om := _omega_k L w in
  let th := om * dt / 2 in
  coord (x (a_step_atom L w a)) d
  = cos th * coord (x a) d + sin th / om * coord (v a) d /\
  coord (v (a_step_atom L w a)) d
  = - om * sin th * coord (x a) d + cos th * coord (v a) d.
Proof.
  intros Hw om th. unfold a_step_atom.
  rewrite Langevin_Lan_c, Langevin_Lan_s by assumption.
  fold om. fold th.
  destruct (x a) as [[x0 x1] x2]. destruct (v a) as [[v0 v1] v2].
  cbn [x v set_x set_v coord].
  destruct d as [|[|d]]; split; unfold Rdiv; ring.
Qed.

(** C4: for any coordinate of any atom of a non-centroid replica [w] with
    frequency [_omega_k w > 0], any mass [m] and timestep [dt], one [a_step]
    leaves the harmonic energy [0.5 m w^2 x^2 + 0.5 m v^2] unchanged. *)
Theorem a_step_preserves_mode_energy (w : nat) (l : list atom) (i d : nat)
    (a a' : atom) (m : R) :
  (w < np k)%nat -> w <> 0%nat -> 0 < _omega_k L w ->
  nth_error l i = Some a ->
  nth_error (a_step L w l) i = Some a' ->
  mode_energy m (_omega_k L w) (coord (x a') d) (coord (v a') d)
  = mode_energy m (_omega_k L w) (coord (x a) d) (coord (v a) d).
Proof.
  intros Hw Hw0 Hom Ha Ha'. unfold a_step in Ha'.
  destruct (Nat.eqb_spec w 0) as [|_]; [contradiction|].
  cbn [negb] in Ha'. rewrite nth_error_map, Ha in Ha'.
  injection Ha' as <-.
  destruct (a_step_atom_rotation w a d Hw) as (Hx & Hv).
  cbv zeta in Hx, Hv. rewrite Hx, Hv. unfold mode_energy.
  set (om := _omega_k L w) in *.
  set (th := om * dt / 2).
  assert (Hcs : sin th * sin th + cos th * cos th = 1)
    by (generalize (sin2_cos2 th); unfold Rsqr; lra).
  set (s := sin th) in *. set (cs := cos th) in *.
  set (xj := coord (x a) d). set (vj := coord (v a) d).
  replace (0.5 * m * (om * om) * ((cs * xj + s / om * vj) * (cs * xj + s / om * vj))
           + 0.5 * m * ((- om * s * xj + cs * vj) * (- om * s * xj + cs * vj)))
    with (0.5 * m * (om * om) * (xj * xj) * (s * s + cs * cs)
          + 0.5 * m * (vj * vj) * (s * s + cs * cs))
    by (field; lra).
  rewrite Hcs. ring.
Qed.

Lemma exp_nonpos_le_1 (t : R) : t <= 0 -> 0 < exp t <= 1.
Proof.
  intros Ht. split; [apply exp_pos|].
  destruct (Req_dec t 0) as [->|Hne].
  - rewrite exp_0. lra.
  - rewrite <- exp_0. apply Rlt_le. apply exp_increasing. lra.
Qed.

Lemma friction_pair_normalized (a : R) :
  0 < a <= 1 -> a * a + sqrt (1 - a * a) * sqrt (1 - a * a) = 1.
Proof.
  intros Ha. rewrite sqrt_sqrt; [ring|]. nra.
Qed.

(** C10: with a per-mode thermostat (PILE_L or PILE_G), a timestep
    [dt > 0] and positive relaxation times ([tau] of the centroid and
    [tau_k i] of every other mode), the coefficients [Langevin_init] builds
    satisfy [0 < c1 <= 1], [c1^2 + c2^2 = 1] and, for every mode [i],
    [0 < c1_k i <= 1], [c1_k i ^2 + c2_k i ^2 = 1], for both integrators. *)
Theorem langevin_coefficients_normalized :
  uses_pile c -> 0 < dt -> 0 < tau c ->
  (forall i, (1 <= i < np k)%nat -> 0 < tau_k L i) ->
  (0 < c1 L <= 1 /\ c1 L * c1 L + c2 L * c2 L = 1) /\
  (forall i, (i < np k)%nat ->
     0 < c1_k L i <= 1 /\ c1_k L i * c1_k L i + c2_k L i * c2_k L i = 1).
Proof.
  intros Hp Hdt Htau Htk.
  assert (Hc1 : 0 < c1 L <= 1).
  { rewrite Langevin_c1, Langevin_gamma. unfold Rltb.
    destruct (Rlt_dec 0 (tau c)) as [_|Hn]; [|contradiction].
    assert (Hg : 0 < 1 / tau c) by (apply Rdiv_lt_0_compat; lra).
    destruct (integrator c); apply exp_nonpos_le_1; nra. }
  assert (Hc12 : c1 L * c1 L + c2 L * c2 L = 1).
  { rewrite Langevin_c2. apply friction_pair_normalized. exact Hc1. }
  split; [split; assumption|].
  intros i Hi. destruct (Nat.eq_dec i 0) as [->|Hi0].
  - destruct (Langevin_pile_centroid c un k dt lam g1 g2 g3 g4 g5 g6 Hp)
      as (_ & -> & ->).
    split; assumption.
  - destruct (Langevin_pile_mode c un k dt lam g1 g2 g3 g4 g5 g6 i Hp
                ltac:(lia)) as (_ & Hc & Hs).
    assert (Ht := Htk i ltac:(lia)).
    assert (Hci : 0 < c1_k L i <= 1).
    { rewrite Hc.
      assert (Hq : 0 < dt / tau_k L i) by (apply Rdiv_lt_0_compat; lra).
      destruct (integrator c); apply exp_nonpos_le_1; unfold Rdiv in *; nra. }
    split; [exact Hci|].
    rewrite Hs. apply friction_pair_normalized. exact Hci.
Qed.

End Propagators.

Section Witnesses.
Import Config Setup Step Example.

Lemma ex_omega_k_1 : _omega_k ex_langevin 1%nat = 2.
Proof.
  unfold ex_langevin. rewrite Langevin_omega_k by (cbn; lia).
  cbn. field.
Qed.

Lemma ex_tau_k_positive (i : nat) :
  (1 <= i < np ex_consts)%nat -> 0 < tau_k ex_langevin i.
Proof.
  intros Hi. assert (i = 1)%nat as -> by (cbn in Hi; lia).
  unfold ex_langevin.
  destruct (Langevin_pile_mode ex_cfg ex_units ex_consts 1 zeros
              zeros zeros zeros zeros zeros zeros 1 (or_introl eq_refl) Hi)
    as (-> & _).
  fold ex_langevin. rewrite ex_omega_k_1. cbn. lra.
Qed.

Lemma langevin_coefficients_normalized_witness :
  0 < c1_k ex_langevin 1%nat <= 1 /\
  c1_k ex_langevin 1%nat * c1_k ex_langevin 1%nat
  + c2_k ex_langevin 1%nat * c2_k ex_langevin 1%nat = 1.
Proof.
  apply (proj2 (langevin_coefficients_normalized ex_cfg ex_units ex_consts 1
                  zeros zeros zeros zeros zeros zeros zeros
                  (or_introl eq_refl) Rlt_0_1 Rlt_0_1 ex_tau_k_positive)).
  apply le_n.
Defined.

End Witnesses.

(** ** The process grid: ranks and collectives *)

Section UniverseFacts.
Import Universe.

Lemma combine_seq_nth_error {A : Type} (l : list A) (s r : nat) (d : A) :
  (r < List.length l)%nat ->
  nth_error (combine (seq s (List.length l)) l) r = Some ((s + r)%nat, nth r l d).
Proof.
  revert s r. induction l as [|a l IH]; intros s r Hr; simpl in Hr; [lia|].
  destruct r as [|r]; simpl.
  - rewrite Nat.add_0_r. reflexivity.
  - rewrite IH by lia. rewrite Nat.add_succ_r. reflexivity.
Qed.

Lemma nprocs_map_ranks (F : nat -> proc -> proc) (u : universe) :
  nprocs (map_ranks F u) = nprocs u.
Proof.
  unfold nprocs, map_ranks, ranked. simpl.
  rewrite length_map, length_combine, length_seq. apply Nat.min_id.
Qed.

Lemma rank_map_ranks (F : nat -> proc -> proc) (u : universe) (r : nat) :
  (r < nprocs u)%nat -> rank (map_ranks F u) r = F r (rank u r).
Proof.
  intros Hr. unfold rank, map_ranks, ranked. simpl.
  apply nth_error_nth.
  rewrite nth_error_map. unfold nprocs in *.
  rewrite (combine_seq_nth_error (procs u) 0 r no_proc Hr). reflexivity.
Qed.

Lemma iworld_map_ranks (F : nat -> proc -> proc) (u : universe) (r : nat) :
  iworld (map_ranks F u) r = iworld u r.
Proof. reflexivity. Qed.

Lemma iworld_rank0 (u : universe) : iworld u 0 = 0%nat.
Proof. unfold iworld. apply Nat.Div0.div_0_l. Qed.

Lemma fold_left_member_sum {A : Type} (member : A -> bool) (val : A -> R)
    (l : list A) (acc : R) :
  fold_left (fun acc a => if member a then acc + val a else acc) l acc =
  acc + fold_left (fun acc a => if member a then acc + val a else acc) l 0.
Proof.
  revert acc. induction l as [|a l IH]; intros acc; simpl; [lra|].
  rewrite IH. rewrite (IH (if member a then 0 + val a else 0)).
  destruct (member a); lra.
Qed.

Lemma allreduce_sum_aux (member : nat -> bool) (val : nat -> proc -> R)
    (l : list proc) (s : nat) :
  fold_left
    (fun acc rp => if member (fst rp) then acc + val (fst rp) (snd rp) else acc)
    (combine (seq s (List.length l)) l) 0 =
  Rsum (fun q => if member (s + q)%nat
                 then val (s + q)%nat (nth q l no_proc) else 0)
       (List.length l).
Proof.
  revert s. induction l as [|a l IH]; intros s; [reflexivity|].
  cbn [List.length seq combine fold_left fst snd].
  rewrite (fold_left_member_sum (fun rp => member (fst rp))
             (fun rp => val (fst rp) (snd rp))).
  rewrite IH, Rsum_shift. rewrite Nat.add_0_r. cbn [nth].
  f_equal.
  - destruct (member s); lra.
  - apply Rsum_ext. intros q _. rewrite Nat.add_succ_r. reflexivity.
Qed.

(** [MPI_Allreduce] with [MPI_SUM] is the sum of the contributions of the
    ranks of the communicator. *)
Lemma allreduce_sum_Rsum (member : nat -> bool) (val : nat -> proc -> R)
    (u : universe) :
  allreduce_sum member val u =
  Rsum (fun q => if member q then val q (rank u q) else 0) (nprocs u).
Proof.
  unfold allreduce_sum, ranked, nprocs, rank.
  rewrite allreduce_sum_aux. reflexivity.
Qed.

Lemma vw_set_vw (p : proc) (a : R) : vw (set_vw p a) = a.
Proof. destruct p. reflexivity. Qed.

Lemma vw_set_random (p : proc) (g : rng) : vw (set_random p g) = vw p.
Proof. destruct p. reflexivity. Qed.

Lemma atoms_set_atoms (p : proc) (l : list atom) : atoms (set_atoms p l) = l.
Proof. destruct p. reflexivity. Qed.

Lemma atoms_set_random (p : proc) (g : rng) : atoms (set_random p g) = atoms p.
Proof. destruct p. reflexivity. Qed.

Lemma bcast_vw_rank (u : universe) (r : nat) :
  (r < nprocs u)%nat -> vw (rank (bcast_vw u) r) = vw (rank u 0).
Proof.
  intros Hr. unfold bcast_vw. rewrite rank_map_ranks by assumption.
  apply vw_set_vw.
Qed.

End UniverseFacts.

Section Barostat.
Import Config Setup Step Universe.

Variable c : config.
Variable un : units.
Variable k : consts.
Variable L : langevin.
Variable lam : array.
Variable atom_mass : nat -> R.
Variable natoms : nat.

Lemma dvw_proc_sum (mass : nat -> R) (l : list atom) :
  dvw_proc k mass l
  = fold_right
      (fun a s =>
         let term j :=
           dtv2 k * coord (f a) j * coord (v a) j / W k
           + dtv3 k * coord (f a) j * coord (f a) j / mass (type a) / W k in
         term 0%nat + term 1%nat + term 2%nat + s)
      0 l.
Proof.
  unfold dvw_proc.
  assert (H : forall acc,
            fold_left
              (fun acc a =>
                 let '(v0, v1, v2) := v a in
                 let '(f0, f1, f2) := f a in
                 let term fj vj :=
                   dtv2 k * fj * vj / W k
                   + dtv3 k * fj * fj / mass (type a) / W k in
                 acc + term f0 v0 + term f1 v1 + term f2 v2)
              l acc
            = acc + fold_right
                      (fun a s =>
                         let term j :=
                           dtv2 k * coord (f a) j * coord (v a) j / W k
                           + dtv3 k * coord (f a) j * coord (f a) j
                             / mass (type a) / W k in
                         term 0%nat + term 1%nat + term 2%nat + s)
                      0 l).
  { induction l as [|a l IH]; intros acc; cbn [fold_left fold_right].
    - ring.
    - rewrite IH. destruct (v a) as [[v0 v1] v2], (f a) as [[f0 f1] f2].
      cbv zeta. cbn [coord]. ring. }
  rewrite H. apply Rplus_0_l.
Qed.

(** C6 (amended): with the BZP barostat and the constants of [init] for the
    timestep [dt = update->dt], after [press_v_step] every process of every
    replica holds the same piston velocity: the one of universe rank 0,
    advanced over the half step [dt / 2] by
    [(dt / 2) * (3 (V np (p_cv - Pext)) / nktv2p + 3 Vcoeff / beta_np) / W]
    (the second summand is the piston-coupling term), plus the
    force-dependent increment
    [(dt/2)^2 f v / W + (dt/2)^3 / 3 * ftm2v * f^2 / m / W], summed over the
    three components of every atom of the processes of replica 0 only, with
    [m] the physical mass of the atom's type; after [press_o_step] every
    process holds rank 0's Ornstein-Uhlenbeck update
    [c1 vw + c2 sqrt (1 / W / beta_np) r1], with [r1] the next draw of rank
    0's generator. *)
Theorem piston_velocity_single_writer_broadcast
    (nworlds map_style : nat) (dt W0 V0 : R) (u : universe) :
  init c un nworlds dt natoms map_style W0 V0 = Done k ->
  barostat c = BZP -> (0 < nprocs u)%nat ->
  let p0 := rank u 0 in
  let V := xprd p0 * yprd p0 * zprd p0 in
  let half := 0.5 * dt in
  let force_term (a : atom) (j : nat) :=
    half * half * coord (f a) j * coord (v a) j / W k
    + 1 / 3 * (half * half) * half * ftm2v un
      * coord (f a) j * coord (f a) j / atom_mass (type a) / W k in
  let centroid_force_term :=
    Rsum (fun q =>
            if Nat.eqb (iworld u q) 0
            then fold_right
                   (fun a s =>
                      force_term a 0%nat + force_term a 1%nat
                      + force_term a 2%nat + s)
                   0 (atoms (rank u q))
            else 0)
         (nprocs u) in
  (forall r, (r < nprocs u)%nat ->
     vw (rank (press_v_step c un k lam atom_mass natoms u) r)
     = vw p0
       + half * (3 * (V * INR nworlds * (p_cv p0 - Pext c)) / nktv2p un
                 + 3 * Vcoeff k / beta_np k) / W k
       + centroid_force_term) /\
  (forall r, (r < nprocs u)%nat ->
     vw (rank (press_o_step k L u) r)
     = c1 L * vw p0
       + c2 L * sqrt (1 / W k / beta_np k) * draws (random p0) (pos (random p0))).
Proof.
  intros Hinit Hb Hn p0 V half ft cft.
  assert (Hk : dtv k = half /\ dtv2 k = half * half /\
               dtv3 k = 1 / 3 * (half * half) * half * ftm2v un /\
               np k = nworlds).
  { unfold init in Hinit. destruct (Nat.eqb map_style 0); [discriminate|].
    injection Hinit as <-. repeat split; reflexivity. }
  destruct Hk as (Hdtv & Hdtv2 & Hdtv3 & Hnp).
  split; intros r Hr.
  - unfold press_v_step. rewrite Hb.
    rewrite bcast_vw_rank by (rewrite nprocs_map_ranks; assumption).
    rewrite rank_map_ranks by assumption.
    rewrite iworld_rank0. cbn [Nat.eqb]. rewrite vw_set_vw.
    rewrite allreduce_sum_Rsum. fold p0. fold V. rewrite Hdtv, Hnp.
    replace (Rsum _ (nprocs u)) with cft.
    + unfold Rdiv. ring.
    + unfold cft. apply Rsum_ext. intros q _.
      unfold in_world. rewrite iworld_rank0.
      destruct (Nat.eqb_spec (iworld u q) 0) as [->|]; [|reflexivity].
      rewrite dvw_proc_sum, Hdtv2, Hdtv3. reflexivity.
  - unfold press_o_step.
    rewrite bcast_vw_rank by (rewrite nprocs_map_ranks; assumption).
    rewrite rank_map_ranks by assumption. cbn [Nat.eqb].
    unfold gaussian. rewrite vw_set_vw. reflexivity.
Qed.

End Barostat.

Section BarostatInstance.
Import Config Setup Step Universe Example.

(** C6: taking the claim's [dt] as the timestep [update->dt], the first
    update of [press_v_step] is not [vw + dt * [...] / W]: on two replicas
    at rest and free of force (so that no force-dependent term contributes),
    with [dt = 2], [W = 6] and the bracket equal to 3, the code yields
    [vw = 1/2] on every process, not 1. *)
Lemma piston_step_counterexample :
  let u := ex_quiet in
  let k := ex_consts_quiet in
  let p0 := rank u 0 in
  let V := xprd p0 * yprd p0 * zprd p0 in
  vw (rank (press_v_step ex_cfg_npt ex_units k zeros (fun _ => 1) 1 u) 1)
  <> vw p0
     + 2 * (3 * (V * INR 2 * (p_cv p0 - Pext ex_cfg_npt)) / nktv2p ex_units
            + 3 * Vcoeff k / beta_np k) / W k.
Proof.
  cbv zeta. unfold press_v_step. change (barostat ex_cfg_npt) with BZP.
  cbv iota.
  rewrite bcast_vw_rank by (rewrite nprocs_map_ranks; cbn; lia).
  rewrite rank_map_ranks by (cbn; lia).
  cbn. lra.
Qed.

End BarostatInstance.

(** ** The O-step under PILE_L *)

Section Thermostat.
Import Config Setup Step Universe.

Lemma coord_triple (a0 a1 a2 : R) (d : nat) :
  coord (a0, a1, a2) d = match d with O => a0 | S O => a1 | _ => a2 end.
Proof. reflexivity. Qed.

Lemma pile_loop_nth (c1k c2k beta_P : R) (mass : nat -> R)
    (l : list atom) (g : rng) (i : nat) (a : atom) :
  nth_error l i = Some a ->
  exists a',
    nth_error (fst (pile_loop c1k c2k beta_P mass l g)) i = Some a' /\
    forall d, (d < 3)%nat ->
      coord (v a') d
      = c1k * coord (v a) d
        + c2k * sqrt (1 / mass (type a) / beta_P) * draws g (pos g + 3 * i + d).
Proof.
  revert g i. induction l as [|b l IH]; intros g i Hi.
  - destruct i; discriminate.
  - cbn [pile_loop]. unfold gaussian. cbn [draws pos].
    destruct (v b) as [[v0 v1] v2] eqn:Hv.
    destruct (pile_loop c1k c2k beta_P mass l
                {| draws := draws g; pos := S (S (S (pos g))) |})
      as [rest' g'] eqn:Hrest.
    cbn [fst]. destruct i as [|i].
    + injection Hi as <-. eexists. split; [reflexivity|].
      intros d Hd. cbn [v set_v]. rewrite Hv, !coord_triple.
      assert (E0 : (pos g + 3 * 0 + 0 = pos g)%nat) by lia.
      assert (E1 : (pos g + 3 * 0 + 1 = S (pos g))%nat) by lia.
      assert (E2 : (pos g + 3 * 0 + 2 = S (S (pos g)))%nat) by lia.
      destruct d as [|[|[|d]]]; try lia; rewrite ?E0, ?E1, ?E2; reflexivity.
    + cbn [nth_error] in Hi |- *.
      destruct (IH {| draws := draws g; pos := S (S (S (pos g))) |} i Hi)
        as (a' & Ha' & Hd).
      rewrite Hrest in Ha'. cbn [fst] in Ha'.
      exists a'. split; [exact Ha'|].
      intros d Hlt. rewrite (Hd d Hlt). cbn [draws pos].
      replace (S (S (S (pos g))) + 3 * i + d)%nat
        with (pos g + 3 * S i + d)%nat by lia.
      reflexivity.
Qed.

Lemma atoms_pile_step (c : config) (un : units) (k : consts) (L : langevin)
    (lam : array) (atom_mass : nat -> R) (u : universe) (r : nat) (p : proc) :
  atoms (pile_step c un k L lam atom_mass u r p)
  = fst (pile_loop (c1_k L (iworld u r)) (c2_k L (iworld u r))
           (beta_np_o c un k) (mass_of c lam atom_mass (iworld u r))
           (atoms p) (random p)).
Proof.
  unfold pile_step.
  destruct (pile_loop _ _ _ _ _ _) as [l g].
  rewrite atoms_set_random, atoms_set_atoms. reflexivity.
Qed.

(** C5: under PILE_L, [o_step] replaces every velocity component [d] of
    every local atom [i] of a process of replica [w] by
    [c1_k w * v + c2_k w * sqrt (1 / (m beta_P)) * xi], where [xi] is draw
    number [3 i + d] of the process's generator counted from its position
    (one fresh draw per component), [m] the atom's mass on that replica and
    [beta_P] the [beta_np] of [o_step]; and for every non-centroid mode [w]
    the tables of [Langevin_init] are [tau_k w = 1 / (2 scale omega_k w)],
    [c1_k w = exp (- dt / (2 tau_k w))] for OBABO and [exp (- dt / tau_k w)]
    for BAOAB, and [c2_k w = sqrt (1 - c1_k w ^ 2)]. *)
Theorem o_step_pile_local_update (c : config) (un : units) (k : consts)
    (dt : R) (lam : array) (g1 g2 g3 g4 g5 g6 : array)
    (atom_mass : nat -> R) (natoms : nat)
    (u : universe) (r i : nat) (a : atom) :
  thermostat c = PILE_L ->
  (r < nprocs u)%nat ->
  nth_error (atoms (rank u r)) i = Some a ->
  let L := Langevin_init c un k dt lam g1 g2 g3 g4 g5 g6 in
  let w := iworld u r in
  let m := mass_of c lam atom_mass w (type a) in
  let beta_P := 1 / boltz un / Lan_temp c / INR (np k) * mvv2e un in
  let xi d := draws (random (rank u r)) (pos (random (rank u r)) + 3 * i + d) in
  (exists a',
     nth_error (atoms (rank (o_step c un k L lam atom_mass natoms u) r)) i
     = Some a' /\
     forall d, (d < 3)%nat ->
       coord (v a') d
       = c1_k L w * coord (v a) d + c2_k L w * sqrt (1 / (m * beta_P)) * xi d) /\
  ((1 <= w < np k)%nat ->
     tau_k L w = 1 / (2 * pilescale c * _omega_k L w) /\
     c1_k L w = (match integrator c with
                 | obabo => exp (- dt / (2 * tau_k L w))
                 | baoab => exp (- dt / tau_k L w)
                 end) /\
     c2_k L w = sqrt (1 - (c1_k L w) ^ 2)).
Proof.
  intros Hth Hr Ha L w m beta_P xi. split.
  - unfold o_step. rewrite rank_map_ranks by assumption. rewrite Hth.
    rewrite atoms_pile_step.
    destruct (pile_loop_nth (c1_k L (iworld u r)) (c2_k L (iworld u r))
                (beta_np_o c un k) (mass_of c lam atom_mass (iworld u r))
                (atoms (rank u r)) (random (rank u r)) i a Ha)
      as (a' & Ha' & Hd).
    exists a'. split; [exact Ha'|].
    intros d Hlt. rewrite (Hd d Hlt). unfold xi, m, beta_P, w, beta_np_o.
    match goal with
    | |- context [sqrt (1 / (?X * ?Y))] =>
        replace (1 / (X * Y)) with (1 / X / Y)
          by (unfold Rdiv; rewrite (Rinv_mult X); ring)
    end.
    reflexivity.
  - intros Hw.
    destruct (Langevin_pile_mode c un k dt lam g1 g2 g3 g4 g5 g6 w
                (or_introl Hth) Hw) as (Ht & Hc & Hs).
    fold L in Ht, Hc, Hs. repeat split.
    + rewrite Ht. unfold Rdiv. rewrite !Rinv_mult. lra.
    + rewrite Hc. destruct (integrator c); f_equal; unfold Rdiv;
        rewrite ?Rinv_mult; lra.
    + rewrite Hs. f_equal. ring.
Qed.

End Thermostat.

Section AStep.
Import Config Setup Step Universe Example.

Lemma init_dtv (c : config) (un : units) (nworlds : nat) (dt : R)
    (natoms map_style : nat) (W0 V0 : R) (k : consts) :
  init c un nworlds dt natoms map_style W0 V0 = Done k ->
  dtv k = 0.5 * dt /\ np k = nworlds.
Proof.
  unfold init. destruct (Nat.eqb map_style 0); [discriminate|].
  intros H. injection H as <-. split; reflexivity.
Qed.

Lemma lam_four (lam0 : array) (A0 B0 : matrix) :
  let T := NormalMode.nmpimd_init 4 lam0 A0 B0 in
  NormalMode.lam T 0%nat = 0 /\ NormalMode.lam T 1%nat = 2 /\
  NormalMode.lam T 2%nat = 4 /\ NormalMode.lam T 3%nat = 2.
Proof.
  intros T. subst T.
  assert (Hq : 1 / sqrt 2 * (1 / sqrt 2) = 1 / 2).
  { assert (Hs : sqrt 2 * sqrt 2 = 2) by (apply sqrt_sqrt; lra).
    assert (Hp : 0 < sqrt 2) by (apply sqrt_lt_R0; lra).
    rewrite <- Hs at 3. field. lra. }
  rewrite !lam_spec by lia. unfold NormalMode.spec_eigenvalue.
  repeat split.
  - replace (INR 0 * PI / INR 4) with 0 by (simpl; field).
    rewrite sin_0. ring.
  - replace (INR 1 * PI / INR 4) with (PI / 4) by (simpl; field).
    rewrite sin_PI4. simpl pow. rewrite Rmult_1_r, Hq. lra.
  - replace (INR 2 * PI / INR 4) with (PI / 2) by (simpl; field).
    rewrite sin_PI2. ring.
  - replace (INR 3 * PI / INR 4) with (3 * (PI / 4)) by (simpl; field).
    rewrite sin_3PI4. simpl pow. rewrite Rmult_1_r, Hq. lra.
Qed.

Lemma qc_step_centroid_drift (c : config) (k : consts) (u : universe)
    (r i d : nat) (a : atom) :
  pextflag c = false -> (r < nprocs u)%nat -> iworld u r = 0%nat ->
  nth_error (atoms (rank u r)) i = Some a ->
  exists a',
    nth_error (atoms (rank (qc_step c k u) r)) i = Some a' /\
    coord (x a') d = coord (x a) d + dtv k * coord (v a) d /\
    v a' = v a.
Proof.
  intros Hp Hr Hw Ha. unfold qc_step. rewrite Hp. cbn [negb].
  rewrite rank_map_ranks by assumption. rewrite Hw. cbn [Nat.eqb].
  rewrite atoms_set_atoms, nth_error_map, Ha. cbn [option_map].
  eexists. split; [reflexivity|].
  unfold qc_drift_atom.
  destruct (x a) as [[x0 x1] x2]. destruct (v a) as [[v0 v1] v2] eqn:Hv.
  cbn [x v set_x]. rewrite Hv. split; [|reflexivity].
  destruct d as [|[|d]]; reflexivity.
Qed.

(** C1: taking the claim's [dt] as the timestep [update->dt], the centroid
    drift of one [qc_step] is not [x + v * dt]: here [dt = 2], [x = 0],
    [v = 1] and the code yields 1, not 2. *)
Lemma centroid_drift_counterexample :
  coord (x (nth 0 (atoms (rank (qc_step ex_cfg ex_consts_dt2 ex_single) 0))
              ex_atom)) 0
  <> coord (x ex_atom) 0 + coord (v ex_atom) 0 * 2.
Proof.
  unfold qc_step. change (pextflag ex_cfg) with false. cbn [negb].
  rewrite rank_map_ranks by (cbn; lia).
  cbn. lra.
Qed.

(** C1 (amended): for every non-centroid replica [w] and every coordinate of
    every atom, one [a_step] is the closed-form rotation by
    [theta = omega_k w * dt / 2]; on the centroid replica [a_step] changes
    nothing and, when no barostat is active, one [qc_step] drifts the
    position by [v * dt / 2] and keeps the velocity (two such half drifts
    per timestep); and for 4 replicas the eigenvalues are 0, 2, 4, 2 and the
    output of [a_step] is within 1e-12 of the rotation for every mode. *)
Theorem a_step_rotation_and_centroid_half_drift
    (c : config) (un : units) (nworlds : nat) (dt : R) (natoms map_style : nat)
    (W0 V0 : R) (k : consts) (lam : array) (g1 g2 g3 g4 g5 g6 : array) :
  init c un nworlds dt natoms map_style W0 V0 = Done k ->
  let L := Langevin_init c un k dt lam g1 g2 g3 g4 g5 g6 in
  let rotated (w : nat) (a a' : atom) (d : nat) (eps : R) :=
    let om := _omega_k L w in
    let th := om * dt / 2 in
    Rabs (coord (x a') d
          - (cos th * coord (x a) d + sin th / om * coord (v a) d)) <= eps /\
    Rabs (coord (v a') d
          - (- om * sin th * coord (x a) d + cos th * coord (v a) d)) <= eps in
  (forall w l i a d,
     w <> 0%nat -> (w < np k)%nat -> nth_error l i = Some a ->
     exists a', nth_error (Step.a_step L w l) i = Some a' /\ rotated w a a' d 0) /\
  (forall l, Step.a_step L 0 l = l) /\
  (pextflag c = false ->
   forall u r i a d,
     (r < nprocs u)%nat -> iworld u r = 0%nat ->
     nth_error (atoms (rank u r)) i = Some a ->
     exists a',
       nth_error (atoms (rank (qc_step c k u) r)) i = Some a' /\
       coord (x a') d = coord (x a) d + coord (v a) d * (dt / 2) /\
       v a' = v a) /\
  (nworlds = 4%nat ->
   (forall lam0 A0 B0,
      let T := NormalMode.nmpimd_init 4 lam0 A0 B0 in
      NormalMode.lam T 0%nat = 0 /\ NormalMode.lam T 1%nat = 2 /\
      NormalMode.lam T 2%nat = 4 /\ NormalMode.lam T 3%nat = 2) /\
   (forall w a d,
      (1 <= w <= 3)%nat ->
      exists a', Step.a_step L w [a] = [a'] /\ rotated w a a' d (1 / 10 ^ 12))).
Proof.
  intros Hinit L rotated.
  destruct (init_dtv _ _ _ _ _ _ _ _ _ Hinit) as (Hdtv & Hnp).
  assert (Hrot : forall w a d, (w < np k)%nat ->
                   rotated w a (a_step_atom L w a) d 0).
  { intros w a d Hw.
    destruct (a_step_atom_rotation c un k dt lam g1 g2 g3 g4 g5 g6 w a d Hw)
      as (Hx & Hv).
    cbv zeta in Hx, Hv. fold L in Hx, Hv. unfold rotated. cbv zeta.
    rewrite Hx, Hv.
    unfold Rminus. rewrite !Rplus_opp_r, Rabs_R0. lra. }
  split; [|split; [|split]].
  - intros w l i a d Hw0 Hw Ha. exists (a_step_atom L w a). split.
    + unfold Step.a_step. destruct (Nat.eqb_spec w 0); [contradiction|].
      cbn [negb]. rewrite nth_error_map, Ha. reflexivity.
    + apply Hrot. assumption.
  - intros l. reflexivity.
  - intros Hp u r i a d Hr Hw Ha.
    destruct (qc_step_centroid_drift c k u r i d a Hp Hr Hw Ha)
      as (a' & Ha' & Hx & Hv).
    exists a'. split; [exact Ha'|]. split; [|exact Hv].
    rewrite Hx, Hdtv. lra.
  - intros H4. split; [apply lam_four|].
    intros w a d Hw. exists (a_step_atom L w a). split.
    + unfold Step.a_step. destruct (Nat.eqb_spec w 0); [lia|]. reflexivity.
    + destruct (Hrot w a d ltac:(lia)) as (H1 & H2).
      assert (Heps : 0 <= 1 / 10 ^ 12).
      { apply Rlt_le. apply Rdiv_lt_0_compat; [lra|]. apply pow_lt. lra. }
      unfold rotated in *. cbv zeta in *. split; lra.
Qed.

Lemma a_step_rotation_and_centroid_half_drift_witness :
  Step.a_step ex_langevin 0 [ex_atom] = [ex_atom].
Proof.
  apply (proj1 (proj2
           (a_step_rotation_and_centroid_half_drift ex_cfg ex_units 2 1 1 1 0 0
              ex_consts zeros zeros zeros zeros zeros zeros zeros eq_refl))).
Defined.

End AStep.

(** ** Bead exchange *)

Section BeadExchange.
Import Universe.

Lemma find_tag_nth (t : Z) (l : list Z) (s n : nat) :
  find_tag t l s = Some n ->
  exists j, n = (s + j)%nat /\ nth_error l j = Some t.
Proof.
  revert s. induction l as [|a l IH]; intros s H; simpl in H; [discriminate|].
  destruct (Z.eqb_spec a t) as [->|Hne].
  - injection H as <-. exists 0%nat. split; [lia|reflexivity].
  - destruct (IH _ H) as (j & -> & Hj). exists (S j). split; [lia|exact Hj].
Qed.

Lemma atom_map_owned (p : proc) (t : Z) (i : nat) :
  atom_map p t = Some i -> (i < nlocal p)%nat ->
  nth_error (map tag (atoms p)) i = Some t.
Proof.
  intros H Hi. unfold atom_map in H.
  destruct (find_tag_nth _ _ _ _ H) as (j & Hj & Hn). simpl in Hj. subst j.
  rewrite nth_error_app1 in Hn; [exact Hn|].
  rewrite length_map. exact Hi.
Qed.

Section WithField.

Variable field : atom -> vec3.
Variable junk : nat -> nat.

Lemma pack_in (u : universe) (q iplan : nat) (t : Z) (val : vec3) :
  In (t, val) (pack field junk u q iplan) ->
  exists index,
    atom_map (rank u q) t = Some index /\ (index < nlocal (rank u q))%nat.
Proof.
  unfold pack. intros H. apply in_flat_map in H.
  destruct H as (ts & _ & H).
  destruct (atom_map (rank u q) ts) as [index|] eqn:Hm; [|contradiction].
  destruct (Nat.ltb_spec index (nlocal (rank u q))) as [Hlt|]; [|contradiction].
  destruct (nth_error (atoms (rank u q)) index) as [a|] eqn:Ha; [|contradiction].
  destruct H as [H|[]]. injection H as <- <-.
  assert (Ht := atom_map_owned _ _ _ Hm Hlt).
  rewrite nth_error_map, Ha in Ht. injection Ht as ->.
  exists index. split; assumption.
Qed.

Lemma store_untouched (p : proc) (mode w i : nat) (recvd : list (Z * vec3))
    (b : nat -> nat -> vec3) :
  (forall tv, In tv recvd -> mode = w -> atom_map p (fst tv) <> Some i) ->
  store p mode recvd b w i = b w i.
Proof.
  revert b. induction recvd as [|tv l IH]; intros b H; [reflexivity|].
  unfold store in *. cbn [fold_left]. rewrite IH.
  - destruct (atom_map p (fst tv)) as [index|] eqn:Hm; [|reflexivity].
    unfold bset.
    destruct (Nat.eqb_spec w mode) as [->|]; [|reflexivity].
    destruct (Nat.eqb_spec i index) as [->|]; [|reflexivity].
    exfalso. apply (H tv (or_introl eq_refl) eq_refl). exact Hm.
  - intros tv' Hin. apply H. right. exact Hin.
Qed.

(** Every filled entry of the plan sends to a process of the replica whose
    buffer the entry names. *)
Lemma plan_row_send_mode (np_ ncomms_ iw m i : nat)
    (st : (nat -> nat) * (nat -> nat) * (nat -> nat)) :
  (0 < ncomms_)%nat ->
  (forall idx, (idx < i * ncomms_)%nat ->
     Nat.div (fst (fst st) idx) ncomms_ = snd st idx) ->
  forall idx, (idx < S i * ncomms_)%nat ->
    Nat.div (fst (fst (plan_row_body np_ ncomms_ iw m i st)) idx) ncomms_
    = snd (plan_row_body np_ ncomms_ iw m i st) idx.
Proof.
  intros Hc Hst. unfold plan_row_body. cbv zeta.
  set (i_send := Nat.modulo (iw + i + 1) np_).
  set (i_recv := Nat.modulo (iw + np_ - i - 1) np_).
  assert (H : forall n,
             (n <= ncomms_)%nat ->
             forall idx, (idx < i * ncomms_ + n)%nat ->
               Nat.div (fst (fst (for_loop 0 n
                          (plan_entry_body ncomms_ m i_send i_recv i) st)) idx)
                       ncomms_
               = snd (for_loop 0 n
                        (plan_entry_body ncomms_ m i_send i_recv i) st) idx).
  { induction n as [|n IH]; intros Hn idx Hidx.
    - rewrite for_loop_empty by lia. apply Hst. lia.
    - rewrite for_loop_snoc by lia.
      specialize (IH ltac:(lia)).
      destruct (for_loop 0 n (plan_entry_body ncomms_ m i_send i_recv i) st)
        as [[ps pr] mi].
      cbn [fst snd] in IH. unfold plan_entry_body, aset. cbn [fst snd].
      destruct (Nat.eqb_spec idx (i * ncomms_ + n)) as [_|Hne].
      + assert (Hm : (Nat.modulo (m + n) ncomms_ < ncomms_)%nat)
          by (apply Nat.mod_upper_bound; lia).
        rewrite Nat.div_add_l by lia.
        rewrite Nat.div_small by assumption. lia.
      + apply IH. lia. }
  intros idx Hidx. apply H; lia.
Qed.

Lemma comm_init_send_mode (np_ ncomms_ nprocs_u iw m : nat)
    (j1 j2 j3 : nat -> nat) (iplan : nat) :
  (0 < ncomms_)%nat -> (iplan < (np_ - 1) * ncomms_)%nat ->
  Nat.div (plan_send (comm_init np_ ncomms_ nprocs_u iw m j1 j2 j3) iplan) ncomms_
  = mode_index (comm_init np_ ncomms_ nprocs_u iw m j1 j2 j3) iplan.
Proof.
  intros Hc Hi. unfold comm_init. cbv zeta. cbn [plan_send mode_index].
  revert iplan Hi. generalize (np_ - 1)%nat as n.
  induction n as [|n IH]; intros iplan Hi; [lia|].
  rewrite for_loop_snoc by lia.
  apply plan_row_send_mode; assumption.
Qed.

Lemma buf_beads_set_buf (p : proc) (b : nat -> nat -> vec3) (n : nat) :
  buf_beads (set_buf p b n) = b.
Proof. destruct p. reflexivity. Qed.

(** C8 (amended): [comm_exec] never aborts; on a grid of [nworlds] replicas
    of [ncomms] processes each, when the id [t] of the local atom in slot
    [i] of rank [r] is matched by no process of a remote replica [w] (none
    of them maps [t] to one of its own atoms), the exchange still runs to
    its end and slot [i] of the bead buffer of replica [w] keeps the content
    it had before the call. *)
Theorem comm_exec_unmatched_id_keeps_stale_slot (u : universe)
    (r w i : nat) (t : Z) :
  (0 < ncomms u)%nat ->
  nprocs u = (nworlds u * ncomms u)%nat ->
  (r < nprocs u)%nat ->
  w <> iworld u r ->
  nth_error (map tag (atoms (rank u r))) i = Some t ->
  (forall q index,
     iworld u q = w -> atom_map (rank u q) t = Some index ->
     (nlocal (rank u q) <= index)%nat) ->
  exists u',
    comm_exec field junk u = Done u' /\
    buf_beads (rank u' r) w i = buf_beads (rank u r) w i.
Proof.
  intros Hc Hgrid Hr Hw Ht Hun. eexists. split; [reflexivity|].
  rewrite rank_map_ranks by assumption.
  unfold comm_exec_rank. cbv zeta. rewrite buf_beads_set_buf.
  assert (Hsize : size_plan (plan_of junk u r)
                  = ((nworlds u - 1) * ncomms u)%nat).
  { unfold plan_of, comm_init. cbn [size_plan]. rewrite Hgrid. nia. }
  rewrite Hsize.
  assert (Hinv : forall n,
             (n <= (nworlds u - 1) * ncomms u)%nat ->
             fst (for_loop 0 n (exchange_body field junk u r)
                    (copy_local field u r, nfound (rank u r))) w i
             = buf_beads (rank u r) w i).
  { induction n as [|n IH]; intros Hn.
    - rewrite for_loop_empty by lia. cbn [fst]. unfold copy_local.
      destruct (Nat.eqb_spec w (iworld u r)); [contradiction|reflexivity].
    - rewrite for_loop_snoc by lia. specialize (IH ltac:(lia)).
      destruct (for_loop 0 n (exchange_body field junk u r)
                  (copy_local field u r, nfound (rank u r))) as [b nf].
      cbn [fst] in IH. unfold exchange_body. cbv zeta. cbn [fst].
      rewrite store_untouched; [exact IH|].
      intros [t' val] Hin Hmode Hmap. cbn [fst] in Hmap.
      destruct (pack_in _ _ _ _ _ Hin) as (index & Hq & Hlt).
      assert (Hi : (i < nlocal (rank u r))%nat).
      { unfold nlocal. rewrite <- (length_map tag).
        apply nth_error_Some. rewrite Ht. discriminate. }
      assert (Ht' := atom_map_owned _ _ _ Hmap Hi).
      rewrite Ht in Ht'. injection Ht' as <-.
      assert (Hq_w : iworld u (plan_send (plan_of junk u r) n) = w).
      { rewrite <- Hmode. unfold iworld, plan_of.
        apply comm_init_send_mode; [assumption|lia]. }
      specialize (Hun _ _ Hq_w Hq). lia. }
  apply Hinv. lia.
Qed.

End WithField.

End BeadExchange.

Section ExchangeExamples.
Import Universe Example.

(** C8: replica 0 owns id 7, no process of replica 1 has it; [comm_exec]
    returns normally and the slot of replica 1's buffer keeps the stale
    (5, 5, 5). *)
Lemma comm_exec_unmatched_counterexample :
  atom_map (rank ex_mismatch 1) 7 = None /\
  exists u',
    comm_exec x no_junk ex_mismatch = Done u' /\
    buf_beads (rank u' 0) 1%nat 0%nat = (5, 5, 5).
Proof.
  split; [reflexivity|]. eexists. split; [reflexivity|].
  rewrite rank_map_ranks by (cbn; lia).
  reflexivity.
Qed.

Lemma comm_exec_unmatched_id_keeps_stale_slot_witness :
  exists u',
    comm_exec x no_junk ex_mismatch = Done u' /\
    buf_beads (rank u' 0) 1%nat 0%nat = buf_beads (rank ex_mismatch 0) 1%nat 0%nat.
Proof.
  apply (comm_exec_unmatched_id_keeps_stale_slot x no_junk ex_mismatch
           0 1 0 7%Z).
  - apply le_n.
  - reflexivity.
  - apply le_S, le_n.
  - discriminate.
  - reflexivity.
  - intros q index Hq. unfold iworld in Hq. cbn [ncomms ex_mismatch] in Hq.
    rewrite Nat.div_1_r in Hq. subst q. discriminate.
Defined.

End ExchangeExamples.

(** ** Energy and enthalpy *)

Section Enthalpy.
Import Config Setup Estimators Example.

(** C9: with the piston kinetic energy and the volume term taken as the
    claim writes them, the enthalpy differs from the one the code computes:
    here ([nktv2p = 2], one replica, unit box) the code yields 2 and the
    claimed formula 2.5. *)
Lemma totenthalpy_counterexample :
  snd (end_of_step ex_cfg_npt ex_units ex_consts_npt 0 0 0 1 1 1 1 1 0)
  <> claimed_totenthalpy ex_cfg_npt ex_consts_npt
       (fst (end_of_step ex_cfg_npt ex_units ex_consts_npt 0 0 0 1 1 1 1 1 0))
       1 (1 * 1 * 1) 1.
Proof.
  unfold end_of_step, compute_totenthalpy, claimed_totenthalpy, compute_tote,
    piston_ke.
  cbn. replace (1 * 1 * 1) with 1 by ring. rewrite ln_1. lra.
Qed.

(** C9 (amended): the total energy is kinetic + potential + spring energy;
    when a barostat is active the enthalpy adds to it the piston kinetic
    energy divided by the number of replicas (three times that for MTTK)
    and, for MTTK, [Pext (V - V0)], for BZP, [Pext V / nktv2p] minus
    [Vcoeff kB T log V]; with no barostat the member keeps its value. *)
Theorem total_energy_and_enthalpy (c : config) (un : units) (k : consts)
    (totke pote total_spring_energy vw xprd yprd zprd vol0 old : R) :
  let V := xprd * yprd * zprd in
  let r := end_of_step c un k totke pote total_spring_energy
             vw xprd yprd zprd vol0 old in
  fst r = totke + pote + total_spring_energy /\
  snd r =
  if pextflag c
  then match barostat c with
       | MTTK =>
           fst r + 3 * piston_ke k vw / INR (np k) + Pext c * (V - vol0)
       | BZP =>
           fst r + piston_ke k vw / INR (np k) + Pext c * V / nktv2p un
           - Vcoeff k * kBT k * ln V
       end
  else old.
Proof.
  intros V r. subst r. unfold end_of_step. cbn [fst snd].
  split; [reflexivity|].
  destruct (pextflag c); [|reflexivity].
  unfold compute_totenthalpy, piston_ke. fold V.
  destruct (barostat c); unfold Rdiv; generalize (/ INR (np k)); intros; nra.
Qed.

End Enthalpy.

(** ** Centre-of-mass removal *)

Section ComRemoval.
Import Config Schedule.

Variable atof : string -> R.
Variable atoi : string -> Z.
Variables (pilescale0 lambda_oob : R) (seed0 seed_oob : Z).

Local Abbreviation construct :=
  (constructor atof atoi pilescale0 lambda_oob seed0 seed_oob).

Local Open Scope string_scope.

Lemma schedule_calls_removal (c : config) :
  In Remove_com_motion (initial_integrate c ++ final_integrate c)
  <-> removecomflag c = true.
Proof.
  unfold initial_integrate, final_integrate, o_block, when.
  destruct (removecomflag c), (mapflag c), (integrator c), (thermostatted c),
    (pextflag c), (is_nmpimd c); cbn; intuition (try discriminate; try congruence).
Qed.

(** C7: the keyword value "yes" switches the removal off and "no" switches
    it on.  With [fixcom yes] the constructor clears [removecomflag] and no
    call of [remove_com_motion] is left in a timestep; with [fixcom no] the
    flag is set and the calls are made. *)
Theorem fixcom_yes_disables_removal :
  (exists c,
     construct ["1"; "all"; "dp_pimd"; "fixcom"; "yes"] = Done c /\
     removecomflag c = false /\
     ~ In Remove_com_motion (initial_integrate c ++ final_integrate c)) /\
  (exists c,
     construct ["1"; "all"; "dp_pimd"; "fixcom"; "no"] = Done c /\
     removecomflag c = true /\
     In Remove_com_motion (initial_integrate c ++ final_integrate c)).
Proof.
  split; eexists; (split; [reflexivity|]).
  - split; [reflexivity|]. rewrite schedule_calls_removal. discriminate.
  - split; [reflexivity|]. rewrite schedule_calls_removal. reflexivity.
Qed.

(** In the BAOAB branch of [initial_integrate] the force kick is not
    followed by the removal, whatever the flag. *)
Lemma baoab_first_kick_without_removal (c : config) :
  integrator c = baoab -> pextflag c = false -> mapflag c = false ->
  is_nmpimd c = false ->
  exists rest, initial_integrate c = B_step :: Qc_step :: rest.
Proof.
  intros Hi Hp Hm Hn. unfold initial_integrate.
  rewrite Hi, Hp, Hm, Hn. cbn. eexists. reflexivity.
Qed.

End ComRemoval.

Section ComRemovalEffect.
Import Universe.

(** [remove_com_motion] leaves the processes of the other replicas as they
    are: the subtraction is made on the centroid replica only. *)
Lemma remove_com_motion_centroid_only (groupbit : Z)
    (group_vcm : list proc -> vec3) (u : universe) (r : nat) :
  (r < nprocs u)%nat -> iworld u r <> 0%nat ->
  rank (remove_com_motion groupbit group_vcm u) r = rank u r.
Proof.
  intros Hr Hw. unfold remove_com_motion.
  rewrite rank_map_ranks by assumption.
  destruct (Nat.eqb_spec (iworld u r) 0); [contradiction|reflexivity].
Qed.

End ComRemovalEffect.

(** ** Instances on the concrete inputs *)

Section Instances.
Import Config Setup Step Universe Example.

Lemma ex_omega_k_1_positive : 0 < _omega_k ex_langevin 1%nat.
Proof. rewrite ex_omega_k_1. lra. Qed.

Lemma a_step_preserves_mode_energy_witness :
  mode_energy 1 (_omega_k ex_langevin 1%nat)
    (coord (x (a_step_atom ex_langevin 1 ex_atom)) 0)
    (coord (v (a_step_atom ex_langevin 1 ex_atom)) 0)
  = mode_energy 1 (_omega_k ex_langevin 1%nat)
      (coord (x ex_atom) 0) (coord (v ex_atom) 0).
Proof.
  apply (a_step_preserves_mode_energy ex_cfg ex_units ex_consts 1
           zeros zeros zeros zeros zeros zeros zeros
           1 [ex_atom] 0 0 ex_atom (a_step_atom ex_langevin 1 ex_atom) 1
           (le_n 2) (Nat.neq_succ_0 0) ex_omega_k_1_positive eq_refl eq_refl).
Defined.

Lemma o_step_pile_local_update_witness :
  exists a',
    nth_error
      (atoms (rank (o_step ex_cfg ex_units ex_consts ex_langevin zeros
                      (fun _ => 1) 1 ex_single) 0)) 0
    = Some a' /\
    forall d, (d < 3)%nat ->
      coord (v a') d
      = c1_k ex_langevin (iworld ex_single 0) * coord (v ex_atom) d
        + c2_k ex_langevin (iworld ex_single 0)
          * sqrt (1 / (mass_of ex_cfg zeros (fun _ => 1) (iworld ex_single 0)
                         (type ex_atom)
                       * (1 / boltz ex_units / Lan_temp ex_cfg
                          / INR (np ex_consts) * mvv2e ex_units)))
          * draws (random (rank ex_single 0))
              (pos (random (rank ex_single 0)) + 3 * 0 + d).
Proof.
  apply (proj1 (o_step_pile_local_update ex_cfg ex_units ex_consts 1
                  zeros zeros zeros zeros zeros zeros zeros (fun _ => 1) 1
                  ex_single 0 0 ex_atom eq_refl (le_n 1) eq_refl)).
Defined.

Lemma piston_velocity_single_writer_broadcast_witness :
  let u := ex_grid in
  let k := ex_consts_bzp in
  let p0 := rank u 0 in
  let V := xprd p0 * yprd p0 * zprd p0 in
  let half := 0.5 * 2 in
  let force_term (a : atom) (j : nat) :=
    half * half * coord (f a) j * coord (v a) j / W k
    + 1 / 3 * (half * half) * half * ftm2v ex_units
      * coord (f a) j * coord (f a) j / 1 / W k in
  let centroid_force_term :=
    Rsum (fun q =>
            if Nat.eqb (iworld u q) 0
            then fold_right
                   (fun a s =>
                      force_term a 0%nat + force_term a 1%nat
                      + force_term a 2%nat + s)
                   0 (atoms (rank u q))
            else 0)
         (nprocs u) in
  vw (rank (press_v_step ex_cfg_npt ex_units k zeros (fun _ => 1) 2 u) 3)
  = vw p0
    + half * (3 * (V * INR 2 * (p_cv p0 - Pext ex_cfg_npt)) / nktv2p ex_units
              + 3 * Vcoeff k / beta_np k) / W k
    + centroid_force_term.
Proof.
  apply (proj1 (piston_velocity_single_writer_broadcast ex_cfg_npt ex_units
                  ex_consts_bzp ex_langevin zeros (fun _ => 1) 2 2 1 2 0 0
                  ex_grid eq_refl eq_refl (Nat.lt_0_succ 3)) 3%nat (le_n 4)).
Defined.

End Instances.

(** * Further properties of the code *)

(** ** The constructor: what an accepted command guarantees *)

Section ConstructorFacts.
Import Config Props.

Variable atof : string -> R.
Variable atoi : string -> Z.
Variables (pilescale0 lambda_oob : R) (seed0 seed_oob : Z).

Local Abbreviation keyword' := (keyword atof atoi lambda_oob seed_oob).
Local Abbreviation keyword_loop' := (keyword_loop atof atoi lambda_oob seed_oob).
Local Abbreviation defaults' := (defaults pilescale0 seed0).

Lemma Rltb_false (a b : R) : Rltb a b = false -> b <= a.
Proof. unfold Rltb. destruct (Rlt_dec a b); [discriminate|lra]. Qed.

Lemma Rleb_false (a b : R) : Rleb a b = false -> b < a.
Proof. unfold Rleb. destruct (Rle_dec a b); [discriminate|lra]. Qed.

Lemma validated_defaults : validated defaults'.
Proof.
  unfold validated, defaults. cbn.
  repeat split; try lra; intros [H|H]; discriminate.
Qed.

Ltac keep_checks :=
  repeat match goal with
  | H : (_ || _)%bool = false |- _ => apply orb_false_elim in H; destruct H
  | H : Rltb _ _ = false |- _ => apply Rltb_false in H
  | H : Rleb _ _ = false |- _ => apply Rleb_false in H
  end.

Lemma keyword_validated (c : config) (k v : string) (next : option string)
    (c' : config) (e : bool) :
  validated c -> keyword' c k v next = Done (c', e) -> validated c'.
Proof.
  intros Hv H. unfold keyword in H.
  repeat match type of H with
  | context [if String.eqb ?a ?b then _ else _] => destruct (String.eqb a b)
  | context [if ?b then _ else _] => destruct b eqn:?
  end;
  try discriminate; injection H as <- <-;
  keep_checks; destruct c; unfold validated in *; cbn in *;
  repeat split; try tauto; try lra;
  try (intros [?|?]; discriminate).
Qed.

Lemma keyword_loop_validated (rest : list string) :
  forall c c', validated c -> keyword_loop' rest c = Done c' -> validated c'.
Proof.
  assert (H : forall n rest, (List.length rest <= n)%nat ->
            forall c c', validated c -> keyword_loop' rest c = Done c' ->
                         validated c').
  { induction n as [|n IH]; intros l Hn c c' Hv H.
    - destruct l; [|cbn in Hn; lia]. injection H as <-. exact Hv.
    - destruct l as [|k [|v rest2]]; cbn in H; try (injection H as <-; exact Hv).
      destruct (keyword' c k v (hd_error rest2)) as [[c1 e]|msg] eqn:Hk;
        [|discriminate].
      assert (Hv1 := keyword_validated _ _ _ _ _ _ Hv Hk).
      cbn in Hn. destruct e.
      + destruct rest2 as [|s rest3]; [injection H as <-; exact Hv1|].
        apply (IH rest3) with (c := c1); [cbn in Hn; lia|exact Hv1|exact H].
      + apply (IH rest2) with (c := c1); [lia|exact Hv1|exact H]. }
  apply (H (List.length rest)). apply le_n.
Qed.

(** X2: the check that follows the keyword [sp] tests [fmass], which is
    never negative, so every value of [sp], negative ones included, is
    accepted in every state the keyword loop reaches. *)
Theorem sp_keyword_accepts_every_value (pre : list string) (c : config)
    (v : string) (next : option string) :
  keyword_loop' pre defaults' = Done c ->
  keyword' c "sp" v next = Done (set_sp c (atof v), false).
Proof.
  intros Hl.
  assert (Hv := keyword_loop_validated _ _ _ validated_defaults Hl).
  unfold keyword. cbn [String.eqb Ascii.eqb Bool.eqb andb].
  destruct Hv as ((Hf & _) & _).
  assert (Hs : fmass (set_sp c (atof v)) = fmass c) by (destruct c; reflexivity).
  rewrite Hs. unfold Rltb. destruct (Rlt_dec (fmass c) 0); [lra|reflexivity].
Qed.

End ConstructorFacts.

(** ** The constructor over doubles: what the range checks let through *)

Section ConstructorDoubles.
Import Ieee Props.

Variable atof : string -> double.
Variable atoi : string -> Z.
Variables (pilescale0 lambda_oob : double) (seed0 seed_oob : Z).

Lemma ltb_false_at_least (x : double) (lo : R) :
  ltb x (Fin lo) = false -> x = NaN \/ at_least lo x.
Proof.
  destruct x as [r| | |]; cbn; intros H; try discriminate; auto.
  right. unfold Config.Rltb in H. destruct (Rlt_dec r lo); [discriminate|lra].
Qed.

Lemma leb_false_above (x : double) (lo : R) :
  leb x (Fin lo) = false -> x = NaN \/ above lo x.
Proof.
  destruct x as [r| | |]; cbn; intros H; try discriminate; auto.
  right. unfold Config.Rleb in H. destruct (Rle_dec r lo); [discriminate|lra].
Qed.

Lemma ltb_false_at_most (x : double) (hi : R) :
  ltb (Fin hi) x = false -> x = NaN \/ at_most hi x.
Proof.
  destruct x as [r| | |]; cbn; intros H; try discriminate; auto.
  right. unfold Config.Rltb in H. destruct (Rlt_dec hi r); [discriminate|lra].
Qed.

Lemma in_range_defaults : in_range_or_nan (defaults pilescale0 seed0).
Proof.
  unfold in_range_or_nan, defaults. cbn.
  repeat split; try (right; cbn; repeat split; lra);
    intros [H|H]; discriminate.
Qed.

Lemma fmass_two_checks (x : double) :
  ltb x (Fin 0) || ltb (Fin 1) x = false ->
  x = NaN \/ at_least 0 x /\ at_most 1 x.
Proof.
  intros H. apply orb_false_elim in H. destruct H as (H0 & H1).
  destruct (ltb_false_at_least _ _ H0) as [?|H0']; [left; assumption|].
  destruct (ltb_false_at_most _ _ H1) as [?|H1']; [left; assumption|].
  right. split; assumption.
Qed.

Lemma keyword_in_range (c : config) (k v : string) (next : option string)
    (c' : config) (e : bool) :
  in_range_or_nan c ->
  keyword atof atoi lambda_oob seed_oob c k v next = Done (c', e) ->
  in_range_or_nan c'.
Proof.
  intros Hv H. unfold keyword in H.
  repeat match type of H with
  | context [if String.eqb ?a ?b then _ else _] => destruct (String.eqb a b)
  | context [if ?b then _ else _] => destruct b eqn:?
  end;
  try discriminate; injection H as <- <-;
  repeat match goal with
  | H : (_ || _)%bool = false |- _ => apply fmass_two_checks in H
  | H : ltb _ (Fin _) = false |- _ => apply ltb_false_at_least in H
  | H : leb _ (Fin _) = false |- _ => apply leb_false_above in H
  end;
  destruct c; unfold in_range_or_nan in *; cbn in *;
  repeat split; try tauto; try (intros [?|?]; discriminate).
Qed.

Lemma keyword_loop_in_range (rest : list string) :
  forall c c',
    in_range_or_nan c ->
    keyword_loop atof atoi lambda_oob seed_oob rest c = Done c' ->
    in_range_or_nan c'.
Proof.
  assert (H : forall n rest0, (List.length rest0 <= n)%nat ->
            forall c c', in_range_or_nan c ->
              keyword_loop atof atoi lambda_oob seed_oob rest0 c = Done c' ->
              in_range_or_nan c').
  { induction n as [|n IH]; intros l Hn c c' Hv H.
    - destruct l; [|cbn in Hn; lia]. injection H as <-. exact Hv.
    - destruct l as [|k [|v rest2]]; cbn in H; try (injection H as <-; exact Hv).
      destruct (keyword atof atoi lambda_oob seed_oob c k v (hd_error rest2))
        as [[c1 e]|msg] eqn:Hk; [|discriminate].
      assert (Hv1 := keyword_in_range _ _ _ _ _ _ Hv Hk).
      cbn in Hn. destruct e.
      + destruct rest2 as [|s rest3]; [injection H as <-; exact Hv1|].
        apply (IH rest3) with (c := c1); [cbn in Hn; lia|exact Hv1|exact H].
      + apply (IH rest2) with (c := c1); [lia|exact Hv1|exact H]. }
  apply (H (List.length rest)). apply le_n.
Qed.

(** X1: read over IEEE doubles, a command the constructor accepts yields
    members that are in range or NaN, and no more than that: the mass
    scale is NaN or lies in [0, 1], temperature, pressure and model
    frequency are NaN or non-negative, the barostat time is NaN or
    positive; the thermostat temperature is a copy of [temp], and an
    ensemble with a barostat has [pextflag] set. *)
Theorem constructor_accepts_in_range_or_nan (arg : list string) (c : config) :
  constructor atof atoi pilescale0 lambda_oob seed0 seed_oob arg = Done c ->
  (fmass c = NaN \/ at_least 0 (fmass c) /\ at_most 1 (fmass c)) /\
  (temp c = NaN \/ at_least 0 (temp c)) /\
  Lan_temp c = temp c /\
  (Pext c = NaN \/ at_least 0 (Pext c)) /\
  (tau_p c = NaN \/ above 0 (tau_p c)) /\
  (omega c = NaN \/ at_least 0 (omega c)) /\
  (ensemble c = nph \/ ensemble c = npt -> pextflag c = true).
Proof.
  unfold constructor, bind.
  destruct (keyword_loop atof atoi lambda_oob seed_oob (skipn 3 arg)
              (defaults pilescale0 seed0)) as [c0|msg] eqn:Hl; [|discriminate].
  intros H. injection H as <-.
  assert (Hv := keyword_loop_in_range _ _ _ in_range_defaults Hl).
  destruct c0; unfold in_range_or_nan in *; cbn in *.
  repeat split; tauto.
Qed.

(** X29: a NaN passes every range check of the constructor: in any state
    of the keyword loop, each of the keywords [fmass], [scale], [temp],
    [press], [taup] and [model] with a value that [atof] reads as NaN is
    accepted and stores the NaN in its member; so the command that
    consists of that keyword alone constructs a fix with the NaN. *)
Theorem nan_passes_every_range_check
    (key s : string) (next : option string) (c : config)
    (id group style : string) :
  In key ["fmass"; "scale"; "temp"; "press"; "taup"; "model"]%string ->
  atof s = NaN ->
  (exists c',
     keyword atof atoi lambda_oob seed_oob c key s next = Done (c', false) /\
     checked_member key c' = Some NaN) /\
  (exists c',
     constructor atof atoi pilescale0 lambda_oob seed0 seed_oob
       [id; group; style; key; s] = Done c' /\
     checked_member key c' = Some NaN).
Proof.
  intros Hin Hs.
  assert (Hbody : forall c0 nx,
            exists c',
              keyword atof atoi lambda_oob seed_oob c0 key s nx
              = Done (c', false) /\
              checked_member key c' = Some NaN).
  { intros c0 nx. cbn [In] in Hin.
    destruct Hin as [<-|[<-|[<-|[<-|[<-|[<-|[]]]]]]];
      unfold keyword, checked_member;
      cbn [String.eqb Ascii.eqb Bool.eqb andb]; rewrite Hs;
      destruct c0; cbn; eexists; split; reflexivity. }
  split; [apply Hbody|].
  unfold constructor, bind. cbn [skipn keyword_loop hd_error].
  destruct (Hbody (defaults pilescale0 seed0) None) as (c' & Hk & Hm).
  rewrite Hk. eexists. split; [reflexivity|].
  revert Hm. unfold checked_member.
  repeat match goal with
  | |- context [if String.eqb ?a ?b then _ else _] => destruct (String.eqb a b)
  end; destruct c'; cbn; auto.
Qed.

End ConstructorDoubles.

Section FiniteArguments.
Import Props.

Variable atof : string -> R.
Variable atoi : string -> Z.
Variables (pilescale0 lambda_oob : R) (seed0 seed_oob : Z).

Local Abbreviation fin := (fun s => Ieee.Fin (atof s)).

Lemma keyword_on_finite_arguments (c : Config.config) (k v : string)
    (next : option string) :
  Ieee.keyword fin atoi (Ieee.Fin lambda_oob) seed_oob (Ieee.of_real c) k v next
  = match Config.keyword atof atoi lambda_oob seed_oob c k v next with
    | Done (c', e) => Done (Ieee.of_real c', e)
    | Abort msg => Abort msg
    end.
Proof.
  unfold Ieee.keyword, Config.keyword.
  repeat match goal with
  | |- context [if String.eqb ?a ?b then _ else _] => destruct (String.eqb a b)
  end;
  destruct c, next; cbn;
  repeat match goal with
  | |- context [Config.Rltb ?a ?b] => destruct (Config.Rltb a b)
  | |- context [Config.Rleb ?a ?b] => destruct (Config.Rleb a b)
  end; reflexivity.
Qed.

Lemma keyword_loop_on_finite_arguments (rest : list string) :
  forall c,
    Ieee.keyword_loop fin atoi (Ieee.Fin lambda_oob) seed_oob rest
      (Ieee.of_real c)
    = read_as_doubles (Config.keyword_loop atof atoi lambda_oob seed_oob rest c).
Proof.
  assert (H : forall n rest0, (List.length rest0 <= n)%nat ->
            forall c,
              Ieee.keyword_loop fin atoi (Ieee.Fin lambda_oob) seed_oob rest0
                (Ieee.of_real c)
              = read_as_doubles
                  (Config.keyword_loop atof atoi lambda_oob seed_oob rest0 c)).
  { induction n as [|n IH]; intros l Hn c.
    - destruct l; [reflexivity|cbn in Hn; lia].
    - destruct l as [|k [|v rest2]]; try reflexivity.
      cbn [Ieee.keyword_loop Config.keyword_loop].
      rewrite keyword_on_finite_arguments.
      destruct (Config.keyword atof atoi lambda_oob seed_oob c k v
                  (hd_error rest2)) as [[c1 e]|msg]; [|reflexivity].
      cbn in Hn. destruct e.
      + destruct rest2 as [|s rest3]; [reflexivity|].
        apply IH. cbn in Hn. lia.
      + apply IH. lia. }
  intros c. apply (H (List.length rest)). apply le_n.
Qed.

(** On arguments that [atof] reads as real numbers the constructor over
    doubles is the constructor over reals: the same commands are accepted,
    with the same members, and the same commands abort, with the same
    message. *)
Lemma constructor_on_finite_arguments (arg : list string) :
  Ieee.constructor fin atoi (Ieee.Fin pilescale0) (Ieee.Fin lambda_oob)
    seed0 seed_oob arg
  = read_as_doubles
      (Config.constructor atof atoi pilescale0 lambda_oob seed0 seed_oob arg).
Proof.
  unfold Ieee.constructor, Config.constructor, bind.
  change (Ieee.defaults (Ieee.Fin pilescale0) seed0)
    with (Ieee.of_real (Config.defaults pilescale0 seed0)).
  rewrite keyword_loop_on_finite_arguments.
  destruct (Config.keyword_loop atof atoi lambda_oob seed_oob (skipn 3 arg)
              (Config.defaults pilescale0 seed0)) as [c|msg]; [|reflexivity].
  destruct c; reflexivity.
Qed.

End FiniteArguments.

(** ** The order of the sub-steps *)

Section SplittingOrder.
Import Config Schedule Props.

(** X3: in every configuration the propagators of one time step run
    in the order the integrator is named after: O B A A B O for [obabo] and
    B A O A B for [baoab], each A preceded by the centroid drift [qc_step],
    the O steps present exactly when the ensemble is thermostatted. *)
Theorem timestep_runs_the_named_splitting (c : config) :
  filter is_propagator (timestep c) =
  match integrator c with
  | obabo =>
      when (thermostatted c) [O_step]
      ++ [B_step; Qc_step; A_step; Qc_step; A_step; B_step]
      ++ when (thermostatted c) [O_step]
  | baoab =>
      [B_step; Qc_step; A_step]
      ++ when (thermostatted c) [O_step]
      ++ [Qc_step; A_step; B_step]
  end.
Proof.
  unfold timestep, initial_integrate, final_integrate, o_block, thermostatted,
    is_nmpimd.
  destruct c as [me fm ig th ba en ? ? ? ? ? ? ? ? ? ? ? ? pf mf rf ? ?].
  cbn [integrator ensemble method pextflag mapflag removecomflag].
  destruct ig, en, me, pf, mf, rf; reflexivity.
Qed.

(** X4: positions are advanced, and the spring energy is evaluated,
    between the forward and the inverse normal-mode transform; with a method
    other than [nmpimd] the same calls are made with no transform at all. *)
Theorem positions_advance_between_the_transforms (c : config) :
  filter is_position_call (initial_integrate c) =
  when (is_nmpimd c) [Transform_x2xp]
  ++ [Qc_step; A_step; Qc_step; A_step; Compute_spring_energy]
  ++ when (is_nmpimd c) [Transform_xp2x].
Proof.
  unfold initial_integrate, o_block, thermostatted, is_nmpimd.
  destruct c as [me fm ig th ba en ? ? ? ? ? ? ? ? ? ? ? ? pf mf rf ? ?].
  cbn [integrator ensemble method pextflag mapflag removecomflag].
  destruct ig, en, me, pf, mf, rf; reflexivity.
Qed.

End SplittingOrder.

(** ** The centroid drift under a barostat *)

Section QcStepBarostat.
Import Config Setup Step Universe.

Variable c : config.
Variable k : consts.
Variable L : langevin.

Lemma atoms_set_box (p : proc) (a b d : R) : atoms (set_box p a b d) = atoms p.
Proof. destruct p. reflexivity. Qed.

Lemma xprd_set_box (p : proc) (a b d : R) : xprd (set_box p a b d) = a.
Proof. destruct p. reflexivity. Qed.

Lemma yprd_set_box (p : proc) (a b d : R) : yprd (set_box p a b d) = b.
Proof. destruct p. reflexivity. Qed.

Lemma zprd_set_box (p : proc) (a b d : R) : zprd (set_box p a b d) = d.
Proof. destruct p. reflexivity. Qed.

Lemma qc_step_mttk_atoms (u : universe) (r : nat) :
  pextflag c = true -> barostat c = MTTK -> (r < nprocs u)%nat ->
  atoms (rank (qc_step c k u) r) = atoms (rank u r).
Proof.
  intros Hp Hb Hr. unfold qc_step. rewrite Hp, Hb. cbn [negb].
  unfold bcast_box.
  rewrite rank_map_ranks by (rewrite nprocs_map_ranks; exact Hr).
  rewrite atoms_set_box.
  rewrite rank_map_ranks by exact Hr.
  destruct (Nat.eqb (iworld u r) 0); reflexivity.
Qed.

(** X5: with the barostat [MTTK] active, the position update of
    [initial_integrate] ([qc_step], [a_step], [qc_step], [a_step]) leaves
    every atom of the centroid replica where it was: [qc_step] has no branch
    for this barostat and [a_step] skips replica 0. *)
Theorem mttk_centroid_is_never_moved (u : universe) (r : nat) :
  pextflag c = true -> barostat c = MTTK -> (r < nprocs u)%nat ->
  iworld u r = 0%nat ->
  atoms (rank (a_step L (qc_step c k (a_step L (qc_step c k u)))) r)
  = atoms (rank u r).
Proof.
  intros Hp Hb Hr Hw.
  assert (Hn1 : nprocs (qc_step c k u) = nprocs u).
  { unfold qc_step. rewrite Hp. cbn [negb]. unfold bcast_box.
    rewrite !nprocs_map_ranks. reflexivity. }
  assert (Hstep : forall u0, (r < nprocs u0)%nat -> iworld u0 r = 0%nat ->
            atoms (rank (a_step L (qc_step c k u0)) r) = atoms (rank u0 r)
            /\ nprocs (a_step L (qc_step c k u0)) = nprocs u0
            /\ iworld (a_step L (qc_step c k u0)) r = 0%nat).
  { intros u0 Hr0 Hw0.
    assert (Hn : nprocs (qc_step c k u0) = nprocs u0).
    { unfold qc_step. rewrite Hp. cbn [negb]. unfold bcast_box.
      rewrite !nprocs_map_ranks. reflexivity. }
    assert (Hi : iworld (qc_step c k u0) r = 0%nat).
    { unfold qc_step. rewrite Hp. cbn [negb]. exact Hw0. }
    unfold a_step. split; [|split].
    - rewrite rank_map_ranks by (rewrite Hn; exact Hr0).
      rewrite atoms_set_atoms. rewrite Hi. cbn.
      apply qc_step_mttk_atoms; assumption.
    - rewrite nprocs_map_ranks. exact Hn.
    - exact Hi. }
  destruct (Hstep u Hr Hw) as (H1 & H2 & H3).
  destruct (Hstep (a_step L (qc_step c k u))) as (H4 & _ & _);
    [rewrite H2; exact Hr|exact H3|].
  rewrite H4. exact H1.
Qed.

(** X6: with the barostat [BZP] active, [qc_step] leaves on every process
    the box of universe rank 0 stretched by [exp (dtv * vw)] along each
    axis, so the volume is multiplied by [exp (3 * dtv * vw)]. *)
Theorem qc_step_bzp_rescales_the_box (u : universe) (r : nat) :
  pextflag c = true -> barostat c = BZP -> (r < nprocs u)%nat ->
  let s := exp (dtv k * vw (rank u 0)) in
  let p' := rank (qc_step c k u) r in
  xprd p' = xprd (rank u 0) * s /\
  yprd p' = yprd (rank u 0) * s /\
  zprd p' = zprd (rank u 0) * s /\
  xprd p' * yprd p' * zprd p'
  = xprd (rank u 0) * yprd (rank u 0) * zprd (rank u 0)
    * exp (3 * dtv k * vw (rank u 0)).
Proof.
  intros Hp Hb Hr s p'.
  assert (H0 : (0 < nprocs u)%nat) by lia.
  assert (Hbox : xprd p' = xprd (rank u 0) * s /\
                 yprd p' = yprd (rank u 0) * s /\
                 zprd p' = zprd (rank u 0) * s).
  { subst p'. unfold qc_step. rewrite Hp, Hb. cbn [negb]. unfold bcast_box.
    rewrite rank_map_ranks by (rewrite nprocs_map_ranks; exact Hr).
    rewrite (rank_map_ranks _ u 0 H0). rewrite iworld_rank0. cbn [Nat.eqb].
    rewrite !xprd_set_box, !yprd_set_box, !zprd_set_box. repeat split. }
  destruct Hbox as (Hx & Hy & Hz).
  repeat split; try assumption.
  rewrite Hx, Hy, Hz.
  replace (3 * dtv k * vw (rank u 0))
    with (dtv k * vw (rank u 0) + (dtv k * vw (rank u 0) + dtv k * vw (rank u 0)))
    by ring.
  rewrite !exp_plus. fold s. ring.
Qed.

End QcStepBarostat.

(** ** The force kick *)

Section Kick.
Import Config Setup Step Props.

(** X7: [b_step] changes each component of the momentum of the atoms of
    a process by [dtf] times the total force on them, whatever the masses;
    with a vanishing total force the momentum is kept. *)
Theorem b_step_adds_the_impulse (k : consts) (mass : nat -> R)
    (l : list atom) (d : nat) :
  (forall a, In a l -> mass (type a) <> 0) ->
  momentum mass (b_step k mass l) d
  = momentum mass l d + dtf k * total_force l d.
Proof.
  induction l as [|a l IH]; intros Hm; cbn [b_step map momentum total_force fold_right].
  - ring.
  - fold (b_step k mass l). fold (momentum mass (b_step k mass l) d).
    fold (momentum mass l d). fold (total_force l d).
    rewrite IH by (intros a' Ha'; apply Hm; right; exact Ha').
    assert (Ha : mass (type a) <> 0) by (apply Hm; left; reflexivity).
    destruct a as [tg ty mk xa [[v0 v1] v2] [[f0 f1] f2]].
    cbn [v f type set_v tag mask x] in *.
    destruct d as [|[|d]]; cbn [coord]; field; exact Ha.
Qed.

End Kick.

(** ** The position update of one time step *)

Section PositionUpdate.
Import Config Setup Step Universe.

Variable c : config.
Variable un : units.
Variable k : consts.
Variable dt : R.
Variable lam : array.
Variables g1 g2 g3 g4 g5 g6 : array.

Local Abbreviation L := (Langevin_init c un k dt lam g1 g2 g3 g4 g5 g6).

Lemma qc_step_free_nprocs (u : universe) :
  pextflag c = false -> nprocs (qc_step c k u) = nprocs u.
Proof.
  intros Hp. unfold qc_step. rewrite Hp. cbn [negb]. apply nprocs_map_ranks.
Qed.

Lemma qc_step_free_other (u : universe) (r : nat) :
  pextflag c = false -> (r < nprocs u)%nat -> iworld u r <> 0%nat ->
  rank (qc_step c k u) r = rank u r.
Proof.
  intros Hp Hr Hw. unfold qc_step. rewrite Hp. cbn [negb].
  rewrite rank_map_ranks by assumption.
  destruct (Nat.eqb_spec (iworld u r) 0); [contradiction|reflexivity].
Qed.

Lemma a_step_rank (u : universe) (r : nat) :
  (r < nprocs u)%nat ->
  atoms (rank (a_step L u) r) = Step.a_step L (iworld u r) (atoms (rank u r)).
Proof.
  intros Hr. unfold a_step. rewrite rank_map_ranks by assumption.
  apply atoms_set_atoms.
Qed.

Lemma a_step_twice_atom (w : nat) (a : atom) (d : nat) :
  (w < np k)%nat -> _omega_k L w <> 0 ->
  let om := _omega_k L w in
  coord (x (a_step_atom L w (a_step_atom L w a))) d
  = cos (om * dt) * coord (x a) d + sin (om * dt) / om * coord (v a) d /\
  coord (v (a_step_atom L w (a_step_atom L w a))) d
  = - om * sin (om * dt) * coord (x a) d + cos (om * dt) * coord (v a) d.
Proof.
  intros Hw Hom om.
  destruct (a_step_atom_rotation c un k dt lam g1 g2 g3 g4 g5 g6 w
              (a_step_atom L w a) d Hw) as (Hx2 & Hv2).
  destruct (a_step_atom_rotation c un k dt lam g1 g2 g3 g4 g5 g6 w a d Hw)
    as (Hx1 & Hv1).
  cbv zeta in Hx1, Hv1, Hx2, Hv2. fold om in Hx1, Hv1, Hx2, Hv2.
  rewrite Hx2, Hv2, Hx1, Hv1.
  set (th := om * dt / 2).
  replace (om * dt) with (2 * th) by (unfold th; field).
  rewrite cos_2a, sin_2a.
  set (s := sin th). set (cs := cos th).
  split; field; exact Hom.
Qed.

Lemma position_calls_are_consecutive :
  integrator c = obabo \/ Schedule.thermostatted c = false ->
  exists pre post,
    Schedule.initial_integrate c
    = pre ++ [Schedule.Qc_step; Schedule.A_step;
              Schedule.Qc_step; Schedule.A_step] ++ post.
Proof.
  intros Hs.
  set (post := [Schedule.Compute_spring_energy]
               ++ Schedule.when (Schedule.is_nmpimd c)
                    [Schedule.Nmpimd_fill; Schedule.Comm_exec;
                     Schedule.Transform_xp2x]
               ++ Schedule.when (mapflag c) [Schedule.Unmap_inv]).
  unfold Schedule.initial_integrate. fold post.
  destruct (integrator c) eqn:Hi.
  - (* baoab *)
    destruct Hs as [Hs|Hs]; [discriminate|].
    unfold Schedule.o_block. rewrite Hs. cbn [Schedule.when].
    exists (Schedule.when (mapflag c) [Schedule.Unmap]
            ++ Schedule.when (pextflag c) [Schedule.Press_v_step]
            ++ [Schedule.B_step]
            ++ Schedule.when (Schedule.is_nmpimd c)
                 [Schedule.Nmpimd_fill; Schedule.Comm_exec;
                  Schedule.Transform_x2xp]), post.
    rewrite <- !app_assoc. reflexivity.
  - (* obabo *)
    exists (Schedule.when (mapflag c) [Schedule.Unmap]
            ++ Schedule.o_block c
            ++ [Schedule.Compute_totke; Schedule.Compute_p_cv]
            ++ Schedule.when (pextflag c) [Schedule.Press_v_step]
            ++ [Schedule.B_step]
            ++ Schedule.when (removecomflag c) [Schedule.Remove_com_motion]
            ++ Schedule.when (Schedule.is_nmpimd c)
                 [Schedule.Nmpimd_fill; Schedule.Comm_exec;
                  Schedule.Transform_x2xp]), post.
    rewrite <- !app_assoc. reflexivity.
Qed.

(** X8: with no barostat, and with the integrator [obabo] or an ensemble
    without thermostat, the four position calls [qc_step], [a_step],
    [qc_step], [a_step] follow one another in [initial_integrate] with no
    call between them, and together they advance the centroid replica by
    the free drift [x + dt * v] over the whole timestep [dt], and rotate
    every coordinate of a non-centroid replica by the full angle
    [omega_k * dt].  ([baoab] with a thermostat runs [o_step] between the
    two pairs; the statement does not cover it.) *)
Theorem position_update_over_a_timestep
    (nworlds natoms map_style : nat) (W0 V0 : R)
    (u : universe) (r i d : nat) (a : atom) :
  init c un nworlds dt natoms map_style W0 V0 = Done k ->
  pextflag c = false ->
  integrator c = obabo \/ Schedule.thermostatted c = false ->
  (r < nprocs u)%nat ->
  nth_error (atoms (rank u r)) i = Some a ->
  (exists pre post,
     Schedule.initial_integrate c
     = pre ++ [Schedule.Qc_step; Schedule.A_step;
               Schedule.Qc_step; Schedule.A_step] ++ post) /\
  exists a',
    nth_error
      (atoms (rank (a_step L (qc_step c k (a_step L (qc_step c k u)))) r)) i
    = Some a' /\
    (iworld u r = 0%nat ->
     coord (x a') d = coord (x a) d + dt * coord (v a) d /\ v a' = v a) /\
    (iworld u r <> 0%nat -> (iworld u r < np k)%nat ->
     _omega_k L (iworld u r) <> 0 ->
     let om := _omega_k L (iworld u r) in
     coord (x a') d
     = cos (om * dt) * coord (x a) d + sin (om * dt) / om * coord (v a) d /\
     coord (v a') d
     = - om * sin (om * dt) * coord (x a) d + cos (om * dt) * coord (v a) d).
Proof.
  intros Hinit Hp Hsched Hr Ha.
  split; [exact (position_calls_are_consecutive Hsched)|].
  destruct (init_dtv _ _ _ _ _ _ _ _ _ Hinit) as (Hdtv & _).
  set (u1 := qc_step c k u). set (u2 := a_step L u1).
  set (u3 := qc_step c k u2).
  assert (Hn1 : nprocs u1 = nprocs u) by (apply qc_step_free_nprocs; exact Hp).
  assert (Hn2 : nprocs u2 = nprocs u)
    by (unfold u2, a_step; rewrite nprocs_map_ranks; exact Hn1).
  assert (Hn3 : nprocs u3 = nprocs u)
    by (unfold u3; rewrite qc_step_free_nprocs by exact Hp; exact Hn2).
  assert (Hi1 : iworld u1 r = iworld u r)
    by (unfold u1, qc_step; rewrite Hp; reflexivity).
  assert (Hi2 : iworld u2 r = iworld u r) by exact Hi1.
  assert (Hi3 : iworld u3 r = iworld u r)
    by (unfold u3, qc_step; rewrite Hp; exact Hi2).
  destruct (Nat.eq_dec (iworld u r) 0) as [Hw|Hw].
  - (* the centroid replica *)
    destruct (qc_step_centroid_drift c k u r i d a Hp Hr Hw Ha)
      as (a1 & Ha1 & Hx1 & Hv1).
    fold u1 in Ha1.
    assert (Ha2 : nth_error (atoms (rank u2 r)) i = Some a1).
    { unfold u2. rewrite a_step_rank by (rewrite Hn1; exact Hr).
      rewrite Hi1, Hw. exact Ha1. }
    destruct (qc_step_centroid_drift c k u2 r i d a1 Hp
                ltac:(rewrite Hn2; exact Hr) ltac:(rewrite Hi2; exact Hw) Ha2)
      as (a3 & Ha3 & Hx3 & Hv3).
    fold u3 in Ha3.
    exists a3. split; [|split].
    + rewrite a_step_rank by (rewrite Hn3; exact Hr).
      rewrite Hi3, Hw. exact Ha3.
    + intros _. split.
      * rewrite Hx3, Hx1, Hv1, Hdtv. lra.
      * rewrite Hv3. exact Hv1.
    + intros Hne. contradiction.
  - (* a non-centroid replica *)
    exists (a_step_atom L (iworld u r) (a_step_atom L (iworld u r) a)).
    split; [|split].
    + rewrite a_step_rank by (rewrite Hn3; exact Hr).
      rewrite Hi3. unfold u3.
      rewrite qc_step_free_other
        by (try exact Hp; try (rewrite Hn2; exact Hr); rewrite Hi2; exact Hw).
      unfold u2. rewrite a_step_rank by (rewrite Hn1; exact Hr).
      rewrite Hi1. unfold u1.
      rewrite qc_step_free_other by assumption.
      unfold Step.a_step.
      destruct (Nat.eqb_spec (iworld u r) 0) as [|_]; [contradiction|].
      cbn [negb]. rewrite !nth_error_map, Ha. reflexivity.
    + intros H0. contradiction.
    + intros _ Hlt Hom. apply a_step_twice_atom; assumption.
Qed.

End PositionUpdate.

(** ** The normal-mode tables and the ring of beads *)

Section RingSpectrum.
Import NormalMode Aux Props.

Variable P : nat.
Hypothesis HP : (0 < P)%nat.

Lemma ang_add (k a b : nat) : ang P k (a + b) = ang P k a + ang P k b.
Proof.
  pose proof (INR_pos P HP) as HPr.
  unfold ang. rewrite plus_INR. field. lra.
Qed.

Lemma ang_full_turn (k : nat) : ang P k P = 2 * INR k * PI.
Proof.
  pose proof (INR_pos P HP) as HPr.
  unfold ang. field. lra.
Qed.

Lemma ang_mod (k n : nat) :
  ang P k n = ang P k (Nat.modulo n P) + 2 * INR (k * Nat.div n P) * PI.
Proof.
  pose proof (INR_pos P HP) as HPr.
  rewrite (Nat.div_mod_eq n P) at 1.
  unfold ang. rewrite plus_INR, !mult_INR. field. lra.
Qed.

Lemma cos_ang_mod (k n : nat) : cos (ang P k (Nat.modulo n P)) = cos (ang P k n).
Proof. rewrite (ang_mod k n). rewrite cos_period. reflexivity. Qed.

Lemma sin_ang_mod (k n : nat) : sin (ang P k (Nat.modulo n P)) = sin (ang P k n).
Proof. rewrite (ang_mod k n). rewrite sin_period. reflexivity. Qed.

Lemma cos_ang_next (k j : nat) :
  cos (ang P k (Nat.modulo (j + 1) P)) = cos (ang P k j + ang P k 1).
Proof. rewrite cos_ang_mod, ang_add. reflexivity. Qed.

Lemma sin_ang_next (k j : nat) :
  sin (ang P k (Nat.modulo (j + 1) P)) = sin (ang P k j + ang P k 1).
Proof. rewrite sin_ang_mod, ang_add. reflexivity. Qed.

Lemma ang_prev (k j : nat) :
  ang P k (j + P - 1) = ang P k j - ang P k 1 + 2 * INR k * PI.
Proof.
  replace (j + P - 1)%nat with (j + (P - 1))%nat by lia.
  rewrite ang_add.
  assert (H : ang P k (P - 1) + ang P k 1 = 2 * INR k * PI).
  { rewrite <- ang_add. replace (P - 1 + 1)%nat with P by lia.
    apply ang_full_turn. }
  lra.
Qed.

Lemma cos_ang_prev (k j : nat) :
  cos (ang P k (Nat.modulo (j + P - 1) P)) = cos (ang P k j - ang P k 1).
Proof. rewrite cos_ang_mod, ang_prev, cos_period. reflexivity. Qed.

Lemma sin_ang_prev (k j : nat) :
  sin (ang P k (Nat.modulo (j + P - 1) P)) = sin (ang P k j - ang P k 1).
Proof. rewrite sin_ang_mod, ang_prev, sin_period. reflexivity. Qed.

Lemma eigenvalue_as_cos (k : nat) :
  spec_eigenvalue P k = 2 - 2 * cos (ang P k 1).
Proof.
  pose proof (INR_pos P HP) as HPr.
  unfold spec_eigenvalue, ang.
  replace (2 * PI * INR k * INR 1 / INR P) with (2 * (INR k * PI / INR P))
    by (simpl; field; lra).
  rewrite cos_2a_sin. ring.
Qed.

(** Row [k] of the forward matrix is an eigenvector of the second difference
    around the ring. *)
Lemma spec_forward_eigen (k j : nat) :
  2 * spec_forward P k j
  - spec_forward P k (Nat.modulo (j + 1) P)
  - spec_forward P k (Nat.modulo (j + P - 1) P)
  = spec_eigenvalue P k * spec_forward P k j.
Proof.
  rewrite eigenvalue_as_cos.
  destruct (Nat.le_gt_cases (2 * k) P) as [Hk|Hk].
  - rewrite !(spec_forward_cos_kind P HP k) by exact Hk.
    rewrite cos_ang_next, cos_ang_prev, cos_plus, cos_minus. ring.
  - rewrite !(spec_forward_sin_kind P HP k) by exact Hk.
    rewrite sin_ang_next, sin_ang_prev, sin_plus, sin_minus. ring.
Qed.

(** Sums around the ring do not depend on where they start. *)
Lemma Rsum_next (g : nat -> R) :
  Rsum (fun j => g (Nat.modulo (j + 1) P)) P = Rsum g P.
Proof.
  assert (H : forall n, Rsum (fun j => g (Nat.modulo (j + 1) (S n))) (S n)
                        = Rsum g (S n)).
  { intros n. rewrite (Rsum_shift g n). cbn [Rsum].
    rewrite (Rsum_ext (fun j => g (Nat.modulo (j + 1) (S n)))
               (fun j => g (S j)) n).
    - replace (Nat.modulo (n + 1) (S n)) with 0%nat.
      + lra.
      + replace (n + 1)%nat with (S n) by lia.
        symmetry. apply Nat.Div0.mod_same.
    - intros j Hj. rewrite Nat.mod_small by lia. f_equal. lia. }
  destruct P as [|n]; [lia|]. apply H.
Qed.

Lemma prev_next (j : nat) :
  (j < P)%nat -> Nat.modulo (Nat.modulo (j + 1) P + P - 1) P = j.
Proof.
  intros Hj. destruct (Nat.eq_dec (j + 1) P) as [He|Hne].
  - rewrite He, Nat.Div0.mod_same. replace (0 + P - 1)%nat with j by lia.
    apply Nat.mod_small. exact Hj.
  - rewrite (Nat.mod_small (j + 1)) by lia.
    replace (j + 1 + P - 1)%nat with (j + 1 * P)%nat by lia.
    rewrite Nat.Div0.mod_add. apply Nat.mod_small. exact Hj.
Qed.

Lemma Rsum_ring_shift (a b : nat -> R) :
  Rsum (fun j => a j * b (Nat.modulo (j + 1) P)) P
  = Rsum (fun j => a (Nat.modulo (j + P - 1) P) * b j) P.
Proof.
  rewrite <- (Rsum_next (fun j => a (Nat.modulo (j + P - 1) P) * b j)).
  apply Rsum_ext. intros j Hj. cbv beta. rewrite prev_next by exact Hj.
  reflexivity.
Qed.

Lemma Rsum_prev (g : nat -> R) :
  Rsum (fun j => g (Nat.modulo (j + P - 1) P)) P = Rsum g P.
Proof.
  transitivity (Rsum (fun j => g (Nat.modulo (j + P - 1) P) * 1) P).
  { apply Rsum_ext. intros; ring. }
  rewrite <- (Rsum_ring_shift g (fun _ => 1)).
  apply Rsum_ext. intros; ring.
Qed.

Lemma Rsum_mult (fa fb : nat -> R) (n m : nat) :
  Rsum fa n * Rsum fb m = Rsum (fun j => Rsum (fun i => fa j * fb i) m) n.
Proof.
  induction n as [|n IH]; cbn [Rsum]; [ring|].
  rewrite Rmult_plus_distr_r, IH. rewrite Rsum_scal. reflexivity.
Qed.

(** The forward matrix keeps inner products. *)
Lemma forward_inner_product (a b : nat -> R) :
  Rsum (fun k => Rsum (fun j => a j * spec_forward P k j) P
                 * Rsum (fun i => b i * spec_forward P k i) P) P
  = Rsum (fun j => a j * b j) P.
Proof.
  transitivity
    (Rsum (fun k => Rsum (fun j => Rsum (fun i =>
       a j * b i * (spec_forward P k j * spec_forward P k i)) P) P) P).
  { apply Rsum_ext. intros k _. rewrite Rsum_mult.
    apply Rsum_ext. intros j _. apply Rsum_ext. intros i _. ring. }
  rewrite Rsum_swap.
  apply Rsum_ext. intros j Hj. cbv beta.
  rewrite Rsum_swap.
  transitivity (Rsum (fun i => if Nat.eqb i j then a j * b i else 0) P).
  - apply Rsum_ext. intros i Hi. cbv beta.
    rewrite Rsum_scal. rewrite (columns_orthonormal P HP j i Hj Hi).
    rewrite (Nat.eqb_sym j i). destruct (Nat.eqb i j); ring.
  - rewrite (Rsum_delta (fun i => a j * b i) j P Hj). reflexivity.
Qed.

Lemma ring_spring_as_product (xs : nat -> R) :
  ring_spring P xs
  = Rsum (fun j => (2 * xs j - xs (Nat.modulo (j + P - 1) P)
                    - xs (Nat.modulo (j + 1) P)) * xs j) P.
Proof.
  unfold ring_spring.
  assert (H1 : Rsum (fun j => xs (Nat.modulo (j + 1) P)
                              * xs (Nat.modulo (j + 1) P)) P
               = Rsum (fun j => xs j * xs j) P)
    by (apply (Rsum_next (fun j => xs j * xs j))).
  assert (H2 : Rsum (fun j => xs j * xs (Nat.modulo (j + 1) P)) P
               = Rsum (fun j => xs (Nat.modulo (j + P - 1) P) * xs j) P)
    by (apply Rsum_ring_shift).
  transitivity
    (Rsum (fun j => xs j * xs j) P
     + (Rsum (fun j => xs (Nat.modulo (j + 1) P) * xs (Nat.modulo (j + 1) P)) P
        + (-2) * Rsum (fun j => xs j * xs (Nat.modulo (j + 1) P)) P)).
  { rewrite <- Rsum_scal, <- !Rsum_plus. apply Rsum_ext. intros; ring. }
  rewrite H1.
  transitivity
    (2 * Rsum (fun j => xs j * xs j) P
     + ((-1) * Rsum (fun j => xs (Nat.modulo (j + P - 1) P) * xs j) P
        + (-1) * Rsum (fun j => xs j * xs (Nat.modulo (j + 1) P)) P)).
  { rewrite H2. ring. }
  rewrite <- !Rsum_scal, <- !Rsum_plus. apply Rsum_ext. intros; ring.
Qed.

Lemma mode_spring_spec (xs : nat -> R) :
  Rsum (fun k => spec_eigenvalue P k
                 * (Rsum (fun j => xs j * spec_forward P k j) P) ^ 2) P
  = ring_spring P xs.
Proof.
  rewrite ring_spring_as_product.
  rewrite <- (forward_inner_product
                (fun j => 2 * xs j - xs (Nat.modulo (j + P - 1) P)
                          - xs (Nat.modulo (j + 1) P)) xs).
  apply Rsum_ext. intros k Hk. cbv beta.
  replace ((Rsum (fun j => xs j * spec_forward P k j) P) ^ 2)
    with (Rsum (fun j => xs j * spec_forward P k j) P
          * Rsum (fun j => xs j * spec_forward P k j) P) by ring.
  rewrite <- Rmult_assoc. f_equal.
  rewrite <- Rsum_scal.
  transitivity
    (Rsum (fun j => xs j * (2 * spec_forward P k j
                            - spec_forward P k (Nat.modulo (j + 1) P)
                            - spec_forward P k (Nat.modulo (j + P - 1) P))) P).
  { apply Rsum_ext. intros j _. rewrite spec_forward_eigen. ring. }
  transitivity
    (2 * Rsum (fun j => xs j * spec_forward P k j) P
     + ((-1) * Rsum (fun j => xs j * spec_forward P k (Nat.modulo (j + 1) P)) P
        + (-1) * Rsum (fun j => spec_forward P k (Nat.modulo (j + P - 1) P)
                                * xs j) P)).
  { rewrite <- !Rsum_scal, <- !Rsum_plus. apply Rsum_ext. intros; ring. }
  rewrite Rsum_ring_shift.
  rewrite <- (Rsum_ring_shift (fun j => spec_forward P k j) xs).
  rewrite <- !Rsum_scal, <- !Rsum_plus. apply Rsum_ext. intros; ring.
Qed.

End RingSpectrum.

Section NormalModeSpectrum.
Import NormalMode Aux Props.

Variable P : nat.
Hypothesis HP : (0 < P)%nat.
Variable lam0 : array.
Variables A0 B0 : matrix.

Local Abbreviation T := (nmpimd_init P lam0 A0 B0).

(** X9: each row [k] of the matrix [M_x2xp] that [nmpimd_init] builds
    is an eigenvector of the spring coupling of the ring (twice an entry
    minus its two cyclic neighbours), with the eigenvalue [lam[k]] of the
    same routine. *)
Theorem nm_rows_are_ring_eigenvectors (k j : nat) :
  (k < P)%nat -> (j < P)%nat ->
  2 * M_x2xp (nmpimd_init P lam0 A0 B0) k j
  - M_x2xp (nmpimd_init P lam0 A0 B0) k (Nat.modulo (j + 1) P)
  - M_x2xp (nmpimd_init P lam0 A0 B0) k (Nat.modulo (j + P - 1) P)
  = lam (nmpimd_init P lam0 A0 B0) k * M_x2xp (nmpimd_init P lam0 A0 B0) k j.
Proof.
  intros Hk Hj.
  rewrite !M_x2xp_spec by (try lia; try apply Nat.mod_upper_bound; lia).
  rewrite lam_spec by exact Hk.
  apply spec_forward_eigen. exact HP.
Qed.

Lemma transform_as_Rsum (xs : nat -> R) (k : nat) :
  (k < P)%nat ->
  nmpimd_transform P xs (M_x2xp T k)
  = Rsum (fun j => xs j * spec_forward P k j) P.
Proof.
  intros Hk. unfold nmpimd_transform. rewrite accumulate_Rsum.
  apply Rsum_ext. intros j Hj. rewrite M_x2xp_spec by lia. reflexivity.
Qed.

(** X10: the forward transform keeps the sum of squares over the beads:
    what [nmpimd_transform] with the rows of [M_x2xp] yields on the [P]
    replicas has the same squared norm as the bead values it was given. *)
Theorem nm_transform_preserves_norm (xs : nat -> R) :
  Rsum (fun k =>
          (nmpimd_transform P xs (M_x2xp (nmpimd_init P lam0 A0 B0) k)) ^ 2) P
  = Rsum (fun j => (xs j) ^ 2) P.
Proof.
  transitivity (Rsum (fun j => xs j * xs j) P);
    [|apply Rsum_ext; intros; ring].
  rewrite <- (forward_inner_product P HP xs xs).
  apply Rsum_ext. intros k Hk. rewrite transform_as_Rsum by exact Hk. ring.
Qed.

(** X11: the sum over the replicas of [lam[k]] times the squared
    normal-mode coordinate, which is what [compute_spring_energy] adds up,
    equals the sum of the squared distances between neighbouring beads of
    the closed ring. *)
Theorem nm_spring_sum_is_ring_spring (xs : nat -> R) :
  mode_spring P (lam (nmpimd_init P lam0 A0 B0))
    (fun k => nmpimd_transform P xs (M_x2xp (nmpimd_init P lam0 A0 B0) k))
  = ring_spring P xs.
Proof.
  unfold mode_spring.
  rewrite <- (mode_spring_spec P HP xs).
  apply Rsum_ext. intros k Hk.
  rewrite lam_spec by exact Hk. rewrite transform_as_Rsum by exact Hk.
  reflexivity.
Qed.

(** X12: the eigenvalues lie between 0 and 4, the centroid eigenvalue is
    0, and modes [k] and [P - k] are degenerate. *)
Theorem nm_eigenvalues_are_paired_and_bounded (k : nat) :
  (k < P)%nat ->
  0 <= lam (nmpimd_init P lam0 A0 B0) k <= 4 /\
  lam (nmpimd_init P lam0 A0 B0) 0%nat = 0 /\
  ((0 < k)%nat ->
   lam (nmpimd_init P lam0 A0 B0) (P - k)%nat
   = lam (nmpimd_init P lam0 A0 B0) k).
Proof.
  intros Hk. pose proof (INR_pos P HP) as HPr.
  rewrite !lam_spec by lia. split; [|split].
  - unfold spec_eigenvalue.
    generalize (SIN_bound (INR k * PI / INR P)). intros [H1 H2]. nra.
  - apply spec_eigenvalue_0.
  - intros Hk0. rewrite lam_spec by lia. unfold spec_eigenvalue.
    rewrite minus_INR by lia.
    replace ((INR P - INR k) * PI / INR P) with (PI - INR k * PI / INR P)
      by (field; lra).
    rewrite sin_PI_x. reflexivity.
Qed.

End NormalModeSpectrum.

(** ** Estimators *)

Section EstimatorFacts.
Import Config Setup Step Universe Observables NormalMode.

(** X13: the normal-mode coordinate of replica 0 that
    [nmpimd_transform] forms with row 0 of [M_x2xp] is the bead average
    that [compute_xc] forms, times the square root of the number of beads. *)
Theorem centroid_mode_is_scaled_centroid (P : nat) (lam0 : array)
    (A0 B0 : matrix) (b : nat -> nat -> vec3) (i d : nat) :
  (0 < P)%nat ->
  nmpimd_transform P (fun j => coord (b j i) d)
    (M_x2xp (nmpimd_init P lam0 A0 B0) 0%nat)
  = sqrt (INR P) * coord (centroid P b i) d.
Proof.
  intros HP. pose proof (INR_pos P HP) as HPr.
  assert (Hs : 0 < sqrt (INR P)) by (apply sqrt_lt_R0; exact HPr).
  assert (Hss : sqrt (INR P) * sqrt (INR P) = INR P)
    by (apply sqrt_sqrt; lra).
  unfold nmpimd_transform. rewrite accumulate_Rsum.
  rewrite (Rsum_ext _ (fun j => 1 / sqrt (INR P) * coord (b j i) d)).
  2:{ intros j Hj. rewrite M_x2xp_spec by lia.
      unfold spec_forward. cbn [Nat.eqb]. ring. }
  rewrite Rsum_scal.
  assert (Hc : coord (centroid P b i) d
               = Rsum (fun j => coord (b j i) d) P / INR P).
  { unfold centroid. rewrite !accumulate_Rsum.
    destruct d as [|[|d]]; reflexivity. }
  rewrite Hc.
  set (tot := Rsum (fun j => coord (b j i) d) P).
  replace (tot / INR P) with (tot / (sqrt (INR P) * sqrt (INR P)))
    by (rewrite Hss; reflexivity).
  field. lra.
Qed.

End EstimatorFacts.

(** ** Sums over the atoms of a process and over the replicas *)

Section Sums.

Lemma fold_left_additive {A : Type} (step : R -> A -> R) (g : A -> R) :
  (forall acc a, step acc a = acc + g a) ->
  forall l acc,
    fold_left step l acc = acc + fold_right (fun a s => g a + s) 0 l.
Proof.
  intros Hs. induction l as [|a l IH]; intros acc; cbn [fold_left fold_right].
  - ring.
  - rewrite IH, Hs. ring.
Qed.

Lemma fold_right_map_sum {A B : Type} (h : A -> B) (g : B -> R) (l : list A) :
  fold_right (fun b s => g b + s) 0 (map h l)
  = fold_right (fun a s => g (h a) + s) 0 l.
Proof. induction l as [|a l IH]; cbn; [reflexivity|]. rewrite IH. reflexivity. Qed.

Lemma fold_right_sum_ext {A : Type} (g1 g2 : A -> R) (l : list A) :
  (forall a, In a l -> g1 a = g2 a) ->
  fold_right (fun a s => g1 a + s) 0 l = fold_right (fun a s => g2 a + s) 0 l.
Proof.
  induction l as [|a l IH]; intros H; cbn; [reflexivity|].
  rewrite IH by (intros; apply H; right; assumption).
  rewrite (H a) by (left; reflexivity). reflexivity.
Qed.

Lemma Rsum_scal_r (a : R) (f : nat -> R) (n : nat) :
  Rsum (fun j => f j * a) n = Rsum f n * a.
Proof.
  rewrite <- (Rmult_comm a), <- Rsum_scal.
  apply Rsum_ext. intros; ring.
Qed.

(** A sum over the ranks of the grid, replica by replica. *)
Lemma Rsum_by_world (g : nat -> R) (nw nc : nat) :
  (0 < nc)%nat ->
  Rsum g (nw * nc)
  = Rsum (fun w => Rsum (fun q => if Nat.eqb (Nat.div q nc) w then g q else 0)
                        (nw * nc)) nw.
Proof.
  intros Hc. rewrite Rsum_swap.
  apply Rsum_ext. intros q Hq. cbv beta.
  rewrite (Rsum_ext _ (fun w => if Nat.eqb w (Nat.div q nc) then g q else 0)).
  - rewrite (Rsum_delta (fun _ => g q) (Nat.div q nc) nw); [reflexivity|].
    apply Nat.Div0.div_lt_upper_bound. lia.
  - intros w _. rewrite Nat.eqb_sym. reflexivity.
Qed.

End Sums.

Section Averages.
Import Config Setup Step Universe Observables.

Variable c : config.
Variable un : units.
Variable k : consts.
Variable lam : array.
Variable atom_mass : nat -> R.

Lemma allreduce_by_world (val : nat -> proc -> R) (u : universe) :
  (0 < ncomms u)%nat -> nprocs u = (nworlds u * ncomms u)%nat ->
  allreduce_sum in_uworld val u
  = Rsum (fun w => allreduce_sum (in_world u (w * ncomms u)) val u) (nworlds u).
Proof.
  intros Hc Hg. rewrite allreduce_sum_Rsum. unfold in_uworld.
  rewrite Hg at 1. rewrite (Rsum_by_world _ _ _ Hc).
  apply Rsum_ext. intros w Hw. cbv beta.
  rewrite allreduce_sum_Rsum, <- Hg.
  apply Rsum_ext. intros q Hq. unfold in_world, iworld.
  rewrite Nat.div_mul by lia. reflexivity.
Qed.

(** X14: the total kinetic energy and the total spring energy that
    [compute_totke] and [compute_spring_energy] report are the per-replica
    values [ke_bead] and [se_bead], summed over the replicas and divided by
    the number of beads. *)
Theorem totals_are_replica_averages (u : universe) (r : nat) :
  (0 < ncomms u)%nat -> nprocs u = (nworlds u * ncomms u)%nat ->
  snd (compute_totke c un k lam atom_mass u r)
  = Rsum (fun w => fst (compute_totke c un k lam atom_mass u (w * ncomms u)))
         (nworlds u) / INR (np k) /\
  snd (compute_spring_energy k lam atom_mass u r)
  = Rsum (fun w => fst (compute_spring_energy k lam atom_mass u (w * ncomms u)))
         (nworlds u) / INR (np k).
Proof.
  intros Hc Hg. unfold compute_totke, compute_spring_energy. cbv zeta.
  cbn [fst snd]. split.
  - rewrite (allreduce_by_world _ u Hc Hg).
    rewrite Rsum_scal_r. unfold Rdiv. ring.
  - rewrite (allreduce_by_world _ u Hc Hg). reflexivity.
Qed.

Lemma spring_energy_zero (iw : nat) (l : list atom) :
  lam iw = 0 -> spring_energy k lam atom_mass iw l = 0.
Proof.
  intros H0. unfold spring_energy.
  rewrite (fold_left_additive _ (fun _ => 0)).
  - induction l as [|a l IH]; cbn; [ring|]. rewrite <- IH at 2.
    cbn. lra.
  - intros acc a. destruct (x a) as [[x0 x1] x2]. rewrite H0. ring.
Qed.

End Averages.

(** ** The rotation of the modes and the reported energies *)

Section ReportedEnergy.
Import Config Setup Step Universe Observables.

Variable c : config.
Variable un : units.
Variable k : consts.
Variable dt : R.
Variable lam : array.
Variables g1 g2 g3 g4 g5 g6 : array.
Variable atom_mass : nat -> R.

Local Abbreviation L := (Langevin_init c un k dt lam g1 g2 g3 g4 g5 g6).

Lemma init_members (nworlds natoms map_style : nat) (W0 V0 : R) :
  init c un nworlds dt natoms map_style W0 V0 = Done k ->
  np k = nworlds /\ hbar k = hplanck un /\
  fbond k = 1 * INR nworlds * INR nworlds
            / (1 / (boltz un * temp c) * (1 / (boltz un * temp c))
               * hplanck un * hplanck un) * mvv2e un.
Proof.
  unfold init. destruct (Nat.eqb map_style 0); [discriminate|].
  intros H. injection H as <-. repeat split.
Qed.

Lemma fbond_from_ring_frequency
    (nworlds natoms map_style : nat) (W0 V0 : R) :
  init c un nworlds dt natoms map_style W0 V0 = Done k ->
  Lan_temp c = temp c -> hplanck un <> 0 -> boltz un * temp c <> 0 ->
  fbond k = mvv2e un * (_omega_np L * _omega_np L).
Proof.
  intros Hinit HT Hh Hb.
  destruct (init_members _ _ _ _ _ Hinit) as (Hnp & Hhb & Hf).
  assert (Hbz : boltz un <> 0) by (intros E; apply Hb; rewrite E; ring).
  assert (Htz : temp c <> 0) by (intros E; apply Hb; rewrite E; ring).
  rewrite Hf. cbn [_omega_np Langevin_init]. rewrite HT, Hnp, Hhb.
  field. repeat split; assumption.
Qed.

(** X15: the spring constant [fbond] that [init] hands to
    [compute_spring_energy] is [mvv2e] times the square of the ring
    frequency [_omega_np] that [Langevin_init] hands to [a_step], once the
    thermostat temperature is [temp] (as the constructor makes it). *)
Theorem spring_constant_matches_ring_frequency
    (nworlds natoms map_style : nat) (W0 V0 : R) :
  init c un nworlds dt natoms map_style W0 V0 = Done k ->
  Lan_temp c = temp c -> hplanck un <> 0 -> boltz un * temp c <> 0 ->
  fbond k = mvv2e un * (_omega_np L * _omega_np L).
Proof. apply fbond_from_ring_frequency. Qed.

Lemma rotation_keeps_quadratic (om cs s xj vj : R) :
  om <> 0 -> s * s + cs * cs = 1 ->
  om * om * ((cs * xj + 1 / om * s * vj) * (cs * xj + 1 / om * s * vj))
  + (-1 * om * s * xj + cs * vj) * (-1 * om * s * xj + cs * vj)
  = om * om * (xj * xj) + vj * vj.
Proof.
  intros Hom Hcs.
  replace (om * om * ((cs * xj + 1 / om * s * vj) * (cs * xj + 1 / om * s * vj))
           + (-1 * om * s * xj + cs * vj) * (-1 * om * s * xj + cs * vj))
    with ((om * om * (xj * xj) + vj * vj) * (s * s + cs * cs))
    by (field; exact Hom).
  rewrite Hcs. ring.
Qed.

(** The energy of one atom as the two estimators weigh it. *)
Lemma reported_energy_of_atom (w : nat) (a : atom) :
  (w < np k)%nat -> w <> 0%nat -> 0 < lam w ->
  fbond k = mvv2e un * (_omega_np L * _omega_np L) ->
  let om := _omega_k L w in
  let '(x0, x1, x2) := x a in
  let '(v0, v1, v2) := v a in
  fmass c * (0.5 * atom_mass (type a) * fbond k * lam w
             * (x0 * x0 + x1 * x1 + x2 * x2))
  + mvv2e un * (0.5 * mass_of c lam atom_mass w (type a) * v0 * v0
                + 0.5 * mass_of c lam atom_mass w (type a) * v1 * v1
                + 0.5 * mass_of c lam atom_mass w (type a) * v2 * v2)
  = 0.5 * atom_mass (type a) * fmass c * mvv2e un
    * (match fmmode c with physical => 1 | normal => lam w end)
    * ((om * om * (x0 * x0) + v0 * v0)
       + (om * om * (x1 * x1) + v1 * v1)
       + (om * om * (x2 * x2) + v2 * v2)).
Proof.
  intros Hw Hw0 Hl Hf om.
  destruct (x a) as [[x0 x1] x2]. destruct (v a) as [[v0 v1] v2].
  unfold om. rewrite Langevin_omega_k by exact Hw.
  unfold mass_of, NormalMode.nm_mass.
  destruct (Nat.eqb_spec w 0) as [|_]; [contradiction|].
  rewrite Hf.
  assert (Hs : sqrt (lam w) * sqrt (lam w) = lam w) by (apply sqrt_sqrt; lra).
  destruct (fmmode c).
  - set (Om := _omega_np L). set (r := sqrt (lam w)) in *.
    rewrite <- Hs. ring.
  - ring.
Qed.

Lemma omega_k_nonzero (nworlds natoms map_style : nat) (W0 V0 : R) (w : nat) :
  init c un nworlds dt natoms map_style W0 V0 = Done k ->
  Lan_temp c = temp c -> hplanck un <> 0 -> boltz un * temp c <> 0 ->
  (w < np k)%nat -> 0 < lam w -> _omega_k L w <> 0.
Proof.
  intros Hinit HT Hh Hb Hw Hl.
  destruct (init_members _ _ _ _ _ Hinit) as (Hnp & Hhb & _).
  assert (HO : _omega_np L <> 0).
  { cbn [_omega_np Langevin_init]. rewrite HT, Hhb.
    assert (Hn : 0 < INR (np k)) by (apply INR_pos; lia).
    unfold Rdiv. rewrite Rmult_1_l, Rinv_inv.
    apply Rmult_integral_contrapositive_currified.
    - apply Rmult_integral_contrapositive_currified; [lra|exact Hb].
    - apply Rinv_neq_0_compat. exact Hh. }
  rewrite Langevin_omega_k by exact Hw.
  destruct (fmmode c); [|exact HO].
  apply Rmult_integral_contrapositive_currified; [exact HO|].
  assert (0 < sqrt (lam w)) by (apply sqrt_lt_R0; exact Hl). lra.
Qed.

(** X16: [a_step] keeps, on every process, the sum of the spring term
    [compute_spring_energy] adds up (weighted by [fmass]) and the kinetic
    term [compute_totke] adds up (in energy units): with [fmass = 1] the
    sum of the two reported energies is unchanged by the rotation, in both
    fictitious-mass modes. *)
Theorem a_step_keeps_reported_energy
    (nworlds natoms map_style : nat) (W0 V0 : R) (w : nat) (l : list atom) :
  init c un nworlds dt natoms map_style W0 V0 = Done k ->
  Lan_temp c = temp c -> hplanck un <> 0 -> boltz un * temp c <> 0 ->
  (w < np k)%nat -> (w <> 0%nat -> 0 < lam w) ->
  fmass c * spring_energy k lam atom_mass w (Step.a_step L w l)
  + mvv2e un * ke_local (mass_of c lam atom_mass w) (Step.a_step L w l)
  = fmass c * spring_energy k lam atom_mass w l
    + mvv2e un * ke_local (mass_of c lam atom_mass w) l.
Proof.
  intros Hinit HT Hh Hb Hw Hl.
  unfold Step.a_step. destruct (Nat.eqb_spec w 0) as [|Hw0]; [reflexivity|].
  cbn [negb]. specialize (Hl Hw0).
  assert (Hf := fbond_from_ring_frequency _ _ _ _ _ Hinit HT Hh Hb).
  assert (Hom := omega_k_nonzero _ _ _ _ _ w Hinit HT Hh Hb Hw Hl).
  unfold spring_energy, ke_local.
  set (se := fun a : atom =>
               let '(x0, x1, x2) := x a in
               0.5 * atom_mass (type a) * fbond k * lam w
               * (x0 * x0 + x1 * x1 + x2 * x2)).
  set (ke := fun a : atom =>
               let '(v0, v1, v2) := v a in
               0.5 * mass_of c lam atom_mass w (type a) * v0 * v0
               + 0.5 * mass_of c lam atom_mass w (type a) * v1 * v1
               + 0.5 * mass_of c lam atom_mass w (type a) * v2 * v2).
  assert (Hse : forall l0, fold_left
            (fun acc a => let '(x0, x1, x2) := x a in
               acc + 0.5 * atom_mass (type a) * fbond k * lam w
                     * (x0 * x0 + x1 * x1 + x2 * x2)) l0 0
          = 0 + fold_right (fun a s => se a + s) 0 l0).
  { intros l0. apply fold_left_additive. intros acc a. unfold se.
    destruct (x a) as [[x0 x1] x2]. reflexivity. }
  assert (Hke : forall l0, fold_left
            (fun acc a => let '(v0, v1, v2) := v a in
               acc + 0.5 * mass_of c lam atom_mass w (type a) * v0 * v0
               + 0.5 * mass_of c lam atom_mass w (type a) * v1 * v1
               + 0.5 * mass_of c lam atom_mass w (type a) * v2 * v2) l0 0
          = 0 + fold_right (fun a s => ke a + s) 0 l0).
  { intros l0. apply fold_left_additive. intros acc a. unfold ke.
    destruct (v a) as [[v0 v1] v2]. ring. }
  rewrite !Hse, !Hke, !fold_right_map_sum.
  assert (Hlin : forall (ga gb : atom -> R) l0,
            fmass c * (0 + fold_right (fun a s => ga a + s) 0 l0)
            + mvv2e un * (0 + fold_right (fun a s => gb a + s) 0 l0)
            = fold_right (fun a s => (fmass c * ga a + mvv2e un * gb a) + s)
                0 l0).
  { intros ga gb l0. induction l0 as [|a l0 IH]; cbn [fold_right]; [ring|].
    rewrite <- IH. ring. }
  rewrite !Hlin. apply fold_right_sum_ext. intros a _.
  assert (Ha := reported_energy_of_atom w a Hw Hw0 Hl Hf).
  assert (Ha' := reported_energy_of_atom w (a_step_atom L w a) Hw Hw0 Hl Hf).
  cbv zeta in Ha, Ha'. unfold se, ke.
  unfold a_step_atom in *.
  rewrite Langevin_Lan_c, Langevin_Lan_s in * by exact Hw.
  destruct (x a) as [[x0 x1] x2]. destruct (v a) as [[v0 v1] v2].
  cbn [x v type set_x set_v] in *.
  rewrite Ha, Ha'.
  set (om := _omega_k L w) in *. set (th := om * dt / 2).
  assert (Hcs : sin th * sin th + cos th * cos th = 1)
    by (generalize (sin2_cos2 th); unfold Rsqr; lra).
  rewrite !(rotation_keeps_quadratic om (cos th) (sin th)) by assumption.
  reflexivity.
Qed.

End ReportedEnergy.

Section EstimatorRelations.
Import Config Setup Step Universe Observables NormalMode.

(** X17: the primitive pressure estimator of [compute_p_prim] is the
    primitive kinetic-energy estimator of [compute_t_prim], for the same
    spring energy, times [2 / 3] of the inverse volume, in pressure units. *)
Theorem primitive_pressure_from_primitive_kinetic (c : config) (un : units)
    (k : consts) (natoms : nat) (inv_volume total_spring_energy : R) :
  compute_p_prim c un k natoms inv_volume total_spring_energy
  = 2 / 3 * inv_volume * compute_t_prim c un k natoms total_spring_energy
    * nktv2p un.
Proof.
  unfold compute_p_prim, compute_t_prim.
  assert (H : 1.5 = 3 / 2) by lra. rewrite H. field.
Qed.

(** X18: on the centroid replica the spring energy [se_bead] that
    [compute_spring_energy] reports is zero whatever the positions, since
    the eigenvalue [lam[0]] of [nmpimd_init] is zero. *)
Theorem centroid_replica_has_no_spring_energy (k : consts) (P : nat)
    (lam0 : array) (A0 B0 : matrix) (atom_mass : nat -> R)
    (u : universe) (r : nat) :
  (0 < P)%nat -> iworld u r = 0%nat ->
  fst (compute_spring_energy k (lam (nmpimd_init P lam0 A0 B0)) atom_mass u r)
  = 0.
Proof.
  intros HP Hw. unfold compute_spring_energy. cbv zeta. cbn [fst].
  rewrite allreduce_sum_Rsum. apply Rsum_zero. intros q _.
  unfold in_world. rewrite Hw.
  destruct (Nat.eqb_spec (iworld u q) 0) as [->|]; [|reflexivity].
  apply spring_energy_zero.
  rewrite lam_spec by exact HP. apply spec_eigenvalue_0.
Qed.

End EstimatorRelations.

(** ** The exchange plan *)

Section PlanEntries.
Import Universe.

Lemma plan_entries_row (np_ nc iw m i : nat)
    (st : (nat -> nat) * (nat -> nat) * (nat -> nat)) (idx : nat) :
  let st' := plan_row_body np_ nc iw m i st in
  let i_send := Nat.modulo (iw + i + 1) np_ in
  let i_recv := Nat.modulo (iw + np_ - i - 1) np_ in
  (forall j, (j < nc)%nat -> idx = (i * nc + j)%nat ->
     fst (fst st') idx = (i_send * nc + Nat.modulo (m + j) nc)%nat /\
     snd (fst st') idx = (i_recv * nc + Nat.modulo (m + nc - j) nc)%nat /\
     snd st' idx = i_send) /\
  ((idx < i * nc)%nat ->
     fst (fst st') idx = fst (fst st) idx /\
     snd (fst st') idx = snd (fst st) idx /\
     snd st' idx = snd st idx).
Proof.
  intros st' i_send i_recv. subst st'. unfold plan_row_body. cbv zeta.
  fold i_send. fold i_recv.
  assert (H : forall n,
    let s := for_loop 0 n (plan_entry_body nc m i_send i_recv i) st in
    (forall j, (j < n)%nat -> idx = (i * nc + j)%nat ->
       fst (fst s) idx = (i_send * nc + Nat.modulo (m + j) nc)%nat /\
       snd (fst s) idx = (i_recv * nc + Nat.modulo (m + nc - j) nc)%nat /\
       snd s idx = i_send) /\
    ((idx < i * nc)%nat ->
       fst (fst s) idx = fst (fst st) idx /\
       snd (fst s) idx = snd (fst st) idx /\
       snd s idx = snd st idx)).
  { induction n as [|n IH]; cbv zeta.
    - rewrite for_loop_empty by lia. split; [intros j Hj; lia|].
      intros _. repeat split.
    - rewrite for_loop_snoc by lia. cbv zeta in IH.
      destruct (for_loop 0 n (plan_entry_body nc m i_send i_recv i) st)
        as [[ps pr] mi].
      cbn [fst snd] in IH. destruct IH as (IH1 & IH2).
      unfold plan_entry_body, aset. cbn [fst snd]. split.
      + intros j Hj Hidx.
        destruct (Nat.eqb_spec idx (i * nc + n)) as [He|Hne].
        * assert (j = n)
            by (apply (Nat.add_cancel_l _ _ (i * nc)%nat); congruence).
          subst j. repeat split.
        * apply IH1; [|exact Hidx].
          assert (j <> n) by (intros ->; apply Hne; exact Hidx).
          clear - Hj H. lia.
      + intros Hlt.
        destruct (Nat.eqb_spec idx (i * nc + n)) as [He|Hne].
        * exfalso. rewrite He in Hlt. revert Hlt. clear.
          generalize (i * nc)%nat. intros; lia.
        * apply IH2. exact Hlt. }
  apply H.
Qed.

(** The entries [comm_init] writes, in closed form. *)
Lemma comm_init_entries (np_ nc nprocs_u iw m : nat) (j1 j2 j3 : nat -> nat)
    (i j : nat) :
  (i < np_ - 1)%nat -> (j < nc)%nat ->
  let pl := comm_init np_ nc nprocs_u iw m j1 j2 j3 in
  plan_send pl (i * nc + j)
  = (Nat.modulo (iw + i + 1) np_ * nc + Nat.modulo (m + j) nc)%nat /\
  plan_recv pl (i * nc + j)
  = (Nat.modulo (iw + np_ - i - 1) np_ * nc + Nat.modulo (m + nc - j) nc)%nat /\
  mode_index pl (i * nc + j) = Nat.modulo (iw + i + 1) np_.
Proof.
  intros Hi Hj. cbv zeta. unfold comm_init. cbv zeta.
  cbn [plan_send plan_recv mode_index].
  assert (H : forall n, (i < n)%nat ->
    let s := for_loop 0 n (plan_row_body np_ nc iw m) (j1, j2, j3) in
    fst (fst s) (i * nc + j)%nat
    = (Nat.modulo (iw + i + 1) np_ * nc + Nat.modulo (m + j) nc)%nat /\
    snd (fst s) (i * nc + j)%nat
    = (Nat.modulo (iw + np_ - i - 1) np_ * nc + Nat.modulo (m + nc - j) nc)%nat /\
    snd s (i * nc + j)%nat = Nat.modulo (iw + i + 1) np_).
  { induction n as [|n IH]; intros Hn; [lia|]. cbv zeta.
    rewrite for_loop_snoc by lia.
    destruct (plan_entries_row np_ nc iw m n
                (for_loop 0 n (plan_row_body np_ nc iw m) (j1, j2, j3))
                (i * nc + j)) as (H1 & H2).
    destruct (Nat.eq_dec i n) as [->|Hne].
    - apply (H1 j Hj eq_refl).
    - assert (Hlt : (i * nc + j < n * nc)%nat) by nia.
      destruct (H2 Hlt) as (-> & -> & ->). apply IH. lia. }
  apply (H (np_ - 1)%nat Hi).
Qed.

Lemma iplan_split (nc n iplan : nat) :
  (0 < nc)%nat -> (iplan < n * nc)%nat ->
  iplan = (Nat.div iplan nc * nc + Nat.modulo iplan nc)%nat /\
  (Nat.div iplan nc < n)%nat /\ (Nat.modulo iplan nc < nc)%nat.
Proof.
  intros Hc Hi. split; [|split].
  - rewrite Nat.mul_comm. apply Nat.div_mod_eq.
  - apply Nat.Div0.div_lt_upper_bound. lia.
  - apply Nat.mod_upper_bound. lia.
Qed.

Lemma mod_forward_back (n a b : nat) :
  (a < n)%nat -> (b < n)%nat ->
  Nat.modulo (Nat.modulo (a + b) n + n - b) n = a.
Proof.
  intros Ha Hb.
  destruct (Nat.lt_ge_cases (a + b) n) as [Hs|Hs].
  - rewrite (Nat.mod_small (a + b)) by exact Hs.
    replace (a + b + n - b)%nat with (a + 1 * n)%nat by lia.
    rewrite Nat.Div0.mod_add. apply Nat.mod_small. exact Ha.
  - replace (Nat.modulo (a + b) n) with (a + b - n)%nat.
    + replace (a + b - n + n - b)%nat with a by lia.
      apply Nat.mod_small. exact Ha.
    + symmetry. replace (a + b)%nat with ((a + b - n) + 1 * n)%nat at 1 by lia.
      rewrite Nat.Div0.mod_add. apply Nat.mod_small. lia.
Qed.

Lemma mod_back_forward (n a b : nat) :
  (a < n)%nat -> (b < n)%nat ->
  Nat.modulo (Nat.modulo (a + n - b) n + b) n = a.
Proof.
  intros Ha Hb.
  destruct (Nat.le_gt_cases b a) as [Hs|Hs].
  - replace (a + n - b)%nat with ((a - b) + 1 * n)%nat by lia.
    rewrite Nat.Div0.mod_add. rewrite (Nat.mod_small (a - b)) by lia.
    replace (a - b + b)%nat with a by lia. apply Nat.mod_small. exact Ha.
  - rewrite (Nat.mod_small (a + n - b)) by lia.
    replace (a + n - b + b)%nat with (a + 1 * n)%nat by lia.
    rewrite Nat.Div0.mod_add. apply Nat.mod_small. exact Ha.
Qed.

Lemma rank_split (nc : nat) (w m : nat) :
  (0 < nc)%nat -> (m < nc)%nat ->
  Nat.div (w * nc + m) nc = w /\ Nat.modulo (w * nc + m) nc = m.
Proof.
  intros Hc Hm. split.
  - rewrite Nat.div_add_l by lia. rewrite Nat.div_small by exact Hm. lia.
  - rewrite Nat.add_comm, Nat.Div0.mod_add. apply Nat.mod_small. exact Hm.
Qed.

Lemma rank_bound (nw nc w m : nat) :
  (w < nw)%nat -> (m < nc)%nat -> (w * nc + m < nw * nc)%nat.
Proof. intros Hw Hm. nia. Qed.

Lemma rank_join (nc r : nat) : r = (Nat.div r nc * nc + Nat.modulo r nc)%nat.
Proof. rewrite Nat.mul_comm. apply Nat.div_mod_eq. Qed.

Lemma world_forward_back (n a i : nat) :
  (a < n)%nat -> (i + 1 < n)%nat ->
  Nat.modulo (Nat.modulo (a + i + 1) n + n - i - 1) n = a.
Proof.
  intros Ha Hi.
  replace (a + i + 1)%nat with (a + (i + 1))%nat by lia.
  replace (Nat.modulo (a + (i + 1)) n + n - i - 1)%nat
    with (Nat.modulo (a + (i + 1)) n + n - (i + 1))%nat
    by (generalize (Nat.modulo (a + (i + 1)) n); intros; lia).
  apply mod_forward_back; lia.
Qed.

Lemma world_back_forward (n a i : nat) :
  (a < n)%nat -> (i + 1 < n)%nat ->
  Nat.modulo (Nat.modulo (a + n - i - 1) n + i + 1) n = a.
Proof.
  intros Ha Hi.
  replace (a + n - i - 1)%nat with (a + n - (i + 1))%nat by lia.
  replace (Nat.modulo (a + n - (i + 1)) n + i + 1)%nat
    with (Nat.modulo (a + n - (i + 1)) n + (i + 1))%nat
    by (generalize (Nat.modulo (a + n - (i + 1)) n); intros; lia).
  apply mod_back_forward; lia.
Qed.

Lemma world_forward_differs (n a i : nat) :
  (a < n)%nat -> (i + 1 < n)%nat -> Nat.modulo (a + i + 1) n <> a.
Proof.
  intros Ha Hi E.
  destruct (Nat.lt_ge_cases (a + i + 1) n) as [Hlt|Hge].
  - rewrite Nat.mod_small in E by exact Hlt. lia.
  - replace (a + i + 1)%nat with ((a + i + 1 - n) + 1 * n)%nat in E by lia.
    rewrite Nat.Div0.mod_add in E. rewrite Nat.mod_small in E by lia. lia.
Qed.

Lemma world_back_differs (n a i : nat) :
  (a < n)%nat -> (i + 1 < n)%nat -> Nat.modulo (a + n - i - 1) n <> a.
Proof.
  intros Ha Hi E.
  destruct (Nat.le_gt_cases (i + 1) a) as [Hle|Hgt].
  - replace (a + n - i - 1)%nat with ((a - i - 1) + 1 * n)%nat in E by lia.
    rewrite Nat.Div0.mod_add in E. rewrite Nat.mod_small in E by lia. lia.
  - rewrite Nat.mod_small in E by lia. lia.
Qed.

Lemma world_of_rank (nw nc r : nat) :
  (0 < nc)%nat -> (r < nw * nc)%nat ->
  (Nat.div r nc < nw)%nat /\ (Nat.modulo r nc < nc)%nat.
Proof.
  intros Hc Hr. split.
  - apply Nat.Div0.div_lt_upper_bound. lia.
  - apply Nat.mod_upper_bound. lia.
Qed.

Variable junk : nat -> nat.

(** What rank [r] sends to and receives from at plan step [iplan]. *)
Lemma plan_of_entries (u : universe) (r iplan : nat) :
  (0 < ncomms u)%nat -> (iplan < (nworlds u - 1) * ncomms u)%nat ->
  let i := Nat.div iplan (ncomms u) in
  let j := Nat.modulo iplan (ncomms u) in
  plan_send (plan_of junk u r) iplan
  = (Nat.modulo (iworld u r + i + 1) (nworlds u) * ncomms u
     + Nat.modulo (me u r + j) (ncomms u))%nat /\
  plan_recv (plan_of junk u r) iplan
  = (Nat.modulo (iworld u r + nworlds u - i - 1) (nworlds u) * ncomms u
     + Nat.modulo (me u r + ncomms u - j) (ncomms u))%nat /\
  mode_index (plan_of junk u r) iplan
  = Nat.modulo (iworld u r + i + 1) (nworlds u).
Proof.
  intros Hc Hi i j.
  destruct (iplan_split _ _ _ Hc Hi) as (He & Hin & Hjn).
  fold i in He, Hin. fold j in He, Hjn.
  unfold plan_of. rewrite He at 1 2 3.
  apply comm_init_entries; assumption.
Qed.

Lemma plan_pairing (u : universe) (r iplan : nat) :
  (0 < ncomms u)%nat -> nprocs u = (nworlds u * ncomms u)%nat ->
  (r < nprocs u)%nat -> (iplan < (nworlds u - 1) * ncomms u)%nat ->
  let q := plan_send (plan_of junk u r) iplan in
  let q' := plan_recv (plan_of junk u r) iplan in
  (q < nprocs u)%nat /\ iworld u q <> iworld u r /\
  plan_recv (plan_of junk u q) iplan = r /\
  (q' < nprocs u)%nat /\ iworld u q' <> iworld u r /\
  plan_send (plan_of junk u q') iplan = r.
Proof.
  intros Hc Hg Hr Hi q q'.
  destruct (iplan_split _ _ _ Hc Hi) as (_ & Hin & Hjn).
  destruct (plan_of_entries u r iplan Hc Hi) as (Hs & Hrv & _).
  fold q in Hs. fold q' in Hrv.
  destruct (plan_of_entries u q iplan Hc Hi) as (_ & Hrq & _).
  destruct (plan_of_entries u q' iplan Hc Hi) as (Hsq & _ & _).
  rewrite Hg in *. clear Hg.
  destruct (world_of_rank _ _ _ Hc Hr) as (Hiw & Hme).
  assert (Hr_eq := rank_join (ncomms u) r).
  unfold iworld, me in *.
  revert Hs Hrv Hrq Hsq Hin Hjn Hiw Hme Hr_eq.
  generalize (Nat.div iplan (ncomms u)) as i.
  generalize (Nat.modulo iplan (ncomms u)) as j.
  generalize (Nat.div r (ncomms u)) as iw.
  generalize (Nat.modulo r (ncomms u)) as m.
  generalize (plan_recv (plan_of junk u q) iplan) as rq.
  generalize (plan_send (plan_of junk u q') iplan) as sq.
  clearbody q q'. clear Hi Hr.
  generalize dependent (ncomms u). generalize (nworlds u) as nw.
  clear. intros nw nc Hc sq rq m iw j i Hs Hrv Hrq Hsq Hi Hj Hiw Hme Hr_eq.
  assert (Hi1 : (i + 1 < nw)%nat) by (clear - Hi; lia).
  assert (Hws : (Nat.modulo (iw + i + 1) nw < nw)%nat)
    by (apply Nat.mod_upper_bound; clear - Hi1; lia).
  assert (Hms : (Nat.modulo (m + j) nc < nc)%nat)
    by (apply Nat.mod_upper_bound; clear - Hc; lia).
  assert (Hwr : (Nat.modulo (iw + nw - i - 1) nw < nw)%nat)
    by (apply Nat.mod_upper_bound; clear - Hi1; lia).
  assert (Hmr : (Nat.modulo (m + nc - j) nc < nc)%nat)
    by (apply Nat.mod_upper_bound; clear - Hc; lia).
  destruct (rank_split nc (Nat.modulo (iw + i + 1) nw) _ Hc Hms) as (Hqw & Hqm).
  destruct (rank_split nc (Nat.modulo (iw + nw - i - 1) nw) _ Hc Hmr)
    as (Hqw' & Hqm').
  rewrite <- Hs in Hqw, Hqm. rewrite <- Hrv in Hqw', Hqm'.
  rewrite Hqw, Hqm in Hrq. rewrite Hqw', Hqm' in Hsq.
  rewrite world_forward_back in Hrq by assumption.
  rewrite mod_forward_back in Hrq by assumption.
  rewrite world_back_forward in Hsq by assumption.
  rewrite mod_back_forward in Hsq by assumption.
  split; [|split; [|split; [|split; [|split]]]].
  - rewrite Hs. apply rank_bound; assumption.
  - rewrite Hqw. apply world_forward_differs; assumption.
  - rewrite Hrq. symmetry. exact Hr_eq.
  - rewrite Hrv. apply rank_bound; assumption.
  - rewrite Hqw'. apply world_back_differs; assumption.
  - rewrite Hsq. symmetry. exact Hr_eq.
Qed.

Lemma size_plan_grid (u : universe) (r : nat) :
  nprocs u = (nworlds u * ncomms u)%nat ->
  size_plan (plan_of junk u r) = ((nworlds u - 1) * ncomms u)%nat.
Proof. intros Hg. unfold plan_of, comm_init. cbn [size_plan]. rewrite Hg. nia. Qed.

(** X19: on a grid of [nworlds] replicas of [ncomms] processes, at
    every step of the plan [comm_init] builds, the process a rank sends to
    lies in another replica and posts its receive from that very rank at the
    same step, and likewise the process it receives from sends to it: the
    paired [MPI_Sendrecv] calls of [comm_exec] meet. *)
Theorem plan_sends_meet_their_receives (u : universe) (r iplan : nat) :
  (0 < ncomms u)%nat -> nprocs u = (nworlds u * ncomms u)%nat ->
  (r < nprocs u)%nat -> (iplan < size_plan (plan_of junk u r))%nat ->
  let q := plan_send (plan_of junk u r) iplan in
  let q' := plan_recv (plan_of junk u r) iplan in
  (q < nprocs u)%nat /\ iworld u q <> iworld u r /\
  plan_recv (plan_of junk u q) iplan = r /\
  (q' < nprocs u)%nat /\ iworld u q' <> iworld u r /\
  plan_send (plan_of junk u q') iplan = r.
Proof.
  intros Hc Hg Hr Hi. rewrite size_plan_grid in Hi by exact Hg.
  apply plan_pairing; assumption.
Qed.

Lemma reach_arith (nw nc iw m wq mq : nat) :
  (0 < nc)%nat -> (iw < nw)%nat -> (wq < nw)%nat -> (m < nc)%nat ->
  (mq < nc)%nat -> wq <> iw ->
  exists i j,
    (i < nw - 1)%nat /\ (j < nc)%nat /\
    Nat.modulo (iw + i + 1) nw = wq /\ Nat.modulo (m + j) nc = mq.
Proof.
  intros Hc Hiw Hwq Hm Hmq Hne.
  exists (if Nat.ltb iw wq then (wq - iw - 1)%nat else (wq + nw - iw - 1)%nat),
         (Nat.modulo (mq + nc - m) nc).
  split; [|split; [|split]].
  - destruct (Nat.ltb_spec iw wq); lia.
  - apply Nat.mod_upper_bound. lia.
  - destruct (Nat.ltb_spec iw wq).
    + replace (iw + (wq - iw - 1) + 1)%nat with wq by lia.
      apply Nat.mod_small. exact Hwq.
    + replace (iw + (wq + nw - iw - 1) + 1)%nat with (wq + 1 * nw)%nat by lia.
      rewrite Nat.Div0.mod_add. apply Nat.mod_small. exact Hwq.
  - rewrite (Nat.add_comm m). apply mod_back_forward; assumption.
Qed.

(** Every process of another replica is the target of one step of the plan. *)
Lemma plan_reaches (u : universe) (r q : nat) :
  (0 < ncomms u)%nat -> nprocs u = (nworlds u * ncomms u)%nat ->
  (r < nprocs u)%nat -> (q < nprocs u)%nat -> iworld u q <> iworld u r ->
  exists iplan,
    (iplan < (nworlds u - 1) * ncomms u)%nat /\
    plan_send (plan_of junk u r) iplan = q /\
    mode_index (plan_of junk u r) iplan = iworld u q.
Proof.
  intros Hc Hg Hr Hq Hne. rewrite Hg in Hr, Hq.
  destruct (world_of_rank _ _ _ Hc Hr) as (Hiw & Hme).
  destruct (world_of_rank _ _ _ Hc Hq) as (Hiq & Hmq).
  destruct (reach_arith _ _ _ _ _ _ Hc Hiw Hiq Hme Hmq Hne)
    as (i & j & Hi & Hj & Hw & Hm).
  exists (i * ncomms u + j)%nat.
  assert (Hlt : (i * ncomms u + j < (nworlds u - 1) * ncomms u)%nat)
    by (apply rank_bound; assumption).
  split; [exact Hlt|].
  destruct (plan_of_entries u r (i * ncomms u + j) Hc Hlt) as (Hs & _ & Hmi).
  destruct (rank_split (ncomms u) i j Hc Hj) as (Hdi & Hdj).
  rewrite Hdi, Hdj in Hs. rewrite Hdi in Hmi. unfold iworld, me in *.
  rewrite Hs, Hmi, Hw, Hm. split; [|reflexivity].
  symmetry. apply rank_join.
Qed.

End PlanEntries.

(** ** What the exchange delivers *)

Section Delivery.
Import Universe.

Variable field : atom -> vec3.
Variable junk : nat -> nat.

Lemma find_tag_finds (t : Z) (l g : list Z) (s : nat) :
  In t l ->
  exists n, find_tag t (l ++ g) s = Some (s + n)%nat /\ (n < List.length l)%nat.
Proof.
  revert s. induction l as [|a l IH]; intros s Hin; [contradiction|].
  cbn [app find_tag List.length].
  destruct (Z.eqb_spec a t) as [He|Hne].
  - exists 0%nat. split; [f_equal; lia|lia].
  - destruct Hin as [Ha|Hin]; [contradiction|].
    destruct (IH (S s) Hin) as (n & Hn & Hlt).
    exists (S n). split; [rewrite Hn; f_equal; lia|lia].
Qed.

Lemma atom_map_of_owner (p : proc) (b : atom) :
  In b (atoms p) ->
  exists index, atom_map p (tag b) = Some index /\ (index < nlocal p)%nat.
Proof.
  intros Hin. unfold atom_map.
  destruct (find_tag_finds (tag b) (map tag (atoms p)) (ghosts p) 0) as (n & Hn & Hlt).
  - apply in_map. exact Hin.
  - exists n. split; [exact Hn|]. rewrite length_map in Hlt. exact Hlt.
Qed.

(** What a process packs: the vector of one of its own atoms, under the id
    of that atom. *)
Lemma pack_entry (u : universe) (q iplan : nat) (t : Z) (val : vec3) :
  In (t, val) (pack field junk u q iplan) ->
  exists b, In b (atoms (rank u q)) /\ tag b = t /\ field b = val.
Proof.
  unfold pack. intros H. apply in_flat_map in H.
  destruct H as (ts & _ & H).
  destruct (atom_map (rank u q) ts) as [index|] eqn:Hm; [|contradiction].
  destruct (Nat.ltb_spec index (nlocal (rank u q))) as [Hlt|]; [|contradiction].
  destruct (nth_error (atoms (rank u q)) index) as [b|] eqn:Hb; [|contradiction].
  destruct H as [H|[]]. injection H as <- <-.
  exists b. repeat split. eapply nth_error_In. exact Hb.
Qed.

Lemma pack_has (u : universe) (q iplan : nat) (a b : atom) :
  In a (atoms (rank u (plan_recv (plan_of junk u q) iplan))) ->
  In b (atoms (rank u q)) -> tag b = tag a ->
  exists val, In (tag a, val) (pack field junk u q iplan).
Proof.
  intros Ha Hb Ht.
  destruct (atom_map_of_owner _ _ Hb) as (index & Hm & Hlt).
  rewrite Ht in Hm.
  assert (Hn : exists b', nth_error (atoms (rank u q)) index = Some b').
  { destruct (nth_error (atoms (rank u q)) index) as [b'|] eqn:E;
      [exists b'; reflexivity|].
    apply nth_error_None in E. unfold nlocal in Hlt. lia. }
  destruct Hn as (b' & Hb').
  assert (Htb : tag b' = tag a).
  { assert (H := atom_map_owned _ _ _ Hm Hlt).
    rewrite nth_error_map, Hb' in H. injection H as H. exact H. }
  exists (field b'). unfold pack. apply in_flat_map.
  exists (tag a). split.
  - apply in_map. exact Ha.
  - rewrite Hm. destruct (Nat.ltb_spec index (nlocal (rank u q))); [|lia].
    rewrite Hb'. rewrite Htb. left. reflexivity.
Qed.

Lemma store_slot_cases (p : proc) (mode w i : nat) (val : vec3)
    (recvd : list (Z * vec3)) :
  (forall t v0, In (t, v0) recvd -> mode = w -> atom_map p t = Some i ->
                v0 = val) ->
  forall b, store p mode recvd b w i = b w i \/ store p mode recvd b w i = val.
Proof.
  induction recvd as [|[t v0] l IH]; intros H b; [left; reflexivity|].
  unfold store in *. cbn [fold_left fst snd].
  assert (Hl : forall t' v', In (t', v') l -> mode = w ->
                 atom_map p t' = Some i -> v' = val)
    by (intros t' v' Hin; apply H; right; exact Hin).
  destruct (atom_map p t) as [index|] eqn:Hm; [|apply IH; exact Hl].
  destruct (IH Hl (bset b mode index v0)) as [E|E]; [|right; exact E].
  rewrite E. unfold bset.
  destruct (Nat.eqb_spec w mode) as [Hw|]; [|left; reflexivity].
  destruct (Nat.eqb_spec i index) as [Hi|]; [|left; reflexivity].
  right. cbn [andb]. apply (H t v0 (or_introl eq_refl)); [congruence|].
  rewrite Hm. congruence.
Qed.

Lemma store_slot_hit (p : proc) (w i : nat) (val : vec3)
    (recvd : list (Z * vec3)) :
  (forall t v0, In (t, v0) recvd -> atom_map p t = Some i -> v0 = val) ->
  (exists t v0, In (t, v0) recvd /\ atom_map p t = Some i) ->
  forall b, store p w recvd b w i = val.
Proof.
  induction recvd as [|[t v0] l IH]; intros H (t1 & v1 & Hin & Hm1) b;
    [contradiction|].
  assert (Hl : forall t' v', In (t', v') l -> atom_map p t' = Some i -> v' = val)
    by (intros t' v' Hin'; apply H; right; exact Hin').
  destruct Hin as [He|Hin].
  - injection He as -> ->.
    assert (Hv : v1 = val) by (apply (H t1 v1 (or_introl eq_refl) Hm1)).
    change (store p w ((t1, v1) :: l) b) with
      (store p w l (match atom_map p (fst (t1, v1)) with
                    | Some index => bset b w index (snd (t1, v1))
                    | None => b
                    end)).
    cbn [fst snd]. rewrite Hm1.
    destruct (store_slot_cases p w w i val l
                (fun t' v' Hin' _ => Hl t' v' Hin') (bset b w i v1)) as [E|E];
      [|exact E].
    rewrite E. unfold bset. rewrite !Nat.eqb_refl. exact Hv.
  - change (store p w ((t, v0) :: l) b) with
      (store p w l (match atom_map p (fst (t, v0)) with
                    | Some index => bset b w index (snd (t, v0))
                    | None => b
                    end)).
    apply IH; [exact Hl|]. exists t1, v1. split; assumption.
Qed.

(** The content of a slot of the bead buffer after the exchange. *)
Lemma exchange_slot (u : universe) (r w i : nat) (a : atom) (val : vec3) :
  (0 < ncomms u)%nat -> nprocs u = (nworlds u * ncomms u)%nat ->
  (r < nprocs u)%nat ->
  nth_error (atoms (rank u r)) i = Some a ->
  atom_map (rank u r) (tag a) = Some i ->
  (exists q b, (q < nprocs u)%nat /\ iworld u q = w /\
               In b (atoms (rank u q)) /\ tag b = tag a) ->
  (forall q b, (q < nprocs u)%nat -> iworld u q = w ->
               In b (atoms (rank u q)) -> tag b = tag a -> field b = val) ->
  buf_beads (comm_exec_rank field junk u r) w i = val.
Proof.
  intros Hc Hg Hr Ha Hmap (q0 & b0 & Hq0 & Hw0 & Hb0 & Ht0) Hval.
  unfold comm_exec_rank. cbv zeta. rewrite buf_beads_set_buf.
  rewrite (size_plan_grid junk u r Hg).
  assert (Hi : (i < nlocal (rank u r))%nat).
  { unfold nlocal. apply nth_error_Some. rewrite Ha. discriminate. }
  assert (Hin_a : In a (atoms (rank u r)))
    by (eapply nth_error_In; exact Ha).
  (* every step either leaves the slot or writes [val] *)
  assert (Hstep : forall n b,
            (n < (nworlds u - 1) * ncomms u)%nat ->
            let b' := store (rank u r) (mode_index (plan_of junk u r) n)
                        (pack field junk u (plan_send (plan_of junk u r) n) n) b in
            b' w i = b w i \/ b' w i = val).
  { intros n b Hn. cbv zeta. apply store_slot_cases.
    intros t v0 Hin Hmode Hmt.
    destruct (pack_entry _ _ _ _ _ Hin) as (b1 & Hb1 & Htb1 & Hfb1).
    destruct (plan_pairing junk u r n Hc Hg Hr Hn) as (Hq & _).
    assert (Ht := atom_map_owned _ _ _ Hmt Hi).
    rewrite nth_error_map, Ha in Ht. injection Ht as Ht.
    rewrite <- Hfb1. apply (Hval (plan_send (plan_of junk u r) n) b1 Hq).
    - rewrite <- Hmode. unfold iworld, plan_of.
      apply (comm_init_send_mode junk); [exact Hc|exact Hn].
    - exact Hb1.
    - congruence. }
  destruct (Nat.eq_dec w (iworld u r)) as [Hwr|Hwr].
  - (* the replica of the rank itself: the local copy *)
    assert (Hself : field a = val)
      by (apply (Hval r a Hr (eq_sym Hwr) Hin_a eq_refl)).
    assert (Hinv : forall n, (n <= (nworlds u - 1) * ncomms u)%nat ->
              fst (for_loop 0 n (exchange_body field junk u r)
                     (copy_local field u r, nfound (rank u r))) w i = val).
    { induction n as [|n IH]; intros Hn.
      - rewrite for_loop_empty by lia. cbn [fst]. unfold copy_local.
        rewrite Hwr, Nat.eqb_refl, Ha. exact Hself.
      - rewrite for_loop_snoc by lia. specialize (IH ltac:(lia)).
        destruct (for_loop 0 n (exchange_body field junk u r)
                    (copy_local field u r, nfound (rank u r))) as [b nf].
        cbn [fst] in IH. unfold exchange_body. cbv zeta. cbn [fst].
        destruct (Hstep n b ltac:(lia)) as [E|E]; [|exact E].
        rewrite E. exact IH. }
    apply Hinv. lia.
  - (* another replica: the step that targets the owner writes the slot *)
    assert (Hne : iworld u q0 <> iworld u r) by congruence.
    destruct (plan_reaches junk u r q0 Hc Hg Hr Hq0 Hne)
      as (n0 & Hn0 & Hs0 & Hm0).
    assert (Hinv : forall n, (n <= (nworlds u - 1) * ncomms u)%nat ->
              (n0 < n)%nat ->
              fst (for_loop 0 n (exchange_body field junk u r)
                     (copy_local field u r, nfound (rank u r))) w i = val).
    { induction n as [|n IH]; intros Hn Hlt; [lia|].
      rewrite for_loop_snoc by lia.
      destruct (for_loop 0 n (exchange_body field junk u r)
                  (copy_local field u r, nfound (rank u r))) as [b nf] eqn:Eb.
      cbn [fst] in IH. unfold exchange_body. cbv zeta. cbn [fst].
      destruct (Nat.eq_dec n n0) as [->|Hnn].
      + rewrite Hm0, Hs0, Hw0.
        apply store_slot_hit.
        * intros t v0 Hin Hmt.
          destruct (pack_entry _ _ _ _ _ Hin) as (b1 & Hb1 & Htb1 & Hfb1).
          assert (Ht := atom_map_owned _ _ _ Hmt Hi).
          rewrite nth_error_map, Ha in Ht. injection Ht as Ht.
          rewrite <- Hfb1. apply (Hval q0 b1 Hq0 Hw0 Hb1). congruence.
        * destruct (plan_pairing junk u r n0 Hc Hg Hr Hn0) as (_ & _ & Hrecv & _).
          rewrite Hs0 in Hrecv.
          destruct (pack_has u q0 n0 a b0) as (v0 & Hv0).
          -- rewrite Hrecv. exact Hin_a.
          -- exact Hb0.
          -- exact Ht0.
          -- exists (tag a), v0. split; [exact Hv0|exact Hmap].
      + destruct (Hstep n b ltac:(lia)) as [E|E]; [|exact E].
        rewrite E. apply IH; lia. }
    apply Hinv; lia.
Qed.

(** X20: on a grid of [nworlds] replicas of [ncomms] processes, when
    the id map of rank [r] sends the id of its atom [a] to the slot [i] of
    [a], and some process of replica [w] owns an atom with that id, then
    after [comm_exec] slot [i] of the bead buffer of replica [w] on rank [r]
    holds the vector of that atom of replica [w] ([val] is the vector every
    owner of the id in replica [w] carries). *)
Theorem comm_exec_delivers_the_beads (u : universe) (r w i : nat) (a : atom)
    (val : vec3) :
  (0 < ncomms u)%nat -> nprocs u = (nworlds u * ncomms u)%nat ->
  (r < nprocs u)%nat ->
  nth_error (atoms (rank u r)) i = Some a ->
  atom_map (rank u r) (tag a) = Some i ->
  (exists q b, (q < nprocs u)%nat /\ iworld u q = w /\
               In b (atoms (rank u q)) /\ tag b = tag a) ->
  (forall q b, (q < nprocs u)%nat -> iworld u q = w ->
               In b (atoms (rank u q)) -> tag b = tag a -> field b = val) ->
  exists u',
    comm_exec field junk u = Done u' /\
    buf_beads (rank u' r) w i = val.
Proof.
  intros Hc Hg Hr Ha Hmap Hown Hval.
  eexists. split; [reflexivity|].
  rewrite rank_map_ranks by exact Hr.
  apply (exchange_slot u r w i a val); assumption.
Qed.

End Delivery.

(** ** The normal-mode transform on the grid *)

Section GridTransform.
Import Universe Observables Transform Props NormalMode.

Variable junk : nat -> nat.

Lemma atoms_set_buf (p : proc) (b : nat -> nat -> vec3) (n : nat) :
  atoms (set_buf p b n) = atoms p /\ ghosts (set_buf p b n) = ghosts p.
Proof. destruct p. split; reflexivity. Qed.

Lemma ghosts_set_atoms (p : proc) (l : list atom) :
  ghosts (set_atoms p l) = ghosts p.
Proof. destruct p. reflexivity. Qed.

Lemma combine_seq_nth {A : Type} (l : list A) (s i : nat) :
  nth_error (combine (seq s (List.length l)) l) i
  = option_map (fun a => ((s + i)%nat, a)) (nth_error l i).
Proof.
  revert s i. induction l as [|a l IH]; intros s i.
  - destruct i; reflexivity.
  - destruct i as [|i]; cbn [List.length seq combine nth_error option_map].
    + rewrite Nat.add_0_r. reflexivity.
    + rewrite IH. rewrite Nat.add_succ_r. reflexivity.
Qed.

Lemma slots_nth_error (l : list atom) (i : nat) :
  nth_error (slots l) i = option_map (fun a => (i, a)) (nth_error l i).
Proof. unfold slots. rewrite combine_seq_nth. reflexivity. Qed.

Lemma map_slots_nth_error {B : Type} (g : nat * atom -> B) (l : list atom)
    (i : nat) :
  nth_error (map g (slots l)) i = option_map (fun a => g (i, a)) (nth_error l i).
Proof.
  rewrite nth_error_map, slots_nth_error.
  destruct (nth_error l i); reflexivity.
Qed.

Lemma exchange_shape (field : atom -> vec3) (u : universe) :
  nprocs (exchange junk field u) = nprocs u /\
  ncomms (exchange junk field u) = ncomms u /\
  forall r, (r < nprocs u)%nat ->
    atoms (rank (exchange junk field u) r) = atoms (rank u r) /\
    ghosts (rank (exchange junk field u) r) = ghosts (rank u r).
Proof.
  unfold exchange. split; [apply nprocs_map_ranks|]. split; [reflexivity|].
  intros r Hr. rewrite rank_map_ranks by exact Hr.
  unfold comm_exec_rank. cbv zeta. apply atoms_set_buf.
Qed.

Lemma vec3_ext (a b : vec3) :
  (forall d, (d < 3)%nat -> coord a d = coord b d) -> a = b.
Proof.
  destruct a as [[a0 a1] a2]. destruct b as [[b0 b1] b2]. intros H.
  assert (H0 := H 0%nat ltac:(lia)). assert (H1 := H 1%nat ltac:(lia)).
  assert (H2 := H 2%nat ltac:(lia)). cbn in H0, H1, H2. congruence.
Qed.

Lemma coord_transform_atom (np : nat) (b : nat -> nat -> vec3) (vector : array)
    (i d : nat) :
  coord (transform_atom np b vector i) d
  = Rsum (fun j => coord (b j i) d * vector j) np.
Proof.
  unfold transform_atom, nmpimd_transform. rewrite !accumulate_Rsum.
  destruct d as [|[|d]]; reflexivity.
Qed.

(** One transform of the positions on an aligned grid: the exchange
    collects the beads of every id, the matrix row of the replica combines
    them, and the grid stays aligned. *)
Lemma transform_x_aligned (M : matrix) (u : universe)
    (pos : nat -> Z -> vec3) :
  (0 < ncomms u)%nat -> nprocs u = (nworlds u * ncomms u)%nat ->
  aligned u pos ->
  let u' := transform_x junk (nworlds u) M u in
  let pos' := fun w t =>
    (Rsum (fun j => coord (pos j t) 0 * M w j) (nworlds u),
     Rsum (fun j => coord (pos j t) 1 * M w j) (nworlds u),
     Rsum (fun j => coord (pos j t) 2 * M w j) (nworlds u)) in
  nprocs u' = nprocs u /\ ncomms u' = ncomms u /\
  (forall q j, (q < nprocs u)%nat ->
     nth_error (atoms (rank u' q)) j
     = option_map (fun b => set_x b (pos' (iworld u q) (tag b)))
         (nth_error (atoms (rank u q)) j)) /\
  aligned u' pos'.
Proof.
  intros Hc Hg (Hal & Hown) u' pos'.
  destruct (exchange_shape x u) as (Hn1 & Hc1 & Hat1).
  assert (Hn' : nprocs u' = nprocs u).
  { unfold u', transform_x. cbv zeta. rewrite nprocs_map_ranks. exact Hn1. }
  assert (Hc' : ncomms u' = ncomms u) by reflexivity.
  assert (Hnth : forall q j, (q < nprocs u)%nat ->
            nth_error (atoms (rank u' q)) j
            = option_map (fun b => set_x b (pos' (iworld u q) (tag b)))
                (nth_error (atoms (rank u q)) j)).
  { intros q j Hq. unfold u', transform_x. cbv zeta.
    rewrite rank_map_ranks by (rewrite Hn1; exact Hq).
    unfold nmpimd_transform_proc. rewrite atoms_set_atoms.
    rewrite map_slots_nth_error. cbn [fst snd].
    destruct (Hat1 q Hq) as (Hat & _). rewrite Hat.
    destruct (nth_error (atoms (rank u q)) j) as [b|] eqn:Hb; [|reflexivity].
    cbn [option_map]. f_equal. f_equal.
    destruct (Hal q j b Hq Hb) as (Hmap & _).
    apply vec3_ext. intros d Hd.
    rewrite coord_transform_atom.
    change (iworld (exchange junk x u) q) with (iworld u q).
    transitivity (Rsum (fun w => coord (pos w (tag b)) d * M (iworld u q) w)
                       (nworlds u)).
    - apply Rsum_ext. intros w Hw. f_equal. f_equal.
      unfold exchange. rewrite rank_map_ranks by exact Hq.
      apply (exchange_slot x junk u q w j b (pos w (tag b)) Hc Hg Hq Hb Hmap).
      + apply (Hown q b w Hq); [eapply nth_error_In; exact Hb|exact Hw].
      + intros q1 b1 Hq1 Hw1 Hin1 Ht1.
        destruct (In_nth_error _ _ Hin1) as (j1 & Hj1).
        destruct (Hal q1 j1 b1 Hq1 Hj1) as (_ & Hx1).
        rewrite Hx1, Hw1, Ht1. reflexivity.
    - unfold pos'. destruct d as [|[|d]]; reflexivity. }
  assert (Htags : forall q, (q < nprocs u)%nat ->
            map tag (atoms (rank u' q)) = map tag (atoms (rank u q))).
  { intros q Hq. apply nth_error_ext. intros j.
    rewrite !nth_error_map, Hnth by exact Hq.
    destruct (nth_error (atoms (rank u q)) j); reflexivity. }
  assert (Hgh : forall q, (q < nprocs u)%nat ->
            ghosts (rank u' q) = ghosts (rank u q)).
  { intros q Hq. unfold u', transform_x. cbv zeta.
    rewrite rank_map_ranks by (rewrite Hn1; exact Hq).
    unfold nmpimd_transform_proc. rewrite ghosts_set_atoms.
    apply (Hat1 q Hq). }
  assert (Hmap' : forall q t, (q < nprocs u)%nat ->
            atom_map (rank u' q) t = atom_map (rank u q) t).
  { intros q t Hq. unfold atom_map. rewrite Htags, Hgh by exact Hq.
    reflexivity. }
  split; [exact Hn'|]. split; [exact Hc'|]. split; [exact Hnth|].
  split.
  - intros q j b' Hq Hb'. rewrite Hn' in Hq.
    rewrite Hnth in Hb' by exact Hq.
    destruct (nth_error (atoms (rank u q)) j) as [b|] eqn:Hb; [|discriminate].
    cbn [option_map] in Hb'. injection Hb' as <-.
    destruct (Hal q j b Hq Hb) as (Hmap & _).
    cbn [tag set_x x]. split; [|reflexivity].
    rewrite Hmap' by exact Hq. exact Hmap.
  - intros q b' w Hq Hin' Hw. rewrite Hn' in Hq.
    destruct (In_nth_error _ _ Hin') as (j & Hj).
    rewrite Hnth in Hj by exact Hq.
    destruct (nth_error (atoms (rank u q)) j) as [b|] eqn:Hb; [|discriminate].
    cbn [option_map] in Hj. injection Hj as <-.
    assert (Hw0 : (w < nworlds u)%nat).
    { unfold nworlds in *. rewrite Hn', Hc' in Hw. exact Hw. }
    destruct (Hown q b w Hq (nth_error_In _ _ Hb) Hw0)
      as (q1 & b1 & Hq1 & Hw1 & Hin1 & Ht1).
    destruct (In_nth_error _ _ Hin1) as (j1 & Hj1).
    exists q1, (set_x b1 (pos' (iworld u q1) (tag b1))).
    split; [rewrite Hn'; exact Hq1|]. split; [exact Hw1|]. split.
    + apply (nth_error_In _ j1). rewrite Hnth by exact Hq1.
      rewrite Hj1. reflexivity.
    + cbn [tag set_x]. exact Ht1.
Qed.

(** X21: on a grid whose replicas hold the same atoms, the forward
    transform of the positions ([comm_exec], then [nmpimd_transform] with
    [M_x2xp]) followed by the inverse one (the same with [M_xp2x]) gives
    every atom of every process its position back, and changes nothing else
    of the atom. *)
Theorem grid_transform_round_trip (lam0 : array) (A0 B0 : matrix)
    (u : universe) (pos : nat -> Z -> vec3) (r i : nat) (a : atom) :
  (0 < ncomms u)%nat -> nprocs u = (nworlds u * ncomms u)%nat ->
  aligned u pos -> (r < nprocs u)%nat ->
  nth_error (atoms (rank u r)) i = Some a ->
  let T := nmpimd_init (nworlds u) lam0 A0 B0 in
  nth_error
    (atoms (rank (x_to_beads junk T (nworlds u)
                    (x_to_normal_modes junk T (nworlds u) u)) r)) i
  = Some a.
Proof.
  intros Hc Hg Hal Hr Ha T.
  unfold x_to_beads, x_to_normal_modes.
  destruct (transform_x_aligned (M_x2xp T) u pos Hc Hg Hal)
    as (Hn1 & Hc1 & Hnth1 & Hal1).
  cbv zeta in Hn1, Hc1, Hnth1, Hal1.
  set (u1 := transform_x junk (nworlds u) (M_x2xp T) u) in *.
  assert (Hw1 : nworlds u1 = nworlds u)
    by (unfold nworlds; rewrite Hn1, Hc1; reflexivity).
  assert (Hg1 : nprocs u1 = (nworlds u1 * ncomms u1)%nat)
    by (rewrite Hw1, Hn1, Hc1; exact Hg).
  destruct (transform_x_aligned (M_xp2x T) u1 _
              ltac:(rewrite Hc1; exact Hc) Hg1 Hal1)
    as (_ & _ & Hnth2 & _).
  cbv zeta in Hnth2. rewrite Hw1 in Hnth2.
  rewrite Hnth2 by (rewrite Hn1; exact Hr).
  rewrite Hnth1 by exact Hr. rewrite Ha. cbn [option_map]. f_equal.
  destruct Hal as (Hal & _). destruct (Hal r i a Hr Ha) as (_ & Hx).
  change (iworld u1 r) with (iworld u r).
  assert (Hiw : (iworld u r < nworlds u)%nat).
  { unfold iworld. apply Nat.Div0.div_lt_upper_bound. lia. }
  assert (HP : (0 < nworlds u)%nat) by lia.
  destruct a as [tg ty mk xa va fa]. unfold set_x.
  cbn [tag type mask x v f] in *. f_equal. rewrite Hx.
  apply vec3_ext. intros d Hd.
  assert (Hrt : forall d0,
            Rsum (fun j =>
                    Rsum (fun j0 => coord (pos j0 tg) d0 * M_x2xp T j j0)
                         (nworlds u)
                    * M_xp2x T (iworld u r) j) (nworlds u)
            = coord (pos (iworld u r) tg) d0).
  { intros d0.
    rewrite <- (transform_roundtrip_spec (nworlds u)
                  (fun j0 => coord (pos j0 tg) d0) (iworld u r) HP Hiw).
    apply Rsum_ext. intros j Hj. cbv beta.
    unfold T. rewrite M_xp2x_spec by assumption.
    rewrite M_x2xp_spec by lia. f_equal.
    apply Rsum_ext. intros j0 Hj0. rewrite M_x2xp_spec by lia. reflexivity. }
  rewrite <- (Hrt d).
  destruct d as [|[|d]]; reflexivity.
Qed.

End GridTransform.

(** ** The velocity-rescaling thermostat *)

Section Rescaling.
Import Config Setup Step Universe.

Lemma svr_noise_spec (natoms iw : nat) (g : rng) :
  svr_noise natoms iw g
  = (Rsum (fun n => draws g (pos g + n) * draws g (pos g + n)) (3 * natoms),
     if Nat.ltb 0 (3 * natoms) && Nat.eqb iw 0 then draws g (pos g) else 0,
     {| draws := draws g; pos := pos g + 3 * natoms |}).
Proof.
  unfold svr_noise. generalize (3 * natoms)%nat as m.
  induction m as [|m IH].
  - rewrite for_loop_empty by lia. cbn [Rsum Nat.ltb Nat.leb andb].
    rewrite Nat.add_0_r. destruct g. reflexivity.
  - rewrite for_loop_snoc by lia. rewrite IH. cbn [gaussian draws pos Rsum].
    f_equal; [f_equal|].
    + destruct m as [|m]; cbn [Nat.eqb Nat.ltb Nat.leb andb].
      * rewrite Nat.add_0_r. destruct (Nat.eqb iw 0); reflexivity.
      * reflexivity.
    + f_equal. lia.
Qed.

Lemma ke_local_scale (mass : nat -> R) (al : R) (l : list atom) :
  ke_local mass (scale_v al l) = al * al * ke_local mass l.
Proof.
  unfold ke_local.
  set (ke := fun a : atom =>
               let '(v0, v1, v2) := v a in
               0.5 * mass (type a) * v0 * v0 + 0.5 * mass (type a) * v1 * v1
               + 0.5 * mass (type a) * v2 * v2).
  assert (H : forall l0, fold_left
            (fun acc a => let '(v0, v1, v2) := v a in
               acc + 0.5 * mass (type a) * v0 * v0
               + 0.5 * mass (type a) * v1 * v1
               + 0.5 * mass (type a) * v2 * v2) l0 0
          = 0 + fold_right (fun a s => ke a + s) 0 l0).
  { intros l0. apply fold_left_additive. intros acc a. unfold ke.
    destruct (v a) as [[v0 v1] v2]. ring. }
  rewrite !H. unfold scale_v. rewrite fold_right_map_sum.
  induction l as [|a l IH]; cbn [fold_right]; [ring|].
  rewrite Rplus_0_l in IH. rewrite Rplus_0_l in IH.
  rewrite !Rplus_0_l. rewrite IH. unfold ke.
  destruct (v a) as [[v0 v1] v2]. cbn [v type set_v]. ring.
Qed.

Lemma Rsum_nonneg (g : nat -> R) (n : nat) :
  (forall j, (j < n)%nat -> 0 <= g j) -> 0 <= Rsum g n.
Proof.
  induction n as [|n IH]; intros H; cbn [Rsum]; [lra|].
  assert (0 <= Rsum g n) by (apply IH; intros; apply H; lia).
  assert (0 <= g n) by (apply H; lia). lra.
Qed.

Lemma Rsum_ge_term (g : nat -> R) (n i : nat) :
  (forall j, (j < n)%nat -> 0 <= g j) -> (i < n)%nat -> g i <= Rsum g n.
Proof.
  induction n as [|n IH]; intros H Hi; [lia|]. cbn [Rsum].
  assert (H0 : 0 <= Rsum g n) by (apply Rsum_nonneg; intros; apply H; lia).
  assert (Hn : 0 <= g n) by (apply H; lia).
  destruct (Nat.eq_dec i n) as [->|Hne]; [lra|].
  assert (g i <= Rsum g n) by (apply IH; [intros; apply H; lia|lia]). lra.
Qed.

(** The factor under the square root of [svr_step] is never negative, and
    the energy it produces. *)
Lemma rescaling_factor (c1 N beta K xi : R) :
  0 <= c1 <= 1 -> 0 < beta -> 0 < K -> xi * xi <= N ->
  let alpha2 :=
    c1 + (1 - c1) * N / 2 / beta / K
    + 2 * xi * sqrt (c1 * (1 - c1) / 2 / beta / K) in
  0 <= alpha2 /\
  alpha2 * K
  = c1 * K + (1 - c1) * N / 2 / beta
    + 2 * xi * sqrt (c1 * (1 - c1) * K / 2 / beta).
Proof.
  intros Hc Hb HK HN alpha2. split.
  - set (B := (1 - c1) / 2 / beta / K).
    assert (HB : 0 <= B).
    { unfold B. unfold Rdiv. rewrite !Rmult_assoc.
      apply Rmult_le_pos; [lra|].
      apply Rmult_le_pos; [lra|].
      apply Rmult_le_pos; apply Rlt_le, Rinv_0_lt_compat; assumption. }
    assert (Hs : sqrt B * sqrt B = B) by (apply sqrt_sqrt; exact HB).
    assert (Hsc : sqrt c1 * sqrt c1 = c1) by (apply sqrt_sqrt; lra).
    assert (Hsp : 0 <= sqrt B) by apply sqrt_pos.
    assert (Hcp : 0 <= sqrt c1) by apply sqrt_pos.
    assert (Hm : sqrt (c1 * (1 - c1) / 2 / beta / K) = sqrt c1 * sqrt B).
    { rewrite <- sqrt_mult_alt by lra. f_equal. unfold B. field. lra. }
    assert (Ha : alpha2 = c1 + B * N + 2 * xi * (sqrt c1 * sqrt B)).
    { unfold alpha2. rewrite Hm. unfold B. field. lra. }
    rewrite Ha.
    assert (Hsq : 0 <= (sqrt c1 + sqrt B * xi) * (sqrt c1 + sqrt B * xi))
      by (apply Rle_0_sqr).
    assert (HBN : B * (xi * xi) <= B * N) by (apply Rmult_le_compat_l; lra).
    nra.
  - unfold alpha2.
    set (A := c1 * (1 - c1) / 2 / beta).
    assert (HA : 0 <= A).
    { unfold A. unfold Rdiv. rewrite !Rmult_assoc.
      apply Rmult_le_pos; [lra|].
      apply Rmult_le_pos; [lra|].
      apply Rmult_le_pos; [lra|].
      apply Rlt_le, Rinv_0_lt_compat; assumption. }
    assert (HsK : sqrt K * sqrt K = K) by (apply sqrt_sqrt; lra).
    assert (HKp : 0 < sqrt K) by (apply sqrt_lt_R0; exact HK).
    replace (c1 * (1 - c1) / 2 / beta / K) with (A / K)
      by (unfold A; field; lra).
    replace (c1 * (1 - c1) * K / 2 / beta) with (A * K)
      by (unfold A; field; lra).
    rewrite sqrt_div_alt by exact HK. rewrite sqrt_mult_alt by exact HA.
    clearbody A. revert HsK HKp. generalize (sqrt K) as sK.
    generalize (sqrt A) as sA. intros sA sK HsK HKp.
    rewrite <- HsK. field. lra.
Qed.

Variable c : config.
Variable un : units.
Variable k : consts.
Variable L : langevin.
Variable lam : array.
Variable atom_mass : nat -> R.
Variable natoms : nat.

(** X22: with the thermostat [SVR], [o_step] rescales all velocities of
    the grid by one factor, and the kinetic sum [K] over all processes
    becomes [c1 K + (1 - c1) N / (2 beta) + 2 xi sqrt (c1 (1 - c1) K / (2
    beta))], where [N] is the sum of the squares of the [3 * natoms] draws
    of every process and [xi] the first draw of universe rank 0; the factor
    under the square root of the routine is never negative. *)
Theorem svr_step_sets_the_kinetic_energy (u : universe) :
  thermostat c = SVR -> (0 < nprocs u)%nat -> (0 < natoms)%nat ->
  0 <= c1 L <= 1 -> 0 < beta_np_o c un k ->
  let kinetic u0 :=
    allreduce_sum in_uworld
      (fun q pq => ke_local (mass_of c lam atom_mass (iworld u0 q)) (atoms pq))
      u0 in
  let N :=
    allreduce_sum in_uworld
      (fun q pq =>
         Rsum (fun n => draws (random pq) (pos (random pq) + n)
                        * draws (random pq) (pos (random pq) + n))
              (3 * natoms)) u in
  let xi := draws (random (rank u 0)) (pos (random (rank u 0))) in
  0 < kinetic u ->
  kinetic (o_step c un k L lam atom_mass natoms u)
  = c1 L * kinetic u + (1 - c1 L) * N / 2 / beta_np_o c un k
    + 2 * xi * sqrt (c1 L * (1 - c1 L) * kinetic u / 2 / beta_np_o c un k).
Proof.
  intros Hth Hn Hna Hc1 Hb kinetic N xi HK.
  set (K := kinetic u) in *.
  assert (HN : xi * xi <= N).
  { unfold N. rewrite allreduce_sum_Rsum. unfold in_uworld.
    apply Rle_trans with
      (Rsum (fun n => draws (random (rank u 0)) (pos (random (rank u 0)) + n)
                      * draws (random (rank u 0)) (pos (random (rank u 0)) + n))
            (3 * natoms)).
    - unfold xi.
      replace (pos (random (rank u 0))) with (pos (random (rank u 0)) + 0)%nat
        at 1 2 by lia.
      apply (Rsum_ge_term
               (fun n => draws (random (rank u 0)) (pos (random (rank u 0)) + n)
                         * draws (random (rank u 0))
                             (pos (random (rank u 0)) + n))
               (3 * natoms) 0).
      + intros j _. apply Rle_0_sqr.
      + lia.
    - apply (Rsum_ge_term
               (fun q => Rsum (fun n =>
                  draws (random (rank u q)) (pos (random (rank u q)) + n)
                  * draws (random (rank u q)) (pos (random (rank u q)) + n))
                  (3 * natoms)) (nprocs u) 0).
      + intros q _. apply Rsum_nonneg. intros j _. apply Rle_0_sqr.
      + exact Hn. }
  destruct (rescaling_factor (c1 L) N (beta_np_o c un k) K xi Hc1 Hb HK HN)
    as (Hpos & Htarget).
  cbv zeta in Hpos, Htarget. rewrite <- Htarget.
  set (alpha2 := c1 L + (1 - c1 L) * N / 2 / beta_np_o c un k / K
                 + 2 * xi * sqrt (c1 L * (1 - c1 L) / 2 / beta_np_o c un k / K))
    in *.
  set (sgn := if Rltb (xi + sqrt (2 * beta_np_o c un k * K * c1 L / (1 - c1 L))) 0
              then -1 else 1).
  assert (Hal : forall r p,
            atoms (svr_step c un k L lam atom_mass natoms in_uworld u r p)
            = scale_v (sgn * sqrt alpha2) (atoms p)).
  { intros r p. unfold svr_step. cbv zeta.
    assert (Hx : (if Nat.ltb 0 (3 * natoms) && Nat.eqb (iworld u 0) 0
                  then draws (random (rank u 0)) (pos (random (rank u 0)))
                  else 0) = xi).
    { rewrite iworld_rank0. cbn [Nat.eqb].
      destruct (Nat.ltb_spec 0 (3 * natoms)); [reflexivity|lia]. }
    assert (Hat : forall p0 a0, atoms (set_alpha p0 a0) = atoms p0)
      by (intros [] ?; reflexivity).
    rewrite Hat, atoms_set_random, atoms_set_atoms.
    rewrite !svr_noise_spec. cbn [fst snd]. rewrite Hx.
    fold K. unfold N, alpha2, sgn. fold K.
    assert (HNeq :
      allreduce_sum in_uworld
        (fun q pq => fst (fst (svr_noise natoms (iworld u q) (random pq)))) u
      = allreduce_sum in_uworld
          (fun q pq =>
             Rsum (fun n => draws (random pq) (pos (random pq) + n)
                            * draws (random pq) (pos (random pq) + n))
                  (3 * natoms)) u).
    { rewrite !allreduce_sum_Rsum. apply Rsum_ext. intros q _.
      rewrite svr_noise_spec. reflexivity. }
    rewrite HNeq. reflexivity. }
  assert (Hno : nprocs (o_step c un k L lam atom_mass natoms u) = nprocs u)
    by (unfold o_step; apply nprocs_map_ranks).
  unfold kinetic at 1. rewrite allreduce_sum_Rsum. unfold in_uworld.
  rewrite Hno.
  rewrite (Rsum_ext _
             (fun q => alpha2 *
                (ke_local (mass_of c lam atom_mass (iworld u q))
                   (atoms (rank u q))))).
  - rewrite Rsum_scal. f_equal. unfold K, kinetic.
    rewrite allreduce_sum_Rsum. reflexivity.
  - intros q Hq. unfold o_step. rewrite rank_map_ranks by exact Hq.
    rewrite Hth, Hal, ke_local_scale.
    change (iworld (map_ranks _ u) q) with (iworld u q).
    assert (Hsg : sgn * sgn = 1) by (unfold sgn; destruct (Rltb _ _); ring).
    assert (Hsq : sqrt alpha2 * sqrt alpha2 = alpha2)
      by (apply sqrt_sqrt; exact Hpos).
    replace (sgn * sqrt alpha2 * (sgn * sqrt alpha2))
      with ((sgn * sgn) * (sqrt alpha2 * sqrt alpha2)) by ring.
    rewrite Hsg, Hsq. ring.
Qed.

End Rescaling.

(** ** The centroid-virial estimator *)

Section CentroidVirial.
Import Config Setup Step Universe Observables.

Lemma update_x_unwrap_spec (l : list atom) (old : nat -> vec3) (i : nat) :
  update_x_unwrap l old i
  = match nth_error l i with Some a => x a | None => old i end.
Proof.
  unfold update_x_unwrap, slots.
  assert (H : forall (l0 : list atom) s xu,
            fold_left (fun xu ia => aset xu (fst ia) (x (snd ia)))
              (combine (seq s (List.length l0)) l0) xu i
            = if Nat.leb s i
              then match nth_error l0 (i - s) with
                   | Some a => x a
                   | None => xu i
                   end
              else xu i).
  { induction l0 as [|a l0 IH]; intros s xu.
    - cbn. destruct (Nat.leb s i); [destruct (i - s)%nat|]; reflexivity.
    - cbn [List.length seq combine fold_left fst snd]. rewrite IH.
      unfold aset.
      destruct (Nat.leb_spec (S s) i) as [H1|H1];
        destruct (Nat.leb_spec s i) as [H2|H2]; try lia.
      + replace (i - s)%nat with (S (i - S s)) by lia. cbn [nth_error].
        destruct (nth_error l0 (i - S s)); [reflexivity|].
        destruct (Nat.eqb_spec i s); [lia|reflexivity].
      + assert (i = s) by lia. subst i. rewrite Nat.sub_diag, Nat.eqb_refl.
        reflexivity.
      + destruct (Nat.eqb_spec i s); [lia|reflexivity]. }
  rewrite H. cbn [Nat.leb]. rewrite Nat.sub_0_r. reflexivity.
Qed.

Lemma slots_in (l : list atom) (ia : nat * atom) :
  In ia (slots l) -> (fst ia < List.length l)%nat.
Proof.
  destruct ia as [i a]. unfold slots. intros H.
  apply in_combine_l in H. apply in_seq in H. cbn [fst]. lia.
Qed.

Lemma xcf_local_zero (l : list atom) (xu xc : nat -> vec3) :
  (forall i, (i < List.length l)%nat -> xu i = xc i) ->
  xcf_local l xu xc = 0.
Proof.
  intros H. unfold xcf_local.
  assert (Hf : forall l0 acc,
            (forall ia, In ia l0 -> xu (fst ia) = xc (fst ia)) ->
            fold_left
              (fun acc ia =>
                 let '(u0, u1, u2) := xu (fst ia) in
                 let '(c0, c1, c2) := xc (fst ia) in
                 let '(f0, f1, f2) := f (snd ia) in
                 acc + (u0 - c0) * f0 + (u1 - c1) * f1 + (u2 - c2) * f2)
              l0 acc = acc).
  { induction l0 as [|ia l0 IH]; intros acc Hl; [reflexivity|].
    cbn [fold_left]. rewrite IH by (intros; apply Hl; right; assumption).
    rewrite (Hl ia (or_introl eq_refl)).
    destruct (xc (fst ia)) as [[c0 c1] c2].
    destruct (f (snd ia)) as [[f0 f1] f2]. ring. }
  apply Hf. intros ia Hin. apply H. apply slots_in. exact Hin.
Qed.

Variable c : config.
Variable un : units.
Variable k : consts.
Variable natoms : nat.
Variable junk : nat -> nat.
Variables unmap unmap_inv : proc -> atom -> vec3.

Lemma remap_shape (g : proc -> atom -> vec3) (u : universe) :
  nprocs (remap g u) = nprocs u /\
  forall r, (r < nprocs u)%nat ->
    List.length (atoms (rank (remap g u) r)) = List.length (atoms (rank u r)).
Proof.
  unfold remap. split; [apply nprocs_map_ranks|].
  intros r Hr. rewrite rank_map_ranks by exact Hr.
  rewrite atoms_set_atoms. apply length_map.
Qed.

(** X23: with a single replica the centroid of every atom is the
    atom itself, the centroid virial that [post_force] accumulates is zero,
    and the centroid-virial kinetic estimator [t_cv] is the classical
    [1.5 * natoms * kB * T], whatever the positions and forces. *)
Theorem single_replica_t_cv_is_classical (old : nat -> nat -> vec3)
    (u : universe) :
  np k = 1%nat -> (0 < ncomms u)%nat -> nprocs u = ncomms u ->
  snd (post_force_virial c un k natoms junk unmap unmap_inv old u)
  = 1.5 * INR natoms * boltz un * temp c.
Proof.
  intros Hnp Hc Hg. unfold post_force_virial. cbv zeta.
  set (u1 := if mapflag c then remap unmap u else u).
  assert (Hn1 : nprocs u1 = nprocs u)
    by (unfold u1; destruct (mapflag c); [apply remap_shape|reflexivity]).
  assert (Hc1 : ncomms u1 = ncomms u)
    by (unfold u1; destruct (mapflag c); reflexivity).
  unfold compute_xc. cbv zeta.
  set (u2 := map_ranks (fun r _ => comm_exec_rank x junk u1 r) u1).
  assert (Hn2 : nprocs u2 = nprocs u)
    by (unfold u2; rewrite nprocs_map_ranks; exact Hn1).
  set (u3 := if mapflag c then remap unmap_inv u2 else u2).
  assert (Hn3 : nprocs u3 = nprocs u)
    by (unfold u3; destruct (mapflag c);
        [rewrite (proj1 (remap_shape _ _))|]; exact Hn2).
  unfold compute_vir_, compute_t_vir. cbn [fst snd].
  assert (Hz : allreduce_sum in_uworld
                 (fun q pq =>
                    xcf_local (atoms pq)
                      (update_x_unwrap (atoms (rank u1 q)) (old q))
                      (centroid (np k) (buf_beads (rank u2 q)))) u3 = 0).
  { rewrite allreduce_sum_Rsum. apply Rsum_zero. intros q Hq.
    unfold in_uworld. rewrite Hn3 in Hq.
    apply xcf_local_zero. intros i Hi.
    assert (Hlen : List.length (atoms (rank u3 q))
                   = List.length (atoms (rank u1 q))).
    { unfold u3, u2. destruct (mapflag c).
      - rewrite (proj2 (remap_shape _ _)) by (fold u2; rewrite Hn2; exact Hq).
        rewrite rank_map_ranks by (rewrite Hn1; exact Hq).
        unfold comm_exec_rank. cbv zeta.
        rewrite (proj1 (atoms_set_buf _ _ _)). reflexivity.
      - rewrite rank_map_ranks by (rewrite Hn1; exact Hq).
        unfold comm_exec_rank. cbv zeta.
        rewrite (proj1 (atoms_set_buf _ _ _)). reflexivity. }
    rewrite Hlen in Hi.
    destruct (nth_error (atoms (rank u1 q)) i) as [a|] eqn:Ha;
      [|apply nth_error_None in Ha; lia].
    rewrite update_x_unwrap_spec, Ha.
    unfold u2. rewrite rank_map_ranks by (rewrite Hn1; exact Hq).
    unfold comm_exec_rank. cbv zeta. rewrite buf_beads_set_buf.
    assert (Hsz : size_plan (plan_of junk u1 q) = 0%nat).
    { unfold plan_of, comm_init. cbn [size_plan]. rewrite Hn1, Hc1, Hg. lia. }
    rewrite Hsz, for_loop_empty by lia. cbn [fst].
    unfold centroid. rewrite Hnp, !accumulate_Rsum. cbn [Rsum INR].
    unfold copy_local.
    assert (Hiw : iworld u1 q = 0%nat).
    { unfold iworld. rewrite Hc1. apply Nat.div_small. lia. }
    rewrite Hiw. cbn [Nat.eqb]. rewrite Ha.
    destruct (x a) as [[x0 x1] x2]. cbn [coord].
    f_equal; [f_equal|]; field. }
  rewrite Hz, Hnp. cbn [INR]. field.
Qed.

End CentroidVirial.

(** ** Potential energy, random draws and the centre of mass *)

Section Potential.
Import Config Setup Step Universe Observables.

(** X24: when the potential energy the host reports is the same on the
    processes of a replica, the total [compute_pote] forms is the sum of the
    values of the replicas divided by the number of beads: the division by
    the processes per replica undoes the multiple counting of the reduction
    over the whole grid. *)
Theorem pote_is_the_replica_average (k : consts) (pe_bead : nat -> R)
    (pe : nat -> R) (u : universe) :
  (0 < ncomms u)%nat -> nprocs u = (nworlds u * ncomms u)%nat ->
  (forall q, (q < nprocs u)%nat -> pe_bead q = pe (iworld u q)) ->
  compute_pote k pe_bead u = Rsum pe (nworlds u) / INR (np k).
Proof.
  intros Hc Hg Hpe. unfold compute_pote. f_equal.
  rewrite allreduce_sum_Rsum. unfold in_uworld.
  rewrite Hg at 1. rewrite (Rsum_by_world _ _ _ Hc).
  apply Rsum_ext. intros w Hw. cbv beta.
  assert (HcR : 0 < INR (ncomms u)) by (apply INR_pos; exact Hc).
  transitivity (Rsum (fun q => if Nat.eqb (Nat.div q (ncomms u)) w
                               then pe w / INR (ncomms u) else 0)
                     (nworlds u * ncomms u)).
  { apply Rsum_ext. intros q Hq.
    destruct (Nat.eqb_spec (Nat.div q (ncomms u)) w) as [E|]; [|reflexivity].
    rewrite Hpe by (rewrite Hg; exact Hq). unfold iworld. rewrite E.
    reflexivity. }
  (* exactly [ncomms] ranks belong to replica [w] *)
  assert (Hcount : forall n, (w < n)%nat ->
            Rsum (fun q => if Nat.eqb (Nat.div q (ncomms u)) w
                           then pe w / INR (ncomms u) else 0) (n * ncomms u)
            = pe w).
  { induction n as [|n IH]; intros Hn; [lia|].
    replace (S n * ncomms u)%nat with (n * ncomms u + ncomms u)%nat by lia.
    assert (Hsplit : forall (g : nat -> R) a b,
              Rsum g (a + b) = Rsum g a + Rsum (fun j => g (a + j)%nat) b).
    { intros g a b. induction b as [|b IHb].
      - rewrite Nat.add_0_r. cbn. ring.
      - rewrite Nat.add_succ_r. cbn [Rsum]. rewrite IHb. ring. }
    rewrite Hsplit.
    destruct (Nat.eq_dec w n) as [->|Hne].
    - rewrite Rsum_zero.
      + rewrite (Rsum_ext _ (fun _ => pe n / INR (ncomms u))).
        * rewrite Rsum_const. field. lra.
        * intros j Hj.
          replace (Nat.div (n * ncomms u + j) (ncomms u)) with n.
          -- rewrite Nat.eqb_refl. reflexivity.
          -- rewrite Nat.div_add_l by lia. rewrite Nat.div_small by exact Hj.
             lia.
      + intros j Hj.
        destruct (Nat.eqb_spec (Nat.div j (ncomms u)) n) as [E|]; [|reflexivity].
        exfalso. assert (Nat.div j (ncomms u) < n)%nat
          by (apply Nat.Div0.div_lt_upper_bound; lia). lia.
    - rewrite IH by lia. rewrite Rsum_zero; [ring|].
      intros j Hj.
      replace (Nat.div (n * ncomms u + j) (ncomms u)) with n.
      + destruct (Nat.eqb_spec n w); [lia|reflexivity].
      + rewrite Nat.div_add_l by lia. rewrite Nat.div_small by exact Hj. lia. }
  apply Hcount. exact Hw.
Qed.

End Potential.

Section Draws.
Import Config Setup Step Universe.

Lemma pile_loop_rng (c1k c2k beta_P : R) (mass : nat -> R) (l : list atom)
    (g : rng) :
  snd (pile_loop c1k c2k beta_P mass l g)
  = {| draws := draws g; pos := pos g + 3 * List.length l |}.
Proof.
  revert g. induction l as [|a l IH]; intros g.
  - cbn. rewrite Nat.add_0_r. destruct g. reflexivity.
  - cbn [pile_loop gaussian draws pos].
    destruct (v a) as [[v0 v1] v2].
    specialize (IH {| draws := draws g; pos := S (S (S (pos g))) |}).
    destruct (pile_loop c1k c2k beta_P mass l
                {| draws := draws g; pos := S (S (S (pos g))) |}) as [l' g'].
    cbn [snd] in *. rewrite IH. cbn [draws pos List.length]. f_equal. lia.
Qed.

Lemma random_set_random (p : proc) (g : rng) : random (set_random p g) = g.
Proof. destruct p. reflexivity. Qed.

Lemma random_set_alpha (p : proc) (a : R) : random (set_alpha p a) = random p.
Proof. destruct p. reflexivity. Qed.

Variable c : config.
Variable un : units.
Variable k : consts.
Variable L : langevin.
Variable lam : array.
Variable atom_mass : nat -> R.
Variable natoms : nat.

(** X25: [o_step] advances the generator of a process by three draws
    per owned atom where the per-mode Langevin update runs ([PILE_L], and
    the non-centroid replicas of [PILE_G]), and by three draws per atom of
    the whole system, owned or not, where the velocity rescaling runs
    ([SVR], and the centroid replica of [PILE_G]). *)
Theorem o_step_consumes_draws (u : universe) (r : nat) :
  (r < nprocs u)%nat ->
  let g := random (rank u r) in
  let g' := random (rank (o_step c un k L lam atom_mass natoms u) r) in
  draws g' = draws g /\
  pos g' = (pos g +
            match thermostat c with
            | PILE_L => 3 * nlocal (rank u r)
            | SVR => 3 * natoms
            | PILE_G =>
                if Nat.eqb (iworld u r) 0 then 3 * natoms
                else 3 * nlocal (rank u r)
            end)%nat.
Proof.
  intros Hr g g'. subst g g'. unfold o_step.
  rewrite rank_map_ranks by exact Hr.
  assert (Hpile : random (pile_step c un k L lam atom_mass u r (rank u r))
                  = {| draws := draws (random (rank u r));
                       pos := pos (random (rank u r)) + 3 * nlocal (rank u r) |}).
  { unfold pile_step.
    assert (H := pile_loop_rng (c1_k L (iworld u r)) (c2_k L (iworld u r))
                   (beta_np_o c un k) (mass_of c lam atom_mass (iworld u r))
                   (atoms (rank u r)) (random (rank u r))).
    destruct (pile_loop _ _ _ _ _ _) as [l g]. cbn [snd] in H.
    rewrite random_set_random. exact H. }
  assert (Hsvr : forall member,
            random (svr_step c un k L lam atom_mass natoms member u r (rank u r))
            = {| draws := draws (random (rank u r));
                 pos := pos (random (rank u r)) + 3 * natoms |}).
  { intros member. unfold svr_step. cbv zeta.
    rewrite random_set_alpha, random_set_random, svr_noise_spec.
    reflexivity. }
  destruct (thermostat c).
  - rewrite Hsvr. split; reflexivity.
  - rewrite Hpile. split; reflexivity.
  - destruct (Nat.eqb (iworld u r) 0).
    + rewrite Hsvr. split; reflexivity.
    + rewrite Hpile. split; reflexivity.
Qed.

End Draws.

Section CentreOfMass.
Import Config Setup Step Universe Props.

Variable atom_mass : nat -> R.
Variable groupbit : Z.

Lemma ranked_map_ranks (F : nat -> proc -> proc) (u : universe) :
  ranked (map_ranks F u)
  = map (fun rp => (fst rp, F (fst rp) (snd rp))) (ranked u).
Proof.
  unfold ranked, map_ranks, nprocs. cbn [procs].
  unfold ranked, nprocs.
  rewrite length_map, length_combine, length_seq, Nat.min_id.
  generalize 0%nat as s. induction (procs u) as [|p l IH]; intros s.
  - reflexivity.
  - cbn [List.length seq combine map fst snd]. rewrite IH. reflexivity.
Qed.

Lemma replica_map_ranks (F : nat -> proc -> proc) (u : universe) (w : nat) :
  replica (map_ranks F u) w
  = map (fun rp => F (fst rp) (snd rp))
        (filter (fun qp => Nat.eqb (iworld u (fst qp)) w) (ranked u)).
Proof.
  unfold replica. rewrite ranked_map_ranks.
  change (iworld (map_ranks F u)) with (iworld u).
  induction (ranked u) as [|rp l IH]; [reflexivity|].
  cbn [map filter fst snd].
  destruct (Nat.eqb (iworld u (fst rp)) w); cbn [map snd]; rewrite IH;
    reflexivity.
Qed.

Lemma group_sum_subtract (vcm : vec3) (d : nat) (l : list atom) :
  fold_right
    (fun a s => (if in_group groupbit a
                 then atom_mass (type a) * coord (v a) d else 0) + s)
    0 (subtract_vcm groupbit vcm l)
  = fold_right
      (fun a s => (if in_group groupbit a
                   then atom_mass (type a) * coord (v a) d else 0) + s) 0 l
    - coord vcm d
      * fold_right
          (fun a s => (if in_group groupbit a then atom_mass (type a) else 0) + s)
          0 l.
Proof.
  unfold subtract_vcm. induction l as [|a l IH]; cbn [map fold_right]; [ring|].
  rewrite IH. unfold in_group.
  destruct (negb (Z.eqb (Z.land (mask a) groupbit) 0)) eqn:E.
  - destruct (v a) as [[v0 v1] v2] eqn:Hv. destruct vcm as [[c0 c1] c2].
    cbn [mask set_v type v]. rewrite E.
    destruct d as [|[|d]]; cbn [coord]; ring.
  - rewrite E. ring.
Qed.

(** X26: taking for [group->vcm] the centre-of-mass velocity of the group
    as the documentation states it, for the total mass of the group on the
    centroid replica, [remove_com_motion] leaves the atoms of the group on
    the centroid replica with zero total momentum in every direction. *)
Theorem remove_com_motion_zeroes_the_momentum (u : universe) (d : nat) :
  let masstotal := group_mass atom_mass groupbit (replica u 0) in
  masstotal <> 0 -> (d < 3)%nat ->
  group_momentum atom_mass groupbit
    (replica
       (remove_com_motion groupbit (group_vcm atom_mass groupbit masstotal) u)
       0) d
  = 0.
Proof.
  intros masstotal Hm Hd. unfold remove_com_motion.
  rewrite replica_map_ranks.
  set (vcm := group_vcm atom_mass groupbit masstotal (replica u 0)).
  assert (Hmap : forall l,
            (forall rp, In rp l -> iworld u (fst rp) = 0%nat) ->
            group_momentum atom_mass groupbit
              (map (fun rp =>
                      if Nat.eqb (iworld u (fst rp)) 0
                      then set_atoms (snd rp)
                             (subtract_vcm groupbit
                                (group_vcm atom_mass groupbit masstotal
                                   (map snd
                                      (filter (fun qp => in_world u (fst rp) (fst qp))
                                         (ranked u))))
                                (atoms (snd rp)))
                      else snd rp) l) d
            = group_momentum atom_mass groupbit (map snd l) d
              - coord vcm d * group_mass atom_mass groupbit (map snd l)).
  { induction l as [|rp l IH]; intros Hl.
    - unfold group_momentum, group_mass, group_sum. cbn. ring.
    - unfold group_momentum, group_mass, group_sum in *.
      cbn [map fold_right].
      rewrite IH by (intros; apply Hl; right; assumption).
      assert (Hw := Hl rp (or_introl eq_refl)). rewrite Hw. cbn [Nat.eqb].
      rewrite atoms_set_atoms, group_sum_subtract.
      assert (Hsame : map snd (filter (fun qp => in_world u (fst rp) (fst qp))
                                  (ranked u)) = replica u 0).
      { unfold replica, in_world. rewrite Hw. reflexivity. }
      rewrite Hsame. fold vcm. ring. }
  rewrite Hmap.
  - fold (replica u 0). fold masstotal.
    unfold vcm, group_vcm.
    destruct d as [|[|[|d]]]; [| | |lia]; cbn [coord]; field; exact Hm.
  - intros rp Hin. apply filter_In in Hin. destruct Hin as (_ & E).
    apply Nat.eqb_eq. exact E.
Qed.

End CentreOfMass.

(** ** Instances of the further properties *)

(** ** Members the constructor gives no default *)

Section Unset.
Import Config Props.

Variable atof : string -> R.
Variable atoi : string -> Z.
Variables (pilescale0 lambda_oob : R) (seed0 seed_oob : Z).

Lemma keyword_keeps_unset (c : config) (k v : string) (next : option string)
    (c' : config) (e : bool) :
  keyword atof atoi lambda_oob seed_oob c k v next = Done (c', e) ->
  (k <> "scale"%string -> pilescale c' = pilescale c) /\
  (k <> "thermostat"%string -> seed c' = seed c).
Proof.
  intros H. unfold keyword in H.
  repeat match type of H with
  | context [if String.eqb ?a ?b then _ else _] =>
      destruct (String.eqb_spec a b)
  | context [if ?b then _ else _] => destruct b
  end;
  try discriminate; injection H as <- <-; subst;
  destruct c; cbn; split; intros Hk; try reflexivity;
  try (exfalso; apply Hk; reflexivity); try discriminate.
Qed.

Lemma keyword_loop_keeps_unset (rest : list string) :
  forall c c',
    keyword_loop atof atoi lambda_oob seed_oob rest c = Done c' ->
    (~ In "scale"%string rest -> pilescale c' = pilescale c) /\
    (~ In "thermostat"%string rest -> seed c' = seed c).
Proof.
  assert (H : forall n rest0, (List.length rest0 <= n)%nat ->
            forall c c',
              keyword_loop atof atoi lambda_oob seed_oob rest0 c = Done c' ->
              (~ In "scale"%string rest0 -> pilescale c' = pilescale c) /\
              (~ In "thermostat"%string rest0 -> seed c' = seed c)).
  { induction n as [|n IH]; intros l Hn c c' H.
    - destruct l; [|cbn in Hn; lia]. injection H as <-. split; reflexivity.
    - destruct l as [|k [|v rest2]]; cbn in H;
        try (injection H as <-; split; reflexivity).
      destruct (keyword atof atoi lambda_oob seed_oob c k v (hd_error rest2))
        as [[c1 e]|msg] eqn:Hk; [|discriminate].
      destruct (keyword_keeps_unset _ _ _ _ _ _ Hk) as (Hp1 & Hs1).
      cbn in Hn.
      assert (Htail : forall l2, (List.length l2 <= n)%nat ->
                (forall s, In s l2 -> In s (k :: v :: rest2)) ->
                keyword_loop atof atoi lambda_oob seed_oob l2 c1 = Done c' ->
                (~ In "scale"%string (k :: v :: rest2) ->
                 pilescale c' = pilescale c) /\
                (~ In "thermostat"%string (k :: v :: rest2) ->
                 seed c' = seed c)).
      { intros l2 Hl2 Hsub Hloop.
        destruct (IH l2 Hl2 c1 c' Hloop) as (Hp2 & Hs2). split; intros Hno.
        - rewrite Hp2 by (intros Hin; apply Hno, Hsub, Hin).
          apply Hp1. intros ->. apply Hno. left. reflexivity.
        - rewrite Hs2 by (intros Hin; apply Hno, Hsub, Hin).
          apply Hs1. intros ->. apply Hno. left. reflexivity. }
      destruct e.
      + destruct rest2 as [|s rest3].
        * injection H as <-. split; intros Hno.
          -- apply Hp1. intros ->. apply Hno. left. reflexivity.
          -- apply Hs1. intros ->. apply Hno. left. reflexivity.
        * apply (Htail rest3); [cbn in Hn; lia| |exact H].
          intros s0 Hin. right. right. right. exact Hin.
      + apply (Htail rest2); [lia| |exact H].
        intros s0 Hin. right. right. exact Hin. }
  intros c c'. apply (H (List.length rest)). apply le_n.
Qed.

(** X27: the constructor assigns [pilescale] and [seed] under their
    keywords only: after a command without the keyword [scale] the member
    [pilescale], which [Langevin_init] divides by, keeps the content it had
    when the constructor was entered, and after a command without the
    keyword [thermostat] so does the seed of the random generator. *)
Theorem constructor_leaves_pilescale_and_seed_unset (arg : list string)
    (c : config) :
  constructor atof atoi pilescale0 lambda_oob seed0 seed_oob arg = Done c ->
  (~ In "scale"%string (skipn 3 arg) -> pilescale c = pilescale0) /\
  (~ In "thermostat"%string (skipn 3 arg) -> seed c = seed0).
Proof.
  unfold constructor, bind.
  destruct (keyword_loop atof atoi lambda_oob seed_oob (skipn 3 arg)
              (defaults pilescale0 seed0)) as [c0|msg] eqn:Hl; [|discriminate].
  intros H. injection H as <-.
  destruct (keyword_loop_keeps_unset _ _ _ Hl) as (Hp & Hs).
  split; intros Hno.
  - transitivity (pilescale c0); [destruct c0; reflexivity|].
    rewrite Hp by exact Hno. reflexivity.
  - transitivity (seed c0); [destruct c0; reflexivity|].
    rewrite Hs by exact Hno. reflexivity.
Qed.

End Unset.

(** ** The rotation backwards in time *)

Section Reversal.
Import Config Setup Step.

Variable c : config.
Variable un : units.
Variable k : consts.
Variable dt : R.
Variable lam : array.
Variables g1 g2 g3 g4 g5 g6 : array.

(** X28: [a_step] is reversible: on a non-centroid replica with
    non-zero frequency, the rotation with the tables [Langevin_init] builds
    for the timestep [- dt] undoes the rotation with the tables it builds
    for [dt], on positions and velocities alike. *)
Theorem a_step_is_time_reversible (w : nat) (l : list atom) :
  (w < np k)%nat -> w <> 0%nat ->
  _omega_k (Langevin_init c un k dt lam g1 g2 g3 g4 g5 g6) w <> 0 ->
  a_step (Langevin_init c un k (- dt) lam g1 g2 g3 g4 g5 g6) w
    (a_step (Langevin_init c un k dt lam g1 g2 g3 g4 g5 g6) w l)
  = l.
Proof.
  intros Hw Hw0 Hom. unfold a_step.
  destruct (Nat.eqb_spec w 0) as [|_]; [contradiction|]. cbn [negb].
  rewrite map_map. rewrite <- (map_id l) at 2. apply map_ext. intros a.
  assert (Hsame : _omega_k (Langevin_init c un k (- dt) lam g1 g2 g3 g4 g5 g6) w
                  = _omega_k (Langevin_init c un k dt lam g1 g2 g3 g4 g5 g6) w).
  { rewrite !Langevin_omega_k by exact Hw. reflexivity. }
  unfold a_step_atom.
  rewrite !Langevin_Lan_c, !Langevin_Lan_s by exact Hw. rewrite Hsame.
  set (om := _omega_k (Langevin_init c un k dt lam g1 g2 g3 g4 g5 g6) w) in *.
  replace (om * - dt / 2) with (- (om * dt / 2)) by field.
  rewrite cos_neg, sin_neg.
  set (th := om * dt / 2).
  assert (Hcs : sin th * sin th + cos th * cos th = 1)
    by (generalize (sin2_cos2 th); unfold Rsqr; lra).
  destruct a as [tg ty mk [[x0 x1] x2] [[v0 v1] v2] fa].
  cbn [x v set_x set_v tag type mask f].
  assert (Hx : forall xj vj,
            cos th * (cos th * xj + 1 / om * sin th * vj)
            + 1 / om * - sin th * (-1 * om * sin th * xj + cos th * vj) = xj).
  { intros xj vj.
    replace (cos th * (cos th * xj + 1 / om * sin th * vj)
             + 1 / om * - sin th * (-1 * om * sin th * xj + cos th * vj))
      with (xj * (sin th * sin th + cos th * cos th)) by (field; exact Hom).
    rewrite Hcs. ring. }
  assert (Hv : forall xj vj,
            -1 * om * - sin th * (cos th * xj + 1 / om * sin th * vj)
            + cos th * (-1 * om * sin th * xj + cos th * vj) = vj).
  { intros xj vj.
    replace (-1 * om * - sin th * (cos th * xj + 1 / om * sin th * vj)
             + cos th * (-1 * om * sin th * xj + cos th * vj))
      with (vj * (sin th * sin th + cos th * cos th)) by (field; exact Hom).
    rewrite Hcs. ring. }
  rewrite !Hx, !Hv. reflexivity.
Qed.

End Reversal.

Section FurtherInstances.
Import Config Setup Step Universe Schedule Observables Transform Props
  NormalMode Example Cases.

Lemma constructor_accepts_in_range_or_nan_witness :
  (Ieee.fmass cfg_fmass_nan = Ieee.NaN \/
   at_least 0 (Ieee.fmass cfg_fmass_nan) /\
   at_most 1 (Ieee.fmass cfg_fmass_nan)) /\
  (Ieee.temp cfg_fmass_nan = Ieee.NaN \/ at_least 0 (Ieee.temp cfg_fmass_nan)) /\
  Ieee.Lan_temp cfg_fmass_nan = Ieee.temp cfg_fmass_nan /\
  (Ieee.Pext cfg_fmass_nan = Ieee.NaN \/ at_least 0 (Ieee.Pext cfg_fmass_nan)) /\
  (Ieee.tau_p cfg_fmass_nan = Ieee.NaN \/ above 0 (Ieee.tau_p cfg_fmass_nan)) /\
  (Ieee.omega cfg_fmass_nan = Ieee.NaN \/
   at_least 0 (Ieee.omega cfg_fmass_nan)) /\
  (Ieee.ensemble cfg_fmass_nan = nph \/ Ieee.ensemble cfg_fmass_nan = npt ->
   Ieee.pextflag cfg_fmass_nan = true).
Proof.
  apply (constructor_accepts_in_range_or_nan atof_nan atoi_m1 (Ieee.Fin 1)
           (Ieee.Fin 0) 0%Z 0%Z cmd_fmass_nan).
  reflexivity.
Defined.

Lemma nan_passes_every_range_check_witness :
  (exists c',
     Ieee.keyword atof_nan atoi_m1 (Ieee.Fin 0) 0%Z cfg_fmass_nan
       "temp" "nan" None = Done (c', false) /\
     checked_member "temp" c' = Some Ieee.NaN) /\
  (exists c',
     Ieee.constructor atof_nan atoi_m1 (Ieee.Fin 1) (Ieee.Fin 0) 0%Z 0%Z
       ["1"; "all"; "dp_pimd"; "temp"; "nan"]%string = Done c' /\
     checked_member "temp" c' = Some Ieee.NaN).
Proof.
  apply (nan_passes_every_range_check atof_nan atoi_m1 (Ieee.Fin 1)
           (Ieee.Fin 0) 0%Z 0%Z "temp" "nan" None cfg_fmass_nan
           "1" "all" "dp_pimd").
  - cbn. tauto.
  - reflexivity.
Defined.

Lemma sp_keyword_accepts_every_value_witness :
  keyword atof_m1 atoi_m1 0 0%Z cfg_after_ensemble "sp" "-1" None
  = Done (set_sp cfg_after_ensemble (atof_m1 "-1"), false).
Proof.
  apply (sp_keyword_accepts_every_value atof_m1 atoi_m1 1 0 0%Z 0%Z
           ["ensemble"; "npt"]%string).
  reflexivity.
Defined.

Lemma mttk_centroid_is_never_moved_witness :
  atoms (rank (a_step ex_langevin
                 (qc_step cfg_mttk ex_consts_npt
                    (a_step ex_langevin
                       (qc_step cfg_mttk ex_consts_npt ex_single)))) 0)
  = atoms (rank ex_single 0).
Proof.
  apply (mttk_centroid_is_never_moved cfg_mttk ex_consts_npt ex_langevin
           ex_single 0).
  - reflexivity.
  - reflexivity.
  - apply le_n.
  - reflexivity.
Defined.

Lemma qc_step_bzp_rescales_the_box_witness :
  let s := exp (dtv ex_consts_npt * vw (rank ex_single 0)) in
  let p' := rank (qc_step ex_cfg_npt ex_consts_npt ex_single) 0 in
  xprd p' = xprd (rank ex_single 0) * s /\
  yprd p' = yprd (rank ex_single 0) * s /\
  zprd p' = zprd (rank ex_single 0) * s /\
  xprd p' * yprd p' * zprd p'
  = xprd (rank ex_single 0) * yprd (rank ex_single 0) * zprd (rank ex_single 0)
    * exp (3 * dtv ex_consts_npt * vw (rank ex_single 0)).
Proof.
  apply (qc_step_bzp_rescales_the_box ex_cfg_npt ex_consts_npt ex_single 0).
  - reflexivity.
  - reflexivity.
  - apply le_n.
Defined.

Lemma b_step_adds_the_impulse_witness :
  momentum ones (Step.b_step ex_consts ones [ex_atom]) 0
  = momentum ones [ex_atom] 0 + dtf ex_consts * total_force [ex_atom] 0.
Proof.
  apply (b_step_adds_the_impulse ex_consts ones [ex_atom] 0).
  intros a _. unfold ones. lra.
Defined.

Lemma position_update_over_a_timestep_witness :
  (exists pre post,
     Schedule.initial_integrate ex_cfg
     = pre ++ [Schedule.Qc_step; Schedule.A_step;
               Schedule.Qc_step; Schedule.A_step] ++ post) /\
  exists a',
    nth_error
      (atoms (rank (a_step ex_langevin
                      (qc_step ex_cfg ex_consts
                         (a_step ex_langevin
                            (qc_step ex_cfg ex_consts ex_single)))) 0)) 0
    = Some a' /\
    (iworld ex_single 0 = 0%nat ->
     coord (x a') 0 = coord (x ex_atom) 0 + 1 * coord (v ex_atom) 0 /\
     v a' = v ex_atom) /\
    (iworld ex_single 0 <> 0%nat -> (iworld ex_single 0 < np ex_consts)%nat ->
     _omega_k ex_langevin (iworld ex_single 0) <> 0 ->
     let om := _omega_k ex_langevin (iworld ex_single 0) in
     coord (x a') 0
     = cos (om * 1) * coord (x ex_atom) 0 + sin (om * 1) / om * coord (v ex_atom) 0 /\
     coord (v a') 0
     = - om * sin (om * 1) * coord (x ex_atom) 0 + cos (om * 1) * coord (v ex_atom) 0).
Proof.
  apply (position_update_over_a_timestep ex_cfg ex_units ex_consts 1 zeros
           zeros zeros zeros zeros zeros zeros 2 1 1 0 0 ex_single 0 0 0 ex_atom).
  - reflexivity.
  - reflexivity.
  - left. reflexivity.
  - apply le_n.
  - reflexivity.
Defined.

Lemma nm_rows_are_ring_eigenvectors_witness :
  2 * M_x2xp (tables 2) 1%nat 0%nat
  - M_x2xp (tables 2) 1%nat (Nat.modulo (0 + 1) 2)
  - M_x2xp (tables 2) 1%nat (Nat.modulo (0 + 2 - 1) 2)
  = lam (tables 2) 1%nat * M_x2xp (tables 2) 1%nat 0%nat.
Proof.
  apply (nm_rows_are_ring_eigenvectors 2 ltac:(lia) zeros (fun _ _ => 0)
           (fun _ _ => 0) 1 0); lia.
Defined.

Lemma nm_transform_preserves_norm_witness :
  Rsum (fun k => (nmpimd_transform 2 ones
                    (M_x2xp (tables 2) k))
                 ^ 2) 2
  = Rsum (fun j => (ones j) ^ 2) 2.
Proof.
  apply (nm_transform_preserves_norm 2 ltac:(lia) zeros (fun _ _ => 0)
           (fun _ _ => 0) ones).
Defined.

Lemma nm_spring_sum_is_ring_spring_witness :
  mode_spring 2 (lam (tables 2))
    (fun k => nmpimd_transform 2 ones
                (M_x2xp (tables 2) k))
  = ring_spring 2 ones.
Proof.
  apply (nm_spring_sum_is_ring_spring 2 ltac:(lia) zeros (fun _ _ => 0)
           (fun _ _ => 0) ones).
Defined.

Lemma nm_eigenvalues_are_paired_and_bounded_witness :
  0 <= lam (tables 3) 1%nat <= 4 /\ lam (tables 3) 0%nat = 0 /\
  ((0 < 1)%nat -> lam (tables 3) (3 - 1)%nat = lam (tables 3) 1%nat).
Proof.
  apply (nm_eigenvalues_are_paired_and_bounded 3 ltac:(lia) zeros
           (fun _ _ => 0) (fun _ _ => 0) 1).
  lia.
Defined.

Lemma centroid_mode_is_scaled_centroid_witness :
  nmpimd_transform 2 (fun j => coord (buf_beads ex_proc j 0%nat) 0)
    (M_x2xp (tables 2) 0%nat)
  = sqrt (INR 2) * coord (centroid 2 (buf_beads ex_proc) 0) 0.
Proof.
  apply (centroid_mode_is_scaled_centroid 2 zeros (fun _ _ => 0)
           (fun _ _ => 0) (buf_beads ex_proc) 0 0).
  lia.
Defined.

Lemma totals_are_replica_averages_witness :
  snd (compute_totke ex_cfg ex_units ex_consts ones ones ex_pair 0)
  = Rsum (fun w => fst (compute_totke ex_cfg ex_units ex_consts ones ones
                          ex_pair (w * ncomms ex_pair)))
         (nworlds ex_pair) / INR (np ex_consts) /\
  snd (compute_spring_energy ex_consts ones ones ex_pair 0)
  = Rsum (fun w => fst (compute_spring_energy ex_consts ones ones ex_pair
                          (w * ncomms ex_pair)))
         (nworlds ex_pair) / INR (np ex_consts).
Proof.
  apply (totals_are_replica_averages ex_cfg ex_units ex_consts ones ones
           ex_pair 0).
  - apply le_n.
  - reflexivity.
Defined.

Lemma spring_constant_matches_ring_frequency_witness :
  fbond ex_consts
  = mvv2e ex_units
    * (_omega_np (Langevin_init ex_cfg ex_units ex_consts 1 ones
                    zeros zeros zeros zeros zeros zeros)
       * _omega_np (Langevin_init ex_cfg ex_units ex_consts 1 ones
                      zeros zeros zeros zeros zeros zeros)).
Proof.
  apply (spring_constant_matches_ring_frequency ex_cfg ex_units ex_consts 1
           ones zeros zeros zeros zeros zeros zeros 2 1 1 0 0).
  - reflexivity.
  - reflexivity.
  - cbn. lra.
  - cbn. lra.
Defined.

Lemma a_step_keeps_reported_energy_witness :
  fmass ex_cfg
  * spring_energy ex_consts ones ones 1
      (Step.a_step (Langevin_init ex_cfg ex_units ex_consts 1 ones
                      zeros zeros zeros zeros zeros zeros) 1 [ex_atom])
  + mvv2e ex_units
    * ke_local (mass_of ex_cfg ones ones 1)
        (Step.a_step (Langevin_init ex_cfg ex_units ex_consts 1 ones
                        zeros zeros zeros zeros zeros zeros) 1 [ex_atom])
  = fmass ex_cfg * spring_energy ex_consts ones ones 1 [ex_atom]
    + mvv2e ex_units * ke_local (mass_of ex_cfg ones ones 1) [ex_atom].
Proof.
  apply (a_step_keeps_reported_energy ex_cfg ex_units ex_consts 1 ones
           zeros zeros zeros zeros zeros zeros ones 2 1 1 0 0 1 [ex_atom]).
  - reflexivity.
  - reflexivity.
  - cbn. lra.
  - cbn. lra.
  - apply le_n.
  - intros _. unfold ones. lra.
Defined.

Lemma centroid_replica_has_no_spring_energy_witness :
  fst (compute_spring_energy ex_consts
         (lam (tables 2)) ones
         ex_pair 0)
  = 0.
Proof.
  apply (centroid_replica_has_no_spring_energy ex_consts 2 zeros
           (fun _ _ => 0) (fun _ _ => 0) ones ex_pair 0).
  - lia.
  - reflexivity.
Defined.

Lemma plan_sends_meet_their_receives_witness :
  let q := plan_send (plan_of no_junk ex_pair 0) 0 in
  let q' := plan_recv (plan_of no_junk ex_pair 0) 0 in
  (q < nprocs ex_pair)%nat /\ iworld ex_pair q <> iworld ex_pair 0 /\
  plan_recv (plan_of no_junk ex_pair q) 0 = 0%nat /\
  (q' < nprocs ex_pair)%nat /\ iworld ex_pair q' <> iworld ex_pair 0 /\
  plan_send (plan_of no_junk ex_pair q') 0 = 0%nat.
Proof.
  apply (plan_sends_meet_their_receives no_junk ex_pair 0 0).
  - apply le_n.
  - reflexivity.
  - apply le_S, le_n.
  - apply le_n.
Defined.

Lemma ex_pair_owner (q : nat) (b : atom) :
  (q < nprocs ex_pair)%nat -> iworld ex_pair q = 1%nat ->
  In b (atoms (rank ex_pair q)) -> x b = (4, 4, 4).
Proof.
  intros Hq Hw Hin. unfold iworld in Hw. cbn [ncomms ex_pair] in Hw.
  rewrite Nat.div_1_r in Hw. subst q.
  destruct Hin as [<-|[]]. reflexivity.
Qed.

Lemma comm_exec_delivers_the_beads_witness :
  exists u',
    comm_exec x no_junk ex_pair = Done u' /\
    buf_beads (rank u' 0) 1%nat 0%nat = (4, 4, 4).
Proof.
  apply (comm_exec_delivers_the_beads x no_junk ex_pair 0 1 0
           (ex_tagged_atom (1, 2, 3)) (4, 4, 4)).
  - apply le_n.
  - reflexivity.
  - apply le_S, le_n.
  - reflexivity.
  - reflexivity.
  - exists 1%nat, (ex_tagged_atom (4, 4, 4)).
    split; [apply le_n|]. split; [reflexivity|]. split; [|reflexivity].
    left. reflexivity.
  - intros q b Hq Hw Hin _. exact (ex_pair_owner q b Hq Hw Hin).
Defined.

Lemma ex_pair_aligned : aligned ex_pair ex_pos.
Proof.
  split.
  - intros q j b Hq Hb.
    destruct q as [|[|q]]; [| |cbn in Hq; lia];
      (destruct j as [|j]; [|destruct j; discriminate]);
      injection Hb as <-; split; reflexivity.
  - intros q b w Hq Hin Hw.
    assert (Ht : tag b = 7%Z).
    { destruct q as [|[|q]]; [| |cbn in Hq; lia];
        destruct Hin as [<-|[]]; reflexivity. }
    destruct w as [|[|w]]; [| |cbn in Hw; lia].
    + exists 0%nat, (ex_tagged_atom (1, 2, 3)).
      split; [cbn; lia|]. split; [reflexivity|].
      split; [left; reflexivity|]. rewrite Ht. reflexivity.
    + exists 1%nat, (ex_tagged_atom (4, 4, 4)).
      split; [cbn; lia|]. split; [reflexivity|].
      split; [left; reflexivity|]. rewrite Ht. reflexivity.
Qed.

Lemma grid_transform_round_trip_witness :
  nth_error
    (atoms (rank (x_to_beads no_junk
                    (tables (nworlds ex_pair)) (nworlds ex_pair)
                    (x_to_normal_modes no_junk
                       (tables (nworlds ex_pair)) (nworlds ex_pair) ex_pair)) 0)) 0
  = Some (ex_tagged_atom (1, 2, 3)).
Proof.
  apply (grid_transform_round_trip no_junk zeros (fun _ _ => 0) (fun _ _ => 0)
           ex_pair ex_pos 0 0 (ex_tagged_atom (1, 2, 3))).
  - apply le_n.
  - reflexivity.
  - exact ex_pair_aligned.
  - apply le_S, le_n.
  - reflexivity.
Defined.

Lemma ex_single_kinetic :
  allreduce_sum in_uworld
    (fun q pq => ke_local (mass_of cfg_svr ones ones (iworld ex_single q))
                   (atoms pq)) ex_single
  = 1.5.
Proof.
  unfold allreduce_sum, ranked, ex_single, nprocs. cbn [procs List.length seq
    combine fold_left fst snd in_uworld].
  unfold ke_local, ex_proc, ex_atom, mass_of, NormalMode.nm_mass, iworld, ones.
  cbn. lra.
Qed.

Lemma svr_step_sets_the_kinetic_energy_witness :
  let kinetic u0 :=
    allreduce_sum in_uworld
      (fun q pq => ke_local (mass_of cfg_svr ones ones (iworld u0 q)) (atoms pq))
      u0 in
  let N :=
    allreduce_sum in_uworld
      (fun q pq =>
         Rsum (fun n => draws (random pq) (pos (random pq) + n)
                        * draws (random pq) (pos (random pq) + n))
              (3 * 1)) ex_single in
  let xi := draws (random (rank ex_single 0)) (pos (random (rank ex_single 0))) in
  kinetic (o_step cfg_svr ex_units ex_consts langevin_half ones ones 1 ex_single)
  = c1 langevin_half * kinetic ex_single
    + (1 - c1 langevin_half) * N / 2 / beta_np_o cfg_svr ex_units ex_consts
    + 2 * xi * sqrt (c1 langevin_half * (1 - c1 langevin_half)
                     * kinetic ex_single / 2
                     / beta_np_o cfg_svr ex_units ex_consts).
Proof.
  apply (svr_step_sets_the_kinetic_energy cfg_svr ex_units ex_consts
           langevin_half ones ones 1 ex_single).
  - reflexivity.
  - apply le_n.
  - apply le_n.
  - cbn. lra.
  - unfold beta_np_o. cbn. lra.
  - rewrite ex_single_kinetic. lra.
Defined.

Lemma single_replica_t_cv_is_classical_witness :
  snd (post_force_virial ex_cfg ex_units ex_consts_dt2 1 no_junk no_remap
         no_remap no_buffer ex_single)
  = 1.5 * INR 1 * boltz ex_units * temp ex_cfg.
Proof.
  apply (single_replica_t_cv_is_classical ex_cfg ex_units ex_consts_dt2 1
           no_junk no_remap no_remap no_buffer ex_single).
  - reflexivity.
  - apply le_n.
  - reflexivity.
Defined.

Lemma pote_is_the_replica_average_witness :
  compute_pote ex_consts ones ex_pair
  = Rsum ones (nworlds ex_pair) / INR (np ex_consts).
Proof.
  apply (pote_is_the_replica_average ex_consts ones ones ex_pair).
  - apply le_n.
  - reflexivity.
  - intros q _. reflexivity.
Defined.

Lemma o_step_consumes_draws_witness :
  let g := random (rank ex_single 0) in
  let g' := random (rank (o_step ex_cfg ex_units ex_consts ex_langevin zeros
                            ones 1 ex_single) 0) in
  draws g' = draws g /\
  pos g' = (pos g +
            match thermostat ex_cfg with
            | PILE_L => 3 * nlocal (rank ex_single 0)
            | SVR => 3 * 1
            | PILE_G =>
                if Nat.eqb (iworld ex_single 0) 0 then 3 * 1
                else 3 * nlocal (rank ex_single 0)
            end)%nat.
Proof.
  apply (o_step_consumes_draws ex_cfg ex_units ex_consts ex_langevin zeros
           ones 1 ex_single 0).
  apply le_n.
Defined.

Lemma remove_com_motion_zeroes_the_momentum_witness :
  group_momentum ones 1
    (replica
       (remove_com_motion 1
          (group_vcm ones 1 (group_mass ones 1 (replica ex_single 0)))
          ex_single) 0) 0
  = 0.
Proof.
  apply (remove_com_motion_zeroes_the_momentum ones 1 ex_single 0).
  - unfold group_mass, group_sum, replica, ranked, ex_single, ex_proc,
      ex_atom, in_group, ones, nprocs. cbn. lra.
  - lia.
Defined.

Lemma constructor_leaves_pilescale_and_seed_unset_witness :
  pilescale cfg_npt = 1 /\ seed cfg_npt = 0%Z.
Proof.
  destruct (constructor_leaves_pilescale_and_seed_unset atof_m1 atoi_m1 1 0
              0%Z 0%Z cmd_npt cfg_npt eq_refl) as (Hp & Hs).
  split; [apply Hp | apply Hs]; cbn; intuition discriminate.
Defined.

Lemma a_step_is_time_reversible_witness :
  Step.a_step (Langevin_init ex_cfg ex_units ex_consts (- 1) zeros
                 zeros zeros zeros zeros zeros zeros) 1
    (Step.a_step (Langevin_init ex_cfg ex_units ex_consts 1 zeros
                    zeros zeros zeros zeros zeros zeros) 1 [ex_atom])
  = [ex_atom].
Proof.
  apply (a_step_is_time_reversible ex_cfg ex_units ex_consts 1 zeros
           zeros zeros zeros zeros zeros zeros 1 [ex_atom]).
  - apply le_n.
  - discriminate.
  - rewrite Langevin_omega_k by apply le_n. cbn.
    assert (E : (1 + 1) / (1 / (1 * 1)) / 1 = 2) by (field; lra).
    rewrite E. lra.
Defined.

End FurtherInstances.
